(** * Tredd: chunk codec, seller daemon and key reveal

    A shallow embedding of the Go sources
      - [serve.go]            ([Serve], the chunked encrypt-and-commit encoder),
      - [cmd/tredd/server.go] (the seller daemon: request handler, record
                               store, start-up replay of the deadline queue),
      - [tx.go]               ([RevealKey]),
    together with the library functions they call (SHA-256,
    [encoding/binary] varints, the streaming Merkle tree, [strconv],
    [encoding/hex], the millisecond clock conversions).

    Conventions.  A byte is a [Z] in [0, 256).  A [uint64] / [int64] is a
    [Z] whose wrap-around is written out ([u64], [i64]).  A [time.Time] is
    the number of nanoseconds since the Unix epoch, a [time.Duration] a
    saturating [int64] number of nanoseconds. *)

From Stdlib Require Import ZArith Lia List Bool Ascii String Sorted.
From stdpp Require Import base option list gmap strings.
Import ListNotations.

Local Open Scope Z_scope.

Abbreviation byte := Z (only parsing).
Abbreviation bytes := (list Z) (only parsing).

(** ** Machine integers *)

Definition u64 (x : Z) : Z := x mod 2 ^ 64.

Definition i64 (x : Z) : Z := (x + 2 ^ 63) mod 2 ^ 64 - 2 ^ 63.

Definition u8 (x : Z) : Z := x mod 256.

(** ** SHA-256 (FIPS 180-4), as [crypto/sha256] computes it *)

Module SHA256.

Definition w32 (x : Z) : Z := x mod 2 ^ 32.

Definition add32 (x y : Z) : Z := w32 (x + y).

Definition rotr (n x : Z) : Z :=
  Z.lor (Z.shiftr x n) (w32 (Z.shiftl x (32 - n))).

Definition not32 (x : Z) : Z := 2 ^ 32 - 1 - x.

Definition Ch (x y z : Z) : Z :=
  Z.lxor (Z.land x y) (Z.land (not32 x) z).

Definition Maj (x y z : Z) : Z :=
  Z.lxor (Z.lxor (Z.land x y) (Z.land x z)) (Z.land y z).

Definition bsig0 (x : Z) : Z :=
  Z.lxor (Z.lxor (rotr 2 x) (rotr 13 x)) (rotr 22 x).

Definition bsig1 (x : Z) : Z :=
  Z.lxor (Z.lxor (rotr 6 x) (rotr 11 x)) (rotr 25 x).

Definition ssig0 (x : Z) : Z :=
  Z.lxor (Z.lxor (rotr 7 x) (rotr 18 x)) (Z.shiftr x 3).

Definition ssig1 (x : Z) : Z :=
  Z.lxor (Z.lxor (rotr 17 x) (rotr 19 x)) (Z.shiftr x 10).

(** The largest [r] in [[lo, hi)] with [r ^ k <= n], by bisection. *)
Fixpoint root_between (fuel : nat) (k n lo hi : Z) : Z :=
match fuel with
| O => lo
| S fuel' =>
    let mid := (lo + hi) / 2 in
    if mid ^ k <=? n
    then root_between fuel' k n mid hi
    else root_between fuel' k n lo mid
end.

(** The first 32 bits of the fractional part of the [k]-th root of [p]. *)
Definition root_fraction (k p : Z) : Z :=
w32 (root_between 48 k (p * 2 ^ (32 * k)) 0 (2 ^ 40)).

Definition primes : list Z :=
[ 2; 3; 5; 7; 11; 13; 17; 19; 23; 29; 31; 37; 41; 43; 47; 53; 59; 61; 67;
  71; 73; 79; 83; 89; 97; 101; 103; 107; 109; 113; 127; 131; 137; 139; 149;
  151; 157; 163; 167; 173; 179; 181; 191; 193; 197; 199; 211; 223; 227; 229;
  233; 239; 241; 251; 257; 263; 269; 271; 277; 281; 283; 293; 307; 311 ].

(** The round constants: from the cube roots of the first 64 primes. *)
Definition K : list Z := Eval vm_compute in map (root_fraction 3) primes.

(** The eight working variables / chaining values. *)
Record state := mkState {
sa : Z; sb : Z; sc : Z; sd : Z; se : Z; sf : Z; sg : Z; sh : Z }.

(** The initial hash value: from the square roots of the first 8 primes. *)
Definition init : state := Eval vm_compute in
  match map (root_fraction 2) (firstn 8 primes) with
  | [a; b; c; d; e; f; g; h] => mkState a b c d e f g h
  | _ => mkState 0 0 0 0 0 0 0 0
  end.

(** Big-endian packing. *)
Fixpoint be_words (bs : bytes) : list Z :=
  match bs with
  | b0 :: b1 :: b2 :: b3 :: rest =>
      (u8 b0 * 2 ^ 24 + u8 b1 * 2 ^ 16 + u8 b2 * 2 ^ 8 + u8 b3) :: be_words rest
  | _ => []
  end.

Definition be32 (x : Z) : bytes :=
  [ u8 (Z.shiftr x 24); u8 (Z.shiftr x 16); u8 (Z.shiftr x 8); u8 x ].

Definition be64 (x : Z) : bytes :=
  be32 (w32 (Z.shiftr x 32)) ++ be32 (w32 x).

(** The message schedule, kept newest-first while it is extended. *)
Fixpoint extend (n : nat) (rev_w : list Z) : list Z :=
  match n with
  | O => rev_w
  | S n' =>
      let at_ i := nth i rev_w 0 in
      let wt := add32 (add32 (ssig1 (at_ 1%nat)) (at_ 6%nat))
                      (add32 (ssig0 (at_ 14%nat)) (at_ 15%nat)) in
      extend n' (wt :: rev_w)
  end.

Definition schedule (block : bytes) : list Z :=
  rev (extend 48 (rev (be_words block))).

Definition round (s : state) (kw : Z * Z) : state :=
  let t1 := add32 (add32 (add32 (sh s) (bsig1 (se s)))
                         (add32 (Ch (se s) (sf s) (sg s)) (fst kw))) (snd kw) in
  let t2 := add32 (bsig0 (sa s)) (Maj (sa s) (sb s) (sc s)) in
  mkState (add32 t1 t2) (sa s) (sb s) (sc s)
          (add32 (sd s) t1) (se s) (sf s) (sg s).

Definition compress (s : state) (block : bytes) : state :=
  let r := fold_left round (combine K (schedule block)) s in
  mkState (add32 (sa s) (sa r)) (add32 (sb s) (sb r))
          (add32 (sc s) (sc r)) (add32 (sd s) (sd r))
          (add32 (se s) (se r)) (add32 (sf s) (sf r))
          (add32 (sg s) (sg r)) (add32 (sh s) (sh r)).

Definition pad (msg : bytes) : bytes :=
  let l := Z.of_nat (length msg) in
  msg ++ [0x80] ++ repeat 0 (Z.to_nat ((55 - l) mod 64)) ++ be64 (8 * l).

Fixpoint blocks (n : nat) (s : state) (bs : bytes) : state :=
  match n with
  | O => s
  | S n' => blocks n' (compress s (firstn 64 bs)) (skipn 64 bs)
  end.

Definition digest (s : state) : bytes :=
  be32 (sa s) ++ be32 (sb s) ++ be32 (sc s) ++ be32 (sd s) ++
  be32 (se s) ++ be32 (sf s) ++ be32 (sg s) ++ be32 (sh s).

(** [h.Reset(); h.Write(msg); h.Sum(nil)] *)
Definition sum (msg : bytes) : bytes :=
  let p := pad msg in
  digest (blocks (Nat.div (length p) 64) init p).

Definition Size : nat := 32.

End SHA256.

(** ** Hexadecimal, as [encoding/hex] *)

Definition hexdigit (c : ascii) : option Z :=
  let n := Z.of_nat (nat_of_ascii c) in
  if (48 <=? n) && (n <=? 57) then Some (n - 48)
  else if (97 <=? n) && (n <=? 102) then Some (n - 97 + 10)
  else if (65 <=? n) && (n <=? 70) then Some (n - 65 + 10)
  else None.

(** [hex.DecodeString]: an odd length or a character outside
    [0-9a-fA-F] is an error. *)
Fixpoint DecodeString (s : string) : option bytes :=
  match s with
  | EmptyString => Some []
  | String c1 (String c2 rest) =>
      match hexdigit c1, hexdigit c2, DecodeString rest with
      | Some h, Some l, Some bs => Some ((h * 16 + l) :: bs)
      | _, _, _ => None
      end
  | String _ EmptyString => None
  end.

Definition unhex (s : string) : bytes := default [] (DecodeString s).

(** ** Varints, as [encoding/binary] *)

Definition MaxVarintLen64 : nat := 10.

(** [for x >= 0x80 { buf[i] = byte(x) | 0x80; x >>= 7; i++ }; buf[i] = byte(x)].
    A [uint64] has at most nine continuation bytes. *)
Fixpoint putUvarint (fuel : nat) (x : Z) : bytes :=
  match fuel with
  | O => [u8 x]
  | S fuel' =>
      if 0x80 <=? x
      then Z.lor (u8 x) 0x80 :: putUvarint fuel' (Z.shiftr x 7)
      else [u8 x]
  end.

(** The bytes [binary.PutUvarint(buf, x)] stores at the front of [buf];
    its return value is their number. *)
Definition PutUvarint (x : Z) : bytes := putUvarint 9 x.

(** [binary.Uvarint]: the value and the number of bytes read; [(0, 0)] when
    the buffer is too small, [(0, -n)] on overflow. *)
Fixpoint uvarint (buf : bytes) (i : nat) (x s : Z) : Z * Z :=
  match buf with
  | [] => (0, 0)
  | b :: rest =>
      if (i =? MaxVarintLen64)%nat then (0, - (Z.of_nat i + 1))
      else if b <? 0x80 then
        if (i =? MaxVarintLen64 - 1)%nat && (1 <? b)
        then (0, - (Z.of_nat i + 1))
        else (Z.lor x (u64 (Z.shiftl b s)), Z.of_nat i + 1)
      else uvarint rest (S i) (Z.lor x (u64 (Z.shiftl (Z.land b 0x7f) s))) (s + 7)
  end.

Definition Uvarint (buf : bytes) : Z * Z := uvarint buf 0 0 0.

(** [binary.PutVarint]: zig-zag, then [PutUvarint]. *)
Definition PutVarint (x : Z) : bytes :=
  let ux := u64 (Z.shiftl (u64 x) 1) in
  PutUvarint (if x <? 0 then u64 (Z.lnot ux) else ux).

(** [binary.Varint] *)
Definition Varint (buf : bytes) : Z * Z :=
  let '(ux, n) := Uvarint buf in
  let x := i64 (Z.shiftr ux 1) in
  (if Z.land ux 1 =? 0 then x else i64 (Z.lnot x), n).

(** ** Slices of a backing array *)

(** [buf[lo:hi]] *)
Definition slice (buf : bytes) (lo hi : nat) : bytes :=
  take (hi - lo) (drop lo buf).

(** The array after [copy(buf[off:], data)], for [data] that fits. *)
Definition write_at (buf : bytes) (off : nat) (data : bytes) : bytes :=
  take off buf ++ data ++ drop (off + length data) buf.

(** ** The streaming Merkle tree of [github.com/bobg/merkle]

    Leaves are hashed with the prefix byte 0, interior nodes with the prefix
    byte 1 (RFC 6962).  The tree keeps at most one pending hash per height. *)

Module merkle.

(** [LeafHash(h, out, in)]: the hash appended to [out]. *)
Definition LeafHash (inp : bytes) : bytes := SHA256.sum (0 :: inp).

Definition interiorHash (l r : bytes) : bytes := SHA256.sum (1 :: l ++ r).

Record Tree := mkTree { hashes : list (option bytes) }.

Definition NewTree : Tree := mkTree [].

(** Find the lowest vacant height; on the way up, combine with the hash
    found at each occupied height and vacate it. *)
Fixpoint add_hash (hs : list (option bytes)) (h : bytes) : list (option bytes) :=
  match hs with
  | [] => [Some h]
  | None :: rest => Some h :: rest
  | Some l :: rest => None :: add_hash rest (interiorHash l h)
  end.

Definition Add (t : Tree) (str : bytes) : Tree :=
  mkTree (add_hash (hashes t) (LeafHash str)).

(** Combine the pending hashes upward; the higher one is the left child. *)
Definition combine_up (root : option bytes) (h : option bytes) : option bytes :=
  match h, root with
  | None, _ => root
  | Some x, None => Some x
  | Some x, Some r => Some (interiorHash x r)
  end.

(** [Root]: the hash of no input for the empty tree. *)
Definition Root (t : Tree) : bytes :=
  match fold_left combine_up (hashes t) None with
  | Some r => r
  | None => SHA256.sum []
  end.

(** The root of the tree holding exactly the given leaves. *)
Definition root_of (leaves : list bytes) : bytes :=
  Root (fold_left Add leaves NewTree).

(** RFC 6962, section 2.1: the Merkle tree hash of a list of leaves,
    split at the largest power of two below its length. *)
Fixpoint split_point (fuel : nat) (k n : nat) : nat :=
  match fuel with
  | O => k
  | S fuel' => if (2 * k <? n)%nat then split_point fuel' (2 * k)%nat n else k
  end.

Fixpoint MTH (fuel : nat) (leaves : list bytes) : bytes :=
  match fuel with
  | O => SHA256.sum []
  | S fuel' =>
      match leaves with
      | [] => SHA256.sum []
      | [d] => LeafHash d
      | _ =>
          let k := split_point (length leaves) 1 (length leaves) in
          interiorHash (MTH fuel' (take k leaves)) (MTH fuel' (drop k leaves))
      end
  end.

(** The Merkle Tree Hash of a list of leaves. *)
Definition mth (leaves : list bytes) : bytes := MTH (length leaves) leaves.

(** The pending hashes from height [h] upward stand for the leaves, the
    block of a lower height coming after those of the higher ones. *)
Fixpoint pending (h : nat) (hs : list (option bytes)) (leaves : list bytes)
  : Prop :=
  match hs with
  | [] => leaves = []
  | None :: rest => pending (S h) rest leaves
  | Some x :: rest =>
      exists l1 l2,
        leaves = l1 ++ l2 /\ length l2 = (2 ^ h)%nat /\ x = mth l2 /\
        pending (S h) rest l1
  end.

(** What [Root] has combined so far. *)
Definition root_so_far (leaves : list bytes) : option bytes :=
  match leaves with
  | [] => None
  | _ => Some (mth leaves)
  end.

End merkle.

(** ** The keystream cipher *)

(** Modelled from the spec: [crypt] is called by [Serve] but its source is
    not among the files.  "Keystream(key, i): the SHA-256 hash of
    (key || varint(i)), repeated and truncated to produce chunk-i bytes;
    ciphertext is cleartext XOR keystream." *)
Definition keystream (key : bytes) (index : Z) (n : nat) : bytes :=
  take n (concat (replicate (S (n / 32)) (SHA256.sum (key ++ PutUvarint index)))).

(** Modelled from the spec: [crypt(key, chunk, index)] overwrites [chunk]
    with [chunk XOR keystream(key, index)]. *)
Definition crypt (key : bytes) (chunk : bytes) (index : Z) : bytes :=
  zip_with Z.lxor chunk (keystream key index (length chunk)).

(** ** Errors, readers and writers *)

Inductive error :=
| EOF
| ErrUnexpectedEOF
| ErrIO (msg : string)
| Wrap (cause : error) (msg : string)
| Wrapf (cause : error) (msg : string) (index : Z).

Inductive result (A : Type) :=
| Ok (a : A)
| Err (e : error).
Arguments Ok {A} a.
Arguments Err {A} e.

(** An [io.Reader] over a finite source: successive [Read] calls deliver
    the pieces [r_frags] (cut short when the caller's buffer is smaller),
    then report [r_end], again at every later call: [None] for [io.EOF],
    [Some e] for a reader that fails with the error [e], which may be any
    error, [io.ErrUnexpectedEOF] included. *)
Record Reader := mkReader {
  r_frags : list bytes;
  r_end : option error }.

Definition contents (r : Reader) : bytes := concat (r_frags r).

(** The loop of [io.ReadAtLeast]: one [Read] per step, until [need] bytes
    have arrived or a [Read] reports the end.  Yields the bytes read, the
    remaining pieces and whether the end was hit. *)
Fixpoint read_frags (frags : list bytes) (need : nat) : bytes * list bytes * bool :=
  match need, frags with
  | O, _ => ([], frags, false)
  | _, [] => ([], [], true)
  | _, f :: fs =>
      if (length f <=? need)%nat then
        let '(d, rest, hit) := read_frags fs (need - length f) in
        (f ++ d, rest, hit)
      else (take need f, drop need f :: fs, false)
  end.

(** [io.ReadFull(r, buf)] for [len(buf) = size]: the bytes stored at the
    front of [buf], the error, the reader afterwards.  [io.ReadAtLeast]
    turns an [io.EOF] that comes after some bytes into
    [io.ErrUnexpectedEOF] and hands every other error of the reader
    through as it is. *)
Definition ReadFull (r : Reader) (size : nat) : bytes * option error * Reader :=
  let '(d, rest, hit) := read_frags (r_frags r) size in
  let r' := mkReader rest (r_end r) in
  if hit then
    match r_end r with
    | None | Some EOF =>
        (d, Some (if (length d =? 0)%nat then EOF else ErrUnexpectedEOF), r')
    | Some e => (d, Some e, r')
    end
  else (d, None, r').

(** An [os.File] opened for reading: the bytes its [Read] calls deliver
    and, if reading it fails, the message of the I/O error; a file does
    not fail with [io.ErrUnexpectedEOF]. *)
Record File := mkFile {
  f_frags : list bytes;
  f_err : option string }.

Definition file_reader (f : File) : Reader :=
  mkReader (f_frags f) (ErrIO <$> f_err f).

Coercion file_reader : File >-> Reader.

(** [io.Writer] *)
Class Writer (W : Type) := Write : W -> bytes -> W * option error.

(** A writer that keeps every [Write] call, oldest first, and never fails. *)
Definition WriteLog := list bytes.

#[export] Instance WriteLog_Writer : Writer WriteLog :=
  fun w p => (w ++ [p], None).

(** A writer with room for [lw_room] more bytes, as a full disk has. *)
Record LimitWriter := mkLimitWriter { lw_room : nat; lw_out : bytes }.

#[export] Instance LimitWriter_Writer : Writer LimitWriter :=
  fun w p =>
    if (length p <=? lw_room w)%nat
    then (mkLimitWriter (lw_room w - length p) (lw_out w ++ p), None)
    else (mkLimitWriter 0 (lw_out w ++ take (lw_room w) p),
          Some (ErrIO "short write")).

(** ** [Serve] (serve.go) *)

Section Serve.

(** The chunk size is a constant of the package, declared outside the
    files at hand. *)
Variable ChunkSize : nat.

Context {W : Type} `{Writer W}.

(** One pass of the [for index := uint64(0); ; index++] loop per unit of
    fuel.  [None] when the fuel runs out. *)
Fixpoint Serve_loop (fuel : nat) (key : bytes) (w : W) (r : Reader)
    (index : Z) (cipherMT : merkle.Tree)
    (chunkWithPrefix clearHashWithPrefix : bytes)
  : option (W * Reader * result bytes) :=
  match fuel with
  | O => None
  | S fuel' =>
      let vi := PutUvarint index in
      let m := length vi in
      let chunkWithPrefix := write_at chunkWithPrefix 0 vi in
      let clearHashWithPrefix := write_at clearHashWithPrefix 0 vi in
      let '(d, err, r) := ReadFull r ChunkSize in
      let n := length d in
      let chunkWithPrefix := write_at chunkWithPrefix m d in
      match err with
      | Some EOF => Some (w, r, Ok (merkle.Root cipherMT))
      | Some (ErrIO _ as e) | Some (Wrap _ _ as e)
      | Some (Wrapf _ _ _ as e) =>
          Some (w, r, Err (Wrapf e "reading clear chunk" index))
      | Some ErrUnexpectedEOF | None =>
          let clearHashWithPrefix :=
            write_at clearHashWithPrefix m
              (merkle.LeafHash (slice chunkWithPrefix 0 (m + n))) in
          match Write w (slice clearHashWithPrefix m (m + 32)) with
          | (w, Some e) => Some (w, r, Err (Wrapf e "writing clear hash" index))
          | (w, None) =>
              let chunkWithPrefix :=
                write_at chunkWithPrefix m
                  (crypt key (slice chunkWithPrefix m (m + n)) index) in
              match Write w (slice chunkWithPrefix m (m + n)) with
              | (w, Some e) =>
                  Some (w, r, Err (Wrapf e "writing cipher chunk" index))
              | (w, None) =>
                  let cipherMT :=
                    merkle.Add cipherMT (slice chunkWithPrefix 0 (m + n)) in
                  Serve_loop fuel' key w r (u64 (index + 1)) cipherMT
                    chunkWithPrefix clearHashWithPrefix
              end
          end
      end
  end.

(** Every pass but the last consumes at least one byte of the reader,
    unless the reader fails with [io.ErrUnexpectedEOF]: then the loop goes
    on without reading anything, and no fuel is enough. *)
Definition Serve_fuel (r : Reader) : nat := S (length (contents r)).

Definition Serve (w : W) (r : Reader) (key : bytes)
  : option (W * Reader * result bytes) :=
  Serve_loop (Serve_fuel r) key w r 0 merkle.NewTree
    (replicate (ChunkSize + MaxVarintLen64) 0)
    (replicate (32 + MaxVarintLen64) 0).

End Serve.

(** ** The stream and the commitment, chunk by chunk *)

Section Codec.

Variable ChunkSize : nat.

(** The cleartext cut into chunks of [ChunkSize] bytes, the last one
    possibly shorter; an empty input has no chunk. *)
Fixpoint chunks_upto (fuel : nat) (data : bytes) : list bytes :=
  match fuel, data with
  | S fuel', _ :: _ =>
      take ChunkSize data :: chunks_upto fuel' (drop ChunkSize data)
  | _, _ => []
  end.

Definition chunks (data : bytes) : list bytes :=
  chunks_upto (length data) data.

End Codec.

(** The leaf hash of [varint(i) || chunk]. *)
Definition clearHash (i : Z) (chunk : bytes) : bytes :=
  merkle.LeafHash (PutUvarint i ++ chunk).

(** The chunk XOR'd with the keystream for index [i]. *)
Definition cipherChunk (key : bytes) (i : Z) (chunk : bytes) : bytes :=
  zip_with Z.lxor chunk (keystream key i (length chunk)).

(** The leaf [varint(i) || cipherChunk_i] of the cipher tree. *)
Definition cipherLeaf (key : bytes) (i : Z) (chunk : bytes) : bytes :=
  PutUvarint i ++ cipherChunk key i chunk.

(** The leaf [varint(i) || chunk_i] of the clear tree. *)
Definition clearLeaf (i : Z) (chunk : bytes) : bytes :=
  PutUvarint i ++ chunk.

(** [record_i = clearHash_i || cipherChunk_i] *)
Definition record (key : bytes) (i : Z) (chunk : bytes) : bytes :=
  clearHash i chunk ++ cipherChunk key i chunk.

(** The [Write] calls and the leaves of the loop started at a [uint64]
    index, which wraps around. *)
Fixpoint writes_from (key : bytes) (index : Z) (cs : list bytes) : list bytes :=
  match cs with
  | [] => []
  | c :: cs' =>
      clearHash index c :: cipherChunk key index c ::
      writes_from key (u64 (index + 1)) cs'
  end.

Fixpoint leaves_from (key : bytes) (index : Z) (cs : list bytes) : list bytes :=
  match cs with
  | [] => []
  | c :: cs' => cipherLeaf key index c :: leaves_from key (u64 (index + 1)) cs'
  end.

(** The two commitments of the data model, for a file cut into chunks:
    the roots of the trees over the cipher leaves and over the clear leaves. *)
Definition cipherRoot (ChunkSize : nat) (key file : bytes) : bytes :=
  merkle.root_of
    (imap (fun i c => cipherLeaf key (Z.of_nat i) c) (chunks ChunkSize file)).

Definition clearRoot (ChunkSize : nat) (file : bytes) : bytes :=
  merkle.root_of
    (imap (fun i c => clearLeaf (Z.of_nat i) c) (chunks ChunkSize file)).

(** The root a run of [Serve] returns, if it returns one. *)
Definition returned_root {W} (run : option (W * Reader * result bytes))
    : option bytes :=
  match run with
  | Some (_, _, Ok root) => Some root
  | _ => None
  end.

(** A run of [Serve] returns [root] to its caller. *)
Definition returns_root {W} (run : option (W * Reader * result bytes))
    (root : bytes) : Prop :=
  exists w r, run = Some (w, r, Ok root).

(** Modelled from the spec: the chunk size is declared outside the files
    at hand; "CHUNK_SIZE is a protocol constant, recommended 8 KiB".  The
    theorems hold for every chunk size; this value instantiates them. *)
Definition ChunkSize8K : nat := 8 * 1024.

(** * The seller daemon (cmd/tredd/server.go) *)

(** ** Decimal numbers, as [strconv] *)

Definition digit (c : ascii) : option Z :=
  let n := Z.of_nat (nat_of_ascii c) in
  if (48 <=? n) && (n <=? 57) then Some (n - 48) else None.

Fixpoint digits (s : string) (acc : Z) : option Z :=
  match s with
  | EmptyString => Some acc
  | String c rest =>
      match digit c with
      | Some d => digits rest (acc * 10 + d)
      | None => None
      end
  end.

(** [strconv.ParseUint(s, 10, 64)]: one or more decimal digits, no sign,
    a value below [2^64]. *)
Definition ParseUint (s : string) : option Z :=
  match s with
  | EmptyString => None
  | _ =>
      match digits s 0 with
      | Some n => if n <? 2 ^ 64 then Some n else None
      | None => None
      end
  end.

(** [strconv.ParseInt(s, 10, 64)]: an optional sign, one or more decimal
    digits, a value in the [int64] range. *)
Definition ParseInt (s : string) : option Z :=
  match s with
  | EmptyString => None
  | String c rest =>
      let neg := Ascii.eqb c "-" in
      let body := if Ascii.eqb c "+" || Ascii.eqb c "-" then rest else s in
      match body with
      | EmptyString => None
      | _ =>
          match digits body 0 with
          | None => None
          | Some un =>
              if neg then (if un <=? 2 ^ 63 then Some (- un) else None)
              else (if un <? 2 ^ 63 then Some un else None)
          end
      end
  end.

(** ** Time *)

Definition Millisecond : Z := 1000000.
Definition Minute : Z := 60 * 1000 * Millisecond.
Definition Hour : Z := 60 * Minute.

(** A [time.Duration] saturates at the ends of the [int64] range. *)
Definition saturate (d : Z) : Z := Z.max (- 2 ^ 63) (Z.min (2 ^ 63 - 1) d).

(** [t.Sub(u)] *)
Definition Sub (t u : Z) : Z := saturate (t - u).

(** [time.Until(t)], with the clock reading [now]. *)
Definition Until (now t : Z) : Z := Sub t now.

(** [t.UnixNano()] *)
Definition UnixNano (t : Z) : Z := i64 t.

(** [bc.Millis(t) = uint64(t.UnixNano()) / uint64(time.Millisecond)] *)
Definition Millis (t : Z) : Z := u64 (UnixNano t) / Millisecond.

(** [bc.FromMillis(ms) = time.Unix(0, int64(ms) * int64(time.Millisecond))] *)
Definition FromMillis (ms : Z) : Z := i64 (i64 ms * Millisecond).

(** [t.Truncate(time.Millisecond)] *)
Definition Truncate_ms (t : Z) : Z := t - t mod Millisecond.

Definition minRevealDur : Z := 10 * Minute.
Definition maxRefundDur : Z := Hour.

(** The last deadline, in milliseconds, that [bc.FromMillis] turns into an
    instant without wrapping around: [math.MaxInt64] nanoseconds, in whole
    milliseconds (9223372036854, in the year 2262). *)
Definition MaxMillis : Z := (2 ^ 63 - 1) / Millisecond.

(** ** Transfer records and their store *)

#[export] Instance result_ret : MRet result := fun _ a => Ok a.

#[export] Instance result_bind : MBind result := fun _ _ k r =>
  match r with
  | Ok a => k a
  | Err e => Err e
  end.

(** [errors.Wrap(err, msg)] on the failure of a step. *)
Definition wrap {A} (msg : string) (r : result A) : result A :=
  match r with
  | Ok a => Ok a
  | Err e => Err (Wrap e msg)
  end.

(** [serverRecord]: a [tredd.ParseResult] and the transfer ID. *)
Record serverRecord := mkRecord {
  Amount : Z;
  AssetID : bytes;
  Anchor1 : bytes;
  Anchor2 : bytes;
  ClearRoot : bytes;
  CipherRoot : bytes;
  RevealDeadline : Z;
  RefundDeadline : Z;
  Buyer : bytes;
  Seller : bytes;
  Key : bytes;
  OutputID : bytes;
  transferID : bytes }.

(** The [bbolt] database: the bucket "root", in it the bucket "records",
    in it one bucket per transfer ID, holding the fields by name. *)
Inductive DB :=
| NoRoot
| NoRecords
| Records (m : gmap (list Z) (gmap string (list Z))).

Definition MaxValueSize : Z := 2 ^ 31 - 2.

(** [bu.Put(key, value)] *)
Definition Put (bu : gmap string (list Z)) (key : string) (value : bytes)
  : result (gmap string (list Z)) :=
  if MaxValueSize <? Z.of_nat (length value)
  then Err (ErrIO "value too large")
  else Ok (<[key := value]> bu).

(** [bu.Get(key)]: nil when the key is absent. *)
Definition Get (bu : gmap string (list Z)) (key : string) : bytes :=
  default [] (bu !! key).

(** The buckets of [records], created on the way if they do not exist. *)
Definition records_of (db : DB) : gmap (list Z) (gmap string (list Z)) :=
  match db with
  | Records m => m
  | _ => ∅
  end.

(** [storeRecord]: one [db.Update] transaction; the database is left as it
    was when a step fails. *)
Definition storeRecord (db : DB) (rec : serverRecord) : result DB :=
  let records := records_of db in
  let bu := default ∅ (records !! transferID rec) in
  bu ← wrap "storing amount" (Put bu "amount" (PutVarint (Amount rec)));
  bu ← wrap "storing assetID" (Put bu "assetID" (AssetID rec));
  bu ← wrap "storing anchor1" (Put bu "anchor1" (Anchor1 rec));
  bu ← wrap "storing anchor2" (Put bu "anchor2" (Anchor2 rec));
  bu ← wrap "storing clearRoot" (Put bu "clearRoot" (ClearRoot rec));
  bu ← wrap "storing cipherRoot" (Put bu "cipherRoot" (CipherRoot rec));
  bu ← wrap "storing reveal deadline"
         (Put bu "revealDeadlineMS" (PutUvarint (Millis (RevealDeadline rec))));
  bu ← wrap "storing refund deadline"
         (Put bu "refundDeadlineMS" (PutUvarint (Millis (RefundDeadline rec))));
  bu ← wrap "storing buyer" (Put bu "buyer" (Buyer rec));
  bu ← wrap "storing seller" (Put bu "seller" (Seller rec));
  bu ← wrap "storing key" (Put bu "key" (Key rec));
  bu ← wrap "storing outputID" (Put bu "outputID" (OutputID rec));
  Ok (Records (<[transferID rec := bu]> records)).

(** [copy(rec.transferID[:], transferID)] into a zeroed [[32]byte]. *)
Definition copy32 (src : bytes) : bytes := take 32 (src ++ replicate 32 0).

(** [getRecord]: only the key, the roots, the asset, the amount and the two
    deadlines are read back. *)
Definition getRecord (db : DB) (id : bytes) : result serverRecord :=
  match db with
  | NoRoot => Err (ErrIO "no root bucket")
  | NoRecords => Err (ErrIO "no records bucket")
  | Records m =>
      match m !! id with
      | None => Err (ErrIO "no record bucket")
      | Some bu =>
          let '(amount, n) := Varint (Get bu "amount") in
          if n <? 1 then Err (ErrIO "cannot parse amount in record") else
          let '(revealDeadlineMS, n) := Uvarint (Get bu "revealDeadlineMS") in
          if n <? 1 then Err (ErrIO "cannot parse reveal deadline in record") else
          let '(refundDeadlineMS, n) := Uvarint (Get bu "refundDeadlineMS") in
          if n <? 1 then Err (ErrIO "cannot parse refund deadline in record") else
          Ok {| Amount := amount;
                AssetID := Get bu "assetID";
                Anchor1 := [];
                Anchor2 := [];
                ClearRoot := Get bu "clearRoot";
                CipherRoot := Get bu "cipherRoot";
                RevealDeadline := FromMillis revealDeadlineMS;
                RefundDeadline := FromMillis refundDeadlineMS;
                Buyer := [];
                Seller := [];
                Key := Get bu "key";
                OutputID := [];
                transferID := copy32 id |}
      end
  end.

(** The value of a step that succeeded. *)
Definition ok_or {A} (d : A) (r : result A) : A :=
  match r with
  | Ok a => a
  | Err _ => d
  end.

(** Store a record, then load it by its transfer ID. *)
Definition store_then_get (db : DB) (rec : serverRecord) : result serverRecord :=
  db' ← storeRecord db rec; getRecord db' (transferID rec).

(** ** The deadline queue *)

(** The callback [queueClaimPaymentHelper] hands to the observer: claim the
    payment of [rec] for the seller, then delete the record. *)
Inductive Action :=
| ClaimPaymentAction (rec : serverRecord) (seller : bytes).

(** Modelled from the spec: the observer ([newObserver], [enqueue]) is not
    among the files.  "Deadline-keyed actions form a time-ordered queue:
    entries (dueAt, action)." *)
Fixpoint enqueue (q : list (Z * Action)) (dueAt : Z) (a : Action)
  : list (Z * Action) :=
  match q with
  | [] => [(dueAt, a)]
  | (t, b) :: q' =>
      if dueAt <? t then (dueAt, a) :: q else (t, b) :: enqueue q' dueAt a
  end.

(** What opening the content file for a clear root yields. *)
Inductive Content :=
| Opened (f : File) (contentType : result bytes)
| NotExist
| OpenError (msg : string).

(** The [server]: the record store, the content tree (the directory
    [clearHashPath] derives from a clear root, with the content file and
    its "content-type" file), the seller's key, the observer's queue. *)
Record server := mkServer {
  db : DB;
  dir : bytes -> Content;
  seller : bytes;
  o : list (Z * Action) }.

Definition queueClaimPaymentHelper (s : server) (rec : serverRecord) : server :=
  mkServer (db s) (dir s) (seller s)
    (enqueue (o s) (RefundDeadline rec) (ClaimPaymentAction rec (seller s))).

Definition queueClaimPayment (s : server) (id : bytes) : result server :=
  rec ← getRecord (db s) id;
  Ok (queueClaimPaymentHelper s rec).

(** The keys of the bucket "records" that [ForEach] visits. *)
Definition persisted (db : DB) : list bytes := (map_to_list (records_of db)).*1.

(** The [for _, transferID := range transferIDs] loop of [serve]; an error
    is fatal to the process. *)
Fixpoint queue_all (s : server) (ids : list bytes) : result server :=
  match ids with
  | [] => Ok s
  | id :: ids' => s' ← queueClaimPayment s id; queue_all s' ids'
  end.

(** [serve(args)] up to the point where it starts listening: a server with
    an empty queue, then one claim-payment callback per persisted record. *)
Definition serve (database : DB) (content : bytes -> Content) (pub : bytes)
  : result server :=
  queue_all (mkServer database content pub []) (persisted database).

(** The stores this daemon produces: starting from a fresh database, it
    writes records with [storeRecord] and, once a payment is claimed, drops
    the bucket of its transfer ([DeleteBucket]). *)
Inductive Stored : DB -> Prop :=
| Stored_fresh : Stored NoRoot
| Stored_store (db db' : DB) (rec : serverRecord) :
    Stored db -> storeRecord db rec = Ok db' -> Stored db'
| Stored_delete (db : DB) (id : bytes) :
    Stored db -> Stored (Records (delete id (records_of db))).

(** The deadline recorded in a bucket. *)
Definition recorded_refundDeadline (bu : gmap string (list Z)) : Z :=
  FromMillis (Uvarint (Get bu "refundDeadlineMS")).1.

(** ** The request handler *)

Record Request := mkRequest {
  clearroot : string;
  amount : string;
  assetid : string;
  revealdeadline : string;
  refunddeadline : string }.

(** What the handler takes from its surroundings: the clock, the random
    source (for the key, then for the transfer ID) and whether the steps
    on the response tempfile and on the connection succeed. *)
Record Env := mkEnv {
  now : Z;
  rand_key : result bytes;
  rand_transferID : result bytes;
  tempfile_created : bool;
  tempfile_closed : bool;
  tempfile_reopened : bool;
  response_copied : bool }.

Inductive Response :=
| httpErr (code : Z) (msg : string)
| Sent (transferId : bytes) (contentType : bytes) (body : bytes).

Definition StatusBadRequest : Z := 400.
Definition StatusNotFound : Z := 404.
Definition StatusInternalServerError : Z := 500.

Definition checkPrice (amount : Z) (assetID clearRoot : bytes) : result unit :=
  if 0 <? amount then Ok tt else Err (ErrIO "amount must be 1 or higher").

Section Handler.

Variable ChunkSize : nat.

(** [server.serve]: the response, and the server afterwards.  [None]
    when [Serve] does not return. *)
Definition server_serve (s : server) (env : Env) (req : Request)
  : option (Response * server) :=
  match DecodeString (clearroot req) with
  | None => Some (httpErr StatusBadRequest "decoding clear root", s)
  | Some clearRoot =>
  match dir s clearRoot with
  | NotExist => Some (httpErr StatusNotFound "file not found", s)
  | OpenError _ => Some (httpErr StatusInternalServerError "opening", s)
  | Opened f (Err _) =>
      Some (httpErr StatusInternalServerError "getting content type", s)
  | Opened f (Ok contentType) =>
  match ParseInt (amount req) with
  | None => Some (httpErr StatusBadRequest "parsing amount", s)
  | Some amount =>
  if amount <? 1
  then Some (httpErr StatusBadRequest "non-positive amount", s) else
  match DecodeString (assetid req) with
  | None => Some (httpErr StatusBadRequest "parsing asset ID", s)
  | Some assetID =>
  match checkPrice amount assetID clearRoot with
  | Err _ => Some (httpErr StatusBadRequest "proposed payment rejected", s)
  | Ok _ =>
  match ParseUint (revealdeadline req) with
  | None => Some (httpErr StatusBadRequest "parsing reveal deadline", s)
  | Some revealDeadlineMS =>
  let revealDeadline := FromMillis revealDeadlineMS in
  if Until (now env) revealDeadline <? minRevealDur
  then Some (httpErr StatusBadRequest "reveal deadline too soon", s) else
  match ParseUint (refunddeadline req) with
  | None => Some (httpErr StatusBadRequest "parsing refund deadline", s)
  | Some refundDeadlineMS =>
  let refundDeadline := FromMillis refundDeadlineMS in
  if maxRefundDur <? Sub refundDeadline revealDeadline
  then Some (httpErr StatusBadRequest
               "refund deadline too later after reveal deadline", s) else
  match rand_key env with
  | Err _ => Some (httpErr StatusInternalServerError "choosing cipher key", s)
  | Ok key =>
  match rand_transferID env with
  | Err _ => Some (httpErr StatusInternalServerError "choosing transfer ID", s)
  | Ok id =>
  let rec := mkRecord amount assetID [] [] clearRoot [] revealDeadline
               refundDeadline [] (seller s) key [] id in
  if negb (tempfile_created env)
  then Some (httpErr StatusInternalServerError "creating response tempfile", s)
  else
  match Serve ChunkSize ([] : WriteLog) (file_reader f) key with
  | None => None
  | Some (_, _, Err _) =>
      Some (httpErr StatusInternalServerError "serving data", s)
  | Some (tmpfile, _, Ok cipherRoot) =>
  if negb (tempfile_closed env)
  then Some (httpErr StatusInternalServerError "closing response tempfile", s)
  else
  let rec := mkRecord amount assetID [] [] clearRoot cipherRoot revealDeadline
               refundDeadline [] (seller s) key [] id in
  match storeRecord (db s) rec with
  | Err _ => Some (httpErr StatusInternalServerError "storing transfer record", s)
  | Ok db' =>
  let s' := mkServer db' (dir s) (seller s) (o s) in
  if negb (tempfile_reopened env)
  then Some (httpErr StatusInternalServerError "reopening response tempfile", s')
  else if negb (response_copied env)
  then Some (httpErr StatusInternalServerError "writing response", s')
  else Some (Sent id contentType (concat tmpfile), s')
  end end end end end end end end end end end.

End Handler.

(** The status code of a response; 200 when the stream is sent. *)
Definition status (resp : Response) : Z :=
  match resp with
  | httpErr code _ => code
  | Sent _ _ _ => 200
  end.

(** The ciphertext stream a response carries. *)
Definition stream_sent (resp : Response) : option bytes :=
  match resp with
  | httpErr _ _ => None
  | Sent _ _ body => Some body
  end.

(** The handler accepted the request: it responded without error. *)
Definition accepted (run : option (Response * server)) : bool :=
  match run with
  | Some (Sent _ _ _, _) => true
  | _ => false
  end.

(** Every bucket of a store this daemon produced was written whole by
    [storeRecord]. *)
Definition written (bu : gmap string (list Z)) : Prop :=
  exists a rv rf,
    Get bu "amount" = PutVarint a /\
    Get bu "revealDeadlineMS" = PutUvarint (Millis rv) /\
    Get bu "refundDeadlineMS" = PutUvarint (Millis rf).

(** ** What the handler rejects *)

(** The clear root of the request does not map to a stored file. *)
Definition content_not_found (s : server) (req : Request) : Prop :=
  exists clearRoot,
    DecodeString (clearroot req) = Some clearRoot /\
    dir s clearRoot = NotExist.

(** The content file and its content type can be read. *)
Definition content_readable (s : server) (req : Request) : Prop :=
  exists clearRoot f contentType,
    DecodeString (clearroot req) = Some clearRoot /\
    dir s clearRoot = Opened f (Ok contentType).

Definition amount_non_positive (req : Request) : Prop :=
  exists a, ParseInt (amount req) = Some a /\ a < 1.

Definition reveal_too_soon (env : Env) (req : Request) : Prop :=
  exists ms,
    ParseUint (revealdeadline req) = Some ms /\
    Until (now env) (FromMillis ms) < minRevealDur.

Definition refund_window_too_long (req : Request) : Prop :=
  exists rv rf,
    ParseUint (revealdeadline req) = Some rv /\
    ParseUint (refunddeadline req) = Some rf /\
    maxRefundDur < Sub (FromMillis rf) (FromMillis rv).

(** Both deadlines of the request, where they are decimal numbers, are at
    most [MaxMillis]: the instants the handler makes of them are the
    deadlines themselves. *)
Definition deadlines_in_range (req : Request) : Prop :=
  (forall ms, ParseUint (revealdeadline req) = Some ms -> ms <= MaxMillis) /\
  (forall ms, ParseUint (refunddeadline req) = Some ms -> ms <= MaxMillis).

(** The two conditions on the deadlines as the request gives them, in
    milliseconds since the epoch, with no wrapping around. *)
Definition reveal_deadline_too_soon (env : Env) (req : Request) : Prop :=
  exists ms,
    ParseUint (revealdeadline req) = Some ms /\
    ms * Millisecond - now env < minRevealDur.

Definition refund_deadline_too_late (req : Request) : Prop :=
  exists rv rf,
    ParseUint (revealdeadline req) = Some rv /\
    ParseUint (refunddeadline req) = Some rf /\
    maxRefundDur < (rf - rv) * Millisecond.

(** A parameter that is not of its form: hexadecimal for the asset ID,
    decimal for the amount and the deadlines. *)
Definition malformed (req : Request) : Prop :=
  ParseInt (amount req) = None \/
  DecodeString (assetid req) = None \/
  ParseUint (revealdeadline req) = None \/
  ParseUint (refunddeadline req) = None.

(** C5 as the specification words it. *)
Definition rejects_as_specified (s : server) (env : Env) (req : Request)
    (resp : Response) : Prop :=
  (status resp = StatusBadRequest <->
     amount_non_positive req \/ reveal_too_soon env req \/
     refund_window_too_long req) /\
  (status resp = StatusNotFound <-> content_not_found s req) /\
  (status resp = StatusBadRequest \/ status resp = StatusNotFound ->
     stream_sent resp = None).

(** ** Sample data *)

(** A content tree with one file, "ABC", of content type "t", under the
    clear root [ab]. *)
Definition sample_content (clearRoot : bytes) : Content :=
  if bool_decide (clearRoot = [171])
  then Opened (mkFile [[65; 66; 67]] None) (Ok [116])
  else NotExist.

Definition sample_server : server := mkServer NoRoot sample_content [7] [].

(** 2020-09-13 12:26:40 UTC on the clock; nothing fails. *)
Definition sample_env : Env :=
  mkEnv (1600000000 * 10 ^ 9) (Ok (replicate 32 1)) (Ok (replicate 32 2))
    true true true true.

Definition sample_record : serverRecord :=
  mkRecord 5 [0] [] [] [171] [] 1600001200000000123 1600003000000000456
    [] [7] (replicate 32 1) [] (replicate 32 2).

(** * Transactions on the ledger (tx.go) *)

(** [bind.TransactOpts]: who signs, and the funds sent along with the call. *)
Record TransactOpts := mkOpts {
  From : bytes;
  Value : Z }.

(** The parameters a deployed contract was instantiated with. *)
Record Params := mkParams {
  pClearRoot : bytes;
  pCipherRoot : bytes;
  pRevealDeadline : Z;
  pRefundDeadline : Z }.

(** What goes over the wire to the ledger. *)
Inductive Call :=
| ReadParams (contractAddr : bytes)
| CallReveal (contractAddr : bytes) (opts : TransactOpts) (key : bytes)
| CallClaimPayment (contractAddr : bytes) (opts : TransactOpts).

(** The ledger as the client sees it: whether a contract can be bound at an
    address ([NewTredd]), what is deployed there, whether a transaction is
    accepted (giving its hash) and mined (giving its receipt). *)
Record Client := mkClient {
  NewTredd : bytes -> result unit;
  deployed : bytes -> Params;
  transact : Call -> result Z;
  WaitMined : Z -> result Z }.

(** [RevealKey]: the calls made, in order, and the result.  The four
    [want] parameters are not used ("TODO: read values from the on-chain
    contract, verify they match"), and [seller] is passed on as it came
    ("TODO: Must also supply collateral"). *)
Definition RevealKey (client : Client) (seller : TransactOpts)
    (contractAddr key wantClearRoot wantCipherRoot : bytes)
    (wantRevealDeadline wantRefundDeadline : Z)
  : list Call * result Z :=
  match NewTredd client contractAddr with
  | Err e => ([], Err (Wrap e "instantiating deployed contract"))
  | Ok _ =>
      let call := CallReveal contractAddr seller key in
      match transact client call with
      | Err e => ([call], Err (Wrap e "invoking ClaimPayment"))
      | Ok tx => ([call], WaitMined client tx)
      end
  end.

(** [ClaimPayment] *)
Definition ClaimPayment (client : Client) (seller : TransactOpts)
    (contractAddr : bytes) : list Call * result Z :=
  match NewTredd client contractAddr with
  | Err e => ([], Err (Wrap e "instantiating deployed contract"))
  | Ok _ =>
      let call := CallClaimPayment contractAddr seller in
      match transact client call with
      | Err e => ([call], Err (Wrap e "invoking ClaimPayment"))
      | Ok tx => ([call], WaitMined client tx)
      end
  end.

(** A ledger on which everything succeeds, holding at every address a
    contract for the clear root [01] and the cipher root [02], with the
    deadlines 1 s and 2 s after the epoch. *)
Definition sample_client : Client :=
  mkClient (fun _ => Ok tt)
           (fun _ => mkParams [1] [2] (10 ^ 9) (2 * 10 ^ 9))
           (fun _ => Ok 77)
           (fun _ => Ok 1).

(** Feed the writes to a writer, in order, until one fails: the writer
    afterwards and, for a failure, its position and the error. *)
Fixpoint write_all {W} `{Writer W} (w : W) (ps : list bytes) (pos : nat)
  : W * option (nat * error) :=
  match ps with
  | [] => (w, None)
  | p :: ps' =>
      match Write w p with
      | (w', Some e) => (w', Some (pos, e))
      | (w', None) => write_all w' ps' (S pos)
      end
  end.


Definition six_byte_reader : Reader :=
  mkReader [[65; 66; 67; 68]; [69; 70]] None.

(** A second transfer, and a store that holds it, then also the first. *)
Definition sample_other_record : serverRecord :=
  mkRecord 7 [0] [] [] [205] [206] 1600001800000000000 1600002400000000000
    [] [7] (replicate 32 4) [] (replicate 32 3).

Definition sample_store_one : DB :=
  ok_or NoRoot (storeRecord NoRoot sample_other_record).

Definition sample_store : DB :=
  ok_or NoRoot (storeRecord sample_store_one sample_record).

(** The entry start-up queues for a record. *)
Definition claim_entry (pub : bytes) (rec : serverRecord) : Z * Action :=
  (RefundDeadline rec, ClaimPaymentAction rec pub).

(** A record as it is after the key was revealed: the buyer, the anchors
    and the output ID are known. *)
Definition sample_revealed_record : serverRecord :=
  mkRecord 5 [0] [11] [12] [171] [172] 1600001200000000000
    1600003000000000000 [9] [7] (replicate 32 1) [13] (replicate 32 2).

(** The response of a run of a handler, and the server it leaves. *)
Definition response_of (run : option (Response * server)) : Response :=
  match run with
  | Some (resp, _) => resp
  | None => httpErr 0 ""
  end.

Definition server_after (s : server) (run : option (Response * server))
  : server :=
  match run with
  | Some (_, s') => s'
  | None => s
  end.

(** A request for the sample content: 5 units of asset [00], the key to be
    revealed within 20 minutes, the refund 30 minutes later. *)
Definition sample_request : Request :=
  mkRequest "ab" "5" "00" "1600001200000" "1600003000000".

Definition sample_run : option (Response * server) :=
  server_serve ChunkSize8K sample_server sample_env sample_request.

(** * The reveal-key handler and the claim callback (cmd/tredd/server.go) *)

(** [hex.EncodeToString]: two lower-case digits per byte.  The request
    handler sets the header [X-Tredd-Transfer-Id] to the transfer ID so
    encoded; the reveal-key handler decodes it. *)
Definition hexchar (n : Z) : ascii :=
  ascii_of_nat (Z.to_nat (if n <? 10 then 48 + n else 87 + n)).

Fixpoint EncodeToString (b : bytes) : string :=
  match b with
  | [] => EmptyString
  | x :: b' =>
      String (hexchar (x / 16)) (String (hexchar (x mod 16)) (EncodeToString b'))
  end.

(** The arguments of the handler's call to [tredd.RevealKey], but for the
    context, the observer's reader and the signer, which it passes on as
    they are.  The key and the roots are copied into [[32]byte]s, and so
    is the asset ID ([bc.HashFromBytes]). *)
Record RevealArgs := mkRevealArgs {
  ra_paymentProposal : bytes;
  ra_seller : bytes;
  ra_key : bytes;
  ra_amount : Z;
  ra_assetID : bytes;
  ra_clearRoot : bytes;
  ra_cipherRoot : bytes;
  ra_now : Z;
  ra_revealDeadline : Z;
  ra_refundDeadline : Z }.

(** The fields of the result of [tredd.ParseLog] that the handler reads. *)
Record Parsed := mkParsed {
  pAnchor1 : bytes;
  pAnchor2 : bytes;
  pBuyer : bytes;
  pOutputID : bytes }.

(** [tredd.Redeem] as the claim callback fills it in. *)
Record Redeem := mkRedeem {
  rRefundDeadline : Z;
  rBuyer : bytes;
  rSeller : bytes;
  rAmount : Z;
  rAssetID : bytes;
  rAnchor2 : bytes;
  rCipherRoot : bytes;
  rClearRoot : bytes;
  rKey : bytes }.

(** The key, the roots and the asset ID of a queued record are the
    slices [getRecord] took from [bu.Get]: they point into the memory map
    of the database and are valid only inside the transaction, which
    [getRecord] has closed before it returns.  The callback reads them
    when it runs: [Held] is what they hold by then, the bytes that were
    read as long as no later transaction has changed the pages. *)
Record Held := mkHeld {
  hKey : bytes;
  hClearRoot : bytes;
  hCipherRoot : bytes;
  hAssetID : bytes }.

(** The slices as they were when the record was read. *)
Definition held_of (rec : serverRecord) : Held :=
  mkHeld (Key rec) (ClearRoot rec) (CipherRoot rec) (AssetID rec).

(** The [tredd.Redeem] the callback builds: the refund deadline, the
    amount, the buyer and the second anchor are the record's own, the
    seller is the server's, and the rest is read through the slices.  The
    arrays of [tredd.Redeem] are taken to be 32 bytes long, as the key and
    the roots are where this file declares them. *)
Definition redeem_of (rec : serverRecord) (seller : bytes) (held : Held)
  : Redeem :=
  {| rRefundDeadline := RefundDeadline rec;
     rBuyer := Buyer rec;
     rSeller := seller;
     rAmount := Amount rec;
     rAssetID := copy32 (hAssetID held);
     rAnchor2 := copy32 (Anchor2 rec);
     rCipherRoot := copy32 (hCipherRoot held);
     rClearRoot := copy32 (hClearRoot held);
     rKey := copy32 (hKey held) |}.

Definition MaxInt64 : Z := 2 ^ 63 - 1.
Definition StatusNoContent : Z := 204.

Inductive Reply :=
| replyErr (code : Z) (msg : string)
| NoContent.

Definition reply_status (r : Reply) : Z :=
  match r with
  | replyErr code _ => code
  | NoContent => StatusNoContent
  end.

(** [records.DeleteBucket(id)] inside the [db.Update] of the callback. *)
Definition DeleteBucket (database : DB) (id : bytes) : result DB :=
  match database with
  | NoRoot => Err (ErrIO "root bucket not found")
  | NoRecords => Err (ErrIO "records bucket not found")
  | Records m =>
      match m !! id with
      | None => Err (ErrIO "bucket not found")
      | Some _ => Ok (Records (delete id m))
      end
  end.

Section Ledger.

(** The transaction builders ([tredd.RevealKey], [tredd.ParseLog] and
    [tredd.ClaimPayment] as this file calls them), the validator
    ([txvm.Validate], giving the run limit the program leaves) and the
    submitter of the server are not among the files; the handler and the
    callback are taken for any of them. *)
Variable Prog : Type.
Variable buildRevealKey : RevealArgs -> result Prog.
Variable ParseLog : Prog -> option Parsed.
Variable Validate : Prog -> Z -> Z -> result Z.
Variable submitter : Prog -> Z -> Z -> result unit.
Variable buildClaimPayment : Redeem -> result Prog.

(** What the handler and the callback do beyond the server's state. *)
Inductive Effect :=
| CallRevealKey (args : RevealArgs)
| Submit (prog : Prog) (version runlimit : Z).

(** [server.revealKey]: the reply, the server afterwards, and the calls
    made, in order. *)
Definition server_revealKey (s : server) (now : Z) (transferIDStr : string)
    (body : result bytes) : Reply * server * list Effect :=
  match body with
  | Err _ => (replyErr StatusBadRequest "reading payment proposal", s, [])
  | Ok paymentProposal =>
  match DecodeString transferIDStr with
  | None => (replyErr StatusBadRequest "decoding transfer ID", s, [])
  | Some id =>
  match getRecord (db s) id with
  | Err _ =>
      (replyErr StatusInternalServerError "finding transfer record", s, [])
  | Ok rec =>
  let args :=
    mkRevealArgs paymentProposal (seller s) (copy32 (Key rec)) (Amount rec)
      (copy32 (AssetID rec)) (copy32 (ClearRoot rec))
      (copy32 (CipherRoot rec)) now (RevealDeadline rec)
      (RefundDeadline rec) in
  match buildRevealKey args with
  | Err _ =>
      (replyErr StatusBadRequest "constructing reveal-key transaction", s,
       [CallRevealKey args])
  | Ok prog =>
  match ParseLog prog with
  | None =>
      (replyErr StatusInternalServerError "parsing tx log", s,
       [CallRevealKey args])
  | Some parsed =>
  let rec :=
    mkRecord (Amount rec) (AssetID rec) (pAnchor1 parsed) (pAnchor2 parsed)
      (ClearRoot rec) (CipherRoot rec) (RevealDeadline rec)
      (RefundDeadline rec) (pBuyer parsed) (Seller rec) (Key rec)
      (pOutputID parsed) (transferID rec) in
  match storeRecord (db s) rec with
  | Err _ =>
      (replyErr StatusInternalServerError "updating transfer record", s,
       [CallRevealKey args])
  | Ok db' =>
  let s := mkServer db' (dir s) (seller s) (o s) in
  match Validate prog 3 MaxInt64 with
  | Err _ =>
      (replyErr StatusInternalServerError "computing runlimit", s,
       [CallRevealKey args])
  | Ok runlimit =>
  let s := queueClaimPaymentHelper s rec in
  let limit := i64 (MaxInt64 - runlimit) in
  match submitter prog 3 limit with
  | Err _ =>
      (replyErr StatusInternalServerError
         "submitting reveal-key transaction", s,
       [CallRevealKey args; Submit prog 3 limit])
  | Ok _ => (NoContent, s, [CallRevealKey args; Submit prog 3 limit])
  end end end end end end end end.

(** The callback of [queueClaimPaymentHelper], run by the observer on the
    store as it is then, with what the slices of its record hold then:
    [None] when their pages are no longer mapped, where reading them
    faults.  A fault or an error is fatal to the process; a record that
    cannot be deleted is only logged. *)
Definition claimPayment (database : DB) (held : option Held) (a : Action)
  : result (DB * list Effect) :=
  match a with
  | ClaimPaymentAction rec seller =>
  match held with
  | None => Err (ErrIO "unexpected fault address")
  | Some held =>
  match buildClaimPayment (redeem_of rec seller held) with
  | Err e => Err (Wrap e "constructing claim-payment transaction")
  | Ok prog =>
  match Validate prog 3 MaxInt64 with
  | Err e => Err (Wrap e "computing runlimit for claim-payment transaction")
  | Ok runlimit =>
  let limit := i64 (MaxInt64 - runlimit) in
  match submitter prog 3 limit with
  | Err e => Err (Wrap e "submitting claim-payment transaction")
  | Ok _ =>
      match DeleteBucket database (transferID rec) with
      | Err _ => Ok (database, [Submit prog 3 limit])
      | Ok database' => Ok (database', [Submit prog 3 limit])
      end
  end end end end end.

End Ledger.

Arguments CallRevealKey {Prog} args.
Arguments Submit {Prog} prog version runlimit.

(** A ledger whose programs are byte strings: the reveal-key program is
    the key, the claim-payment program the cipher root; validation leaves
    a run limit of 1000 and every submission is accepted. *)
Definition sample_buildRevealKey (args : RevealArgs) : result bytes :=
  Ok (ra_key args).
Definition sample_ParseLog (prog : bytes) : option Parsed :=
  Some (mkParsed [11] [12] [9] [13]).
Definition sample_Validate (prog : bytes) (version runlimit : Z) : result Z :=
  Ok 1000.
Definition sample_submitter (prog : bytes) (version runlimit : Z)
  : result unit := Ok tt.
Definition failing_submitter (prog : bytes) (version runlimit : Z)
  : result unit := Err (ErrIO "connection refused").
Definition sample_buildClaimPayment (r : Redeem) : result bytes :=
  Ok (rCipherRoot r).

(** The payment proposal [01 02 03] for the transfer of [sample_run],
    five minutes later, on a ledger that refuses the submission. *)
Definition sample_reveal : Reply * server * list (Effect bytes) :=
  server_revealKey bytes sample_buildRevealKey sample_ParseLog
    sample_Validate failing_submitter
    (server_after sample_server sample_run) (1600000300 * 10 ^ 9)
    (EncodeToString (replicate 32 2)) (Ok [1; 2; 3]).

(** The claim for [sample_revealed_record], run on a store that holds it,
    the slices of the record holding what was read. *)
Definition sample_claim : result (DB * list (Effect bytes)) :=
  claimPayment bytes sample_Validate sample_submitter
    sample_buildClaimPayment
    (ok_or NoRoot (storeRecord NoRoot sample_revealed_record))
    (Some (held_of sample_revealed_record))
    (ClaimPaymentAction sample_revealed_record [7]).

(** * Rendering a Merkle proof (tx.go) *)

(** [merkle.ProofStep]: a hash, and whether it goes on the left. *)
Record ProofStep := mkProofStep {
  ps_H : bytes;
  ps_Left : bool }.

(** [[]byte(s)] *)
Definition bytes_of_string (s : string) : bytes :=
  map (fun c => Z.of_nat (nat_of_ascii c)) (list_ascii_of_string s).

(** [fmt.Fprint(w, s)]: one [Write]; [renderProof] drops its error. *)
Definition Fprint {W} `{Writer W} (w : W) (s : string) : W :=
  (Write w (bytes_of_string s)).1.

(** [fmt.Sprintf("x'%x', %d", step.H, isLeft)] *)
Definition render_step (st : ProofStep) : string :=
  String.append "x'"
    (String.append (EncodeToString (ps_H st))
       (String.append "', " (if ps_Left st then "1" else "0"))).

(** The [for i := len(proof) - 1; i >= 0; i--] loop, one pass per unit of
    fuel. *)
Fixpoint renderProof_loop {W} `{Writer W} (fuel : nat) (w : W)
    (proof : list ProofStep) (i : Z) : W :=
  match fuel with
  | O => w
  | S fuel' =>
      if i <? 0 then w else
      match proof !! Z.to_nat i with
      | None => w
      | Some st =>
          let w := if i <? Z.of_nat (length proof) - 1
                   then Fprint w ", " else w in
          let w := Fprint w (render_step st) in
          renderProof_loop fuel' w proof (i - 1)
      end
  end.

Definition renderProof {W} `{Writer W} (w : W) (proof : list ProofStep) : W :=
  let w := Fprint w "{" in
  let w := renderProof_loop (length proof) w proof
             (Z.of_nat (length proof) - 1) in
  Fprint w (String "}" (String "010" EmptyString)).

(** What is to come out: the steps from the last to the first, separated
    by commas, in braces, and a newline. *)
Definition rendered (proof : list ProofStep) : string :=
  String.append "{"
    (String.append (String.concat ", " (map render_step (rev proof)))
       (String "}" (String "010" EmptyString))).

(** * Properties *)

(** ** SHA-256 test vectors (FIPS 180-4, appendix B) *)

Example sha256_constants :
  nth 0 SHA256.K 0 = 0x428a2f98 /\ nth 63 SHA256.K 0 = 0xc67178f2 /\
  SHA256.sa SHA256.init = 0x6a09e667 /\ SHA256.sh SHA256.init = 0x5be0cd19.
Proof. repeat split; reflexivity. Qed.

Example sha256_empty :
  SHA256.sum [] =
  unhex "e3b0c44298fc1c149afbf4c8996fb92427ae41e4649b934ca495991b7852b855".
Proof. vm_compute. reflexivity. Qed.

Example sha256_abc :
  SHA256.sum [97; 98; 99] =
  unhex "ba7816bf8f01cfea414140de5dae2223b00361a396177a9cb410ff61f20015ad".
Proof. vm_compute. reflexivity. Qed.

Example sha256_two_blocks :
  SHA256.sum (map (fun c => Z.of_nat (nat_of_ascii c))
    (list_ascii_of_string
       "abcdbcdecdefdefgefghfghighijhijkijkljklmklmnlmnomnopnopq")) =
  unhex "248d6a61d20638b8e5c026930c3e6039a33ce45964ff2167f6ecedd419db06c1".
Proof. vm_compute. reflexivity. Qed.

(** ** The streaming Merkle tree against RFC 6962 *)

Section MerkleTree.

Local Open Scope nat_scope.

Lemma split_point_spec (fuel j h n : nat) :
  j <= h -> h - j <= fuel -> 2 ^ h < n <= 2 ^ S h ->
  merkle.split_point fuel (2 ^ j) n = 2 ^ h.
Proof.
  revert j. induction fuel as [|fuel IH]; intros j Hj Hfuel Hn.
  - assert (j = h) by lia. subst j. reflexivity.
  - cbn [merkle.split_point].
    destruct (decide (j = h)) as [-> | Hne].
    + replace (2 * 2 ^ h <? n) with false; [reflexivity|].
      symmetry. apply Nat.ltb_ge. rewrite Nat.pow_succ_r' in Hn. lia.
    + replace (2 * 2 ^ j <? n) with true.
      * rewrite <- Nat.pow_succ_r'. apply IH; lia.
      * symmetry. apply Nat.ltb_lt. rewrite <- Nat.pow_succ_r'.
        assert (2 ^ S j <= 2 ^ h) by (apply Nat.pow_le_mono_r; lia). lia.
Qed.

Lemma pow2_gt (h : nat) : h < 2 ^ h.
Proof. apply Nat.pow_gt_lin_r. lia. Qed.

Lemma MTH_step (fuel : nat) (leaves : list (list Z)) :
  2 <= length leaves ->
  merkle.MTH (S fuel) leaves =
  merkle.interiorHash
    (merkle.MTH fuel (take (merkle.split_point (length leaves) 1 (length leaves)) leaves))
    (merkle.MTH fuel (drop (merkle.split_point (length leaves) 1 (length leaves)) leaves)).
Proof.
  destruct leaves as [|d [|d' leaves]]; simpl length; try lia. reflexivity.
Qed.

Lemma split_point_range (n : nat) :
  2 <= n -> 1 <= merkle.split_point n 1 n < n.
Proof.
  intros Hn.
  destruct (Nat.log2_spec (n - 1)) as [Hlo Hhi]; [lia|].
  pose proof (pow2_gt (Nat.log2 (n - 1))).
  rewrite (split_point_spec n 0 (Nat.log2 (n - 1))); lia.
Qed.

Lemma MTH_fuel (fuel : nat) (leaves : list (list Z)) :
  length leaves <= fuel -> merkle.MTH fuel leaves = merkle.MTH (length leaves) leaves.
Proof.
  revert leaves. induction fuel as [fuel IH] using lt_wf_ind.
  intros leaves Hfuel.
  destruct (decide (length leaves < 2)) as [Hsmall | Hbig].
  - destruct leaves as [|d [|d' leaves]]; simpl in *; try lia;
      destruct fuel; simpl in *; try lia; reflexivity.
  - destruct fuel as [|fuel']; [lia|].
    destruct (length leaves) as [|n] eqn:Hlen; [lia|].
    rewrite !MTH_step by lia. rewrite Hlen.
    pose proof (split_point_range (S n) ltac:(lia)) as Hk.
    set (k := merkle.split_point (S n) 1 (S n)) in *.
    assert (Htake : length (take k leaves) = k) by (rewrite length_take; lia).
    assert (Hdrop : length (drop k leaves) = S n - k)
      by (rewrite length_drop; lia).
    rewrite (IH fuel' ltac:(lia) (take k leaves)) by lia.
    rewrite (IH fuel' ltac:(lia) (drop k leaves)) by lia.
    rewrite (IH n ltac:(lia) (take k leaves)) by lia.
    rewrite (IH n ltac:(lia) (drop k leaves)) by lia.
    reflexivity.
Qed.

(** A block of [2^h] leaves followed by at most as many, and at least one. *)
Lemma mth_app (h : nat) (l2 s : list (list Z)) :
  length l2 = 2 ^ h -> 0 < length s <= 2 ^ h ->
  merkle.mth (l2 ++ s) = merkle.interiorHash (merkle.mth l2) (merkle.mth s).
Proof.
  intros Hl2 Hs. unfold merkle.mth.
  assert (Hpos : 0 < 2 ^ h) by (apply Nat.neq_0_lt_0, Nat.pow_nonzero; lia).
  assert (Hlen : length (l2 ++ s) = 2 ^ h + length s)
    by (rewrite length_app; lia).
  destruct (length (l2 ++ s)) as [|n] eqn:Hn; [lia|].
  rewrite MTH_step by lia. rewrite Hn.
  rewrite (split_point_spec (S n) 0 h);
    [| lia | pose proof (pow2_gt h); lia | rewrite Nat.pow_succ_r'; lia].
  rewrite <- Hl2. rewrite take_app_length, drop_app_length.
  rewrite (MTH_fuel n l2) by lia. rewrite (MTH_fuel n s) by lia.
  reflexivity.
Qed.

Lemma add_hash_pending (h : nat) (hs : list (option bytes))
    (leaves block : list (list Z)) :
  merkle.pending h hs leaves -> length block = 2 ^ h ->
  merkle.pending h (merkle.add_hash hs (merkle.mth block)) (leaves ++ block).
Proof.
  revert h leaves block. induction hs as [|[x|] hs IH];
    intros h leaves block Hpending Hblock; cbn [merkle.add_hash merkle.pending] in *.
  - subst leaves. exists [], block. repeat split; assumption.
  - destruct Hpending as (l1 & l2 & -> & Hl2 & -> & Hrest).
    pose proof (pow2_gt h).
    rewrite <- (mth_app h l2 block) by lia.
    rewrite <- app_assoc. apply IH; [exact Hrest|].
    rewrite length_app, Nat.pow_succ_r'. lia.
  - exists leaves, block. repeat split; assumption.
Qed.

Lemma Add_pending (t : merkle.Tree) (leaves : list (list Z)) (d : bytes) :
  merkle.pending 0 (merkle.hashes t) leaves ->
  merkle.pending 0 (merkle.hashes (merkle.Add t d)) (leaves ++ [d]).
Proof.
  intros Hpending. unfold merkle.Add. cbn [merkle.hashes].
  change (merkle.LeafHash d) with (merkle.mth [d]).
  apply add_hash_pending; [exact Hpending | reflexivity].
Qed.

Lemma fold_Add_pending (ds : list (list Z)) (t : merkle.Tree) (leaves : list (list Z)) :
  merkle.pending 0 (merkle.hashes t) leaves ->
  merkle.pending 0 (merkle.hashes (fold_left merkle.Add ds t)) (leaves ++ ds).
Proof.
  revert t leaves. induction ds as [|d ds IH]; intros t leaves Hpending.
  - rewrite app_nil_r. exact Hpending.
  - cbn [fold_left]. replace (leaves ++ d :: ds) with ((leaves ++ [d]) ++ ds)
      by (rewrite <- app_assoc; reflexivity).
    apply IH. apply Add_pending. exact Hpending.
Qed.

Lemma combine_up_pending (h : nat) (hs : list (option bytes))
    (leaves lower : list (list Z)) :
  merkle.pending h hs leaves -> length lower < 2 ^ h ->
  fold_left merkle.combine_up hs (merkle.root_so_far lower) = merkle.root_so_far (leaves ++ lower).
Proof.
  revert h leaves lower. induction hs as [|[x|] hs IH];
    intros h leaves lower Hpending Hlower; cbn [merkle.pending fold_left] in *.
  - subst leaves. reflexivity.
  - destruct Hpending as (l1 & l2 & -> & Hl2 & -> & Hrest).
    assert (Hpos : 0 < 2 ^ h) by (apply Nat.neq_0_lt_0, Nat.pow_nonzero; lia).
    rewrite <- app_assoc.
    rewrite <- (IH (S h) l1 (l2 ++ lower) Hrest)
      by (rewrite length_app, Nat.pow_succ_r'; lia).
    f_equal. destruct lower as [|d lower].
    + rewrite app_nil_r. destruct l2; [simpl in Hl2; lia | reflexivity].
    + cbn [merkle.root_so_far merkle.combine_up].
      rewrite <- (mth_app h l2 (d :: lower)) by (simpl in *; lia).
      destruct l2; [simpl in Hl2; lia | reflexivity].
  - apply (IH (S h)); [exact Hpending|]. rewrite Nat.pow_succ_r'. lia.
Qed.

(** The streaming tree computes the Merkle Tree Hash of RFC 6962. *)
Theorem root_of_mth (leaves : list (list Z)) : merkle.root_of leaves = merkle.mth leaves.
Proof.
  unfold merkle.root_of, merkle.Root.
  pose proof (fold_Add_pending leaves merkle.NewTree [] eq_refl) as Hpending.
  simpl app in Hpending.
  pose proof (combine_up_pending 0 _ leaves [] Hpending ltac:(simpl; lia))
    as Hroot.
  cbn [merkle.root_so_far] in Hroot. rewrite Hroot, app_nil_r.
  destruct leaves; reflexivity.
Qed.

End MerkleTree.

(** ** Lengths *)

Lemma length_be32 (x : Z) : length (SHA256.be32 x) = 4%nat.
Proof. reflexivity. Qed.

Lemma length_sum (msg : bytes) : length (SHA256.sum msg) = 32%nat.
Proof.
  unfold SHA256.sum, SHA256.digest.
  rewrite !length_app, !length_be32. reflexivity.
Qed.

Lemma length_LeafHash (inp : bytes) : length (merkle.LeafHash inp) = 32%nat.
Proof. apply length_sum. Qed.

Lemma length_putUvarint (fuel : nat) (x : Z) :
  (1 <= length (putUvarint fuel x) <= S fuel)%nat.
Proof.
  revert x. induction fuel as [|fuel IH]; intros x; simpl.
  - lia.
  - destruct (128 <=? x); simpl; [specialize (IH (Z.shiftr x 7))|]; lia.
Qed.

Lemma length_PutUvarint (x : Z) :
  (1 <= length (PutUvarint x) <= MaxVarintLen64)%nat.
Proof. unfold PutUvarint, MaxVarintLen64. apply length_putUvarint. Qed.

Lemma length_concat_replicate {A} (k : nat) (l : list A) :
  length (concat (replicate k l)) = (k * length l)%nat.
Proof.
  induction k as [|k IH]; simpl; [reflexivity|].
  rewrite length_app, IH. reflexivity.
Qed.

Lemma length_keystream (key : bytes) (index : Z) (n : nat) :
  length (keystream key index n) = n.
Proof.
  unfold keystream. rewrite length_take, length_concat_replicate, length_sum.
  pose proof (Nat.div_mod_eq n 32).
  pose proof (Nat.mod_upper_bound n 32). lia.
Qed.

(** [crypt] works in place: the chunk keeps its length. *)
Lemma length_crypt (key chunk : bytes) (index : Z) :
  length (crypt key chunk index) = length chunk.
Proof.
  unfold crypt. rewrite length_zip_with_l; [reflexivity|].
  rewrite length_keystream. lia.
Qed.

(** ** Slices *)

Lemma length_write_at (buf : bytes) (off : nat) (data : bytes) :
  (off + length data <= length buf)%nat ->
  length (write_at buf off data) = length buf.
Proof.
  intros Hfit. unfold write_at.
  rewrite !length_app, length_take, length_drop. lia.
Qed.

Lemma take_write_at (buf : bytes) (off : nat) (data : bytes) :
  (off <= length buf)%nat ->
  take off (write_at buf off data) = take off buf.
Proof.
  intros Hoff. unfold write_at.
  rewrite take_app_le by (rewrite length_take; lia).
  rewrite take_take. f_equal. lia.
Qed.

Lemma slice_write_at (buf : bytes) (off : nat) (data : bytes) :
  (off <= length buf)%nat ->
  slice (write_at buf off data) off (off + length data) = data.
Proof.
  intros Hoff. unfold slice, write_at.
  rewrite drop_app_length' by (rewrite length_take; lia).
  replace (off + length data - off)%nat with (length data) by lia.
  apply take_app_length.
Qed.

Lemma slice_from_0 (buf : bytes) (hi : nat) : slice buf 0 hi = take hi buf.
Proof. unfold slice. rewrite Nat.sub_0_r. reflexivity. Qed.

Lemma take_write_at_through (buf : bytes) (off : nat) (data : bytes) :
  (off <= length buf)%nat ->
  take (off + length data) (write_at buf off data) = take off buf ++ data.
Proof.
  intros Hoff. unfold write_at.
  rewrite take_app_ge by (rewrite length_take; lia).
  rewrite length_take.
  replace (off + length data - off `min` length buf)%nat with (length data) by lia.
  rewrite take_app_length. reflexivity.
Qed.

Lemma take_write_at_0 (buf data : bytes) :
  take (length data) (write_at buf 0 data) = data.
Proof.
  pose proof (take_write_at_through buf 0 data) as Hthrough.
  simpl in Hthrough. apply Hthrough. lia.
Qed.

(** ** [ReadFull] sees the contents, not the pieces *)

Lemma read_frags_spec (frags : list bytes) (need : nat) :
  exists rest,
    read_frags frags need =
      (take need (concat frags), rest, (length (concat frags) <? need)%nat) /\
    concat rest = drop need (concat frags).
Proof.
  revert need. induction frags as [|f fs IH]; intros need.
  - destruct need; simpl; eexists; split; reflexivity.
  - destruct need as [|need'].
    + simpl. eexists. split; reflexivity.
    + cbn [read_frags]. set (need := S need').
      destruct (length f <=? need)%nat eqn:Hfit.
      * apply Nat.leb_le in Hfit.
        destruct (IH (need - length f)%nat) as (rest & Hread & Hrest).
        rewrite Hread. exists rest. split.
        -- simpl concat. rewrite take_app_ge by lia.
           rewrite length_app. f_equal.
           destruct (length (concat fs) <? need - length f)%nat eqn:Hlt;
             [apply Nat.ltb_lt in Hlt | apply Nat.ltb_ge in Hlt];
             symmetry; [apply Nat.ltb_lt | apply Nat.ltb_ge]; lia.
        -- simpl concat. rewrite drop_app_ge by lia. exact Hrest.
      * apply Nat.leb_gt in Hfit. eexists. split.
        -- simpl concat. rewrite take_app_le by lia. rewrite length_app.
           f_equal. symmetry. apply Nat.ltb_ge. lia.
        -- simpl concat. rewrite drop_app_le by lia. reflexivity.
Qed.

Lemma ReadFull_spec (frags : list bytes) (e : option error) (size : nat) :
  exists rest,
    concat rest = drop size (concat frags) /\
    ReadFull (mkReader frags e) size =
      (take size (concat frags),
       (if (length (concat frags) <? size)%nat then
          match e with
          | None | Some EOF =>
              Some (if (length (concat frags) =? 0)%nat
                    then EOF else ErrUnexpectedEOF)
          | Some e' => Some e'
          end
        else None),
       mkReader rest e).
Proof.
  destruct (read_frags_spec frags size) as (rest & Hread & Hrest).
  exists rest. split; [exact Hrest|].
  unfold ReadFull. simpl r_frags. rewrite Hread. simpl r_end.
  destruct (length (concat frags) <? size)%nat eqn:Hshort; [|reflexivity].
  apply Nat.ltb_lt in Hshort.
  destruct e as [[]|]; try reflexivity;
    rewrite length_take_ge by lia; reflexivity.
Qed.

(** ** Chunks *)

Lemma chunks_upto_cons (ChunkSize fuel : nat) (data : bytes) :
  data <> [] ->
  chunks_upto ChunkSize (S fuel) data =
  take ChunkSize data :: chunks_upto ChunkSize fuel (drop ChunkSize data).
Proof. destruct data; [congruence | reflexivity]. Qed.

(** ** The loop of [Serve] *)

Section ServeLoop.

Variable ChunkSize : nat.
Hypothesis ChunkSize_pos : (0 < ChunkSize)%nat.

(** One pass over a reader that still has data. *)
Lemma Serve_loop_step (fuel : nat) (key : bytes) (w : WriteLog)
    (frags : list bytes) (index : Z) (tree : merkle.Tree)
    (cbuf hbuf : bytes) :
  concat frags <> [] ->
  length cbuf = (ChunkSize + MaxVarintLen64)%nat ->
  length hbuf = (32 + MaxVarintLen64)%nat ->
  exists rest cbuf' hbuf',
    concat rest = drop ChunkSize (concat frags) /\
    length cbuf' = (ChunkSize + MaxVarintLen64)%nat /\
    length hbuf' = (32 + MaxVarintLen64)%nat /\
    Serve_loop ChunkSize (S fuel) key w (mkReader frags None) index tree
      cbuf hbuf =
    Serve_loop ChunkSize fuel key
      (w ++ [clearHash index (take ChunkSize (concat frags));
             cipherChunk key index (take ChunkSize (concat frags))])
      (mkReader rest None) (u64 (index + 1))
      (merkle.Add tree (cipherLeaf key index (take ChunkSize (concat frags))))
      cbuf' hbuf'.
Proof.
  intros Hdata Hcbuf Hhbuf.
  destruct (ReadFull_spec frags None ChunkSize) as (rest & Hrest & Hread).
  set (d := take ChunkSize (concat frags)) in *.
  set (vi := PutUvarint index).
  pose proof (length_PutUvarint index) as Hm. fold vi in Hm.
  assert (Hd : (length d <= ChunkSize)%nat)
    by (subst d; rewrite length_take; lia).
  set (cbuf1 := write_at cbuf 0 vi).
  set (hbuf1 := write_at hbuf 0 vi).
  set (cbuf2 := write_at cbuf1 (length vi) d).
  set (hbuf2 := write_at hbuf1 (length vi) (merkle.LeafHash (vi ++ d))).
  set (cbuf3 := write_at cbuf2 (length vi) (crypt key d index)).
  assert (Hc1 : length cbuf1 = length cbuf)
    by (apply length_write_at; simpl; lia).
  assert (Hh1 : length hbuf1 = length hbuf)
    by (apply length_write_at; simpl; lia).
  assert (Hc2 : length cbuf2 = length cbuf)
    by (subst cbuf2; rewrite length_write_at; lia).
  assert (Hh2 : length hbuf2 = length hbuf)
    by (subst hbuf2; rewrite length_write_at;
        rewrite ?length_LeafHash; lia).
  assert (Hc3 : length cbuf3 = length cbuf)
    by (subst cbuf3; rewrite length_write_at;
        rewrite ?length_crypt; lia).
  assert (Hv1 : take (length vi) cbuf1 = vi) by apply take_write_at_0.
  assert (Hs2 : slice cbuf2 0 (length vi + length d) = vi ++ d).
  { rewrite slice_from_0. subst cbuf2.
    rewrite take_write_at_through by lia. rewrite Hv1. reflexivity. }
  assert (Hsd : slice cbuf2 (length vi) (length vi + length d) = d)
    by (apply slice_write_at; lia).
  assert (Hsh : slice hbuf2 (length vi) (length vi + 32) =
                merkle.LeafHash (vi ++ d)).
  { pose proof (slice_write_at hbuf1 (length vi) (merkle.LeafHash (vi ++ d)))
      as Hslice.
    rewrite length_LeafHash in Hslice. apply Hslice. lia. }
  assert (Hsc : slice cbuf3 (length vi) (length vi + length d) =
                crypt key d index).
  { pose proof (slice_write_at cbuf2 (length vi) (crypt key d index))
      as Hslice.
    rewrite length_crypt in Hslice. apply Hslice. lia. }
  assert (Hs3 : slice cbuf3 0 (length vi + length d) =
                vi ++ crypt key d index).
  { rewrite slice_from_0.
    pose proof (take_write_at_through cbuf2 (length vi) (crypt key d index))
      as Htake.
    rewrite length_crypt in Htake. fold cbuf3 in Htake.
    rewrite Htake by lia.
    subst cbuf2. rewrite take_write_at by lia. rewrite Hv1. reflexivity. }
  exists rest, cbuf3, hbuf2.
  split; [exact Hrest|]. split; [lia|]. split; [lia|].
  cbn [Serve_loop]. rewrite Hread.
  fold vi cbuf1 hbuf1. fold cbuf2.
  assert (Herr :
    (if (length (concat frags) <? ChunkSize)%nat
     then Some (if (length (concat frags) =? 0)%nat
                then EOF else ErrUnexpectedEOF)
     else None) = None \/
    (if (length (concat frags) <? ChunkSize)%nat
     then Some (if (length (concat frags) =? 0)%nat
                then EOF else ErrUnexpectedEOF)
     else None) = Some ErrUnexpectedEOF).
  { destruct (length (concat frags) <? ChunkSize)%nat; [right|left; reflexivity].
    destruct (concat frags); [congruence|reflexivity]. }
  destruct Herr as [-> | ->];
    rewrite Hs2; fold hbuf2; rewrite Hsh;
    unfold Write, WriteLog_Writer;
    rewrite Hsd; fold cbuf3; rewrite Hsc, Hs3;
    rewrite <- app_assoc; reflexivity.
Qed.

(** The loop on a reader that ends in [io.EOF]: one clear hash and one
    cipher chunk written per chunk of the contents, one leaf added. *)
Lemma Serve_loop_spec (fuel : nat) (key : bytes) (w : WriteLog)
    (frags : list bytes) (index : Z) (tree : merkle.Tree)
    (cbuf hbuf : bytes) :
  (length (concat frags) <= fuel)%nat ->
  length cbuf = (ChunkSize + MaxVarintLen64)%nat ->
  length hbuf = (32 + MaxVarintLen64)%nat ->
  exists rest,
    Serve_loop ChunkSize (S fuel) key w (mkReader frags None) index tree
      cbuf hbuf =
    Some (w ++ writes_from key index (chunks_upto ChunkSize fuel (concat frags)),
          mkReader rest None,
          Ok (merkle.Root
                (fold_left merkle.Add
                   (leaves_from key index
                      (chunks_upto ChunkSize fuel (concat frags)))
                   tree))).
Proof.
  revert w frags index tree cbuf hbuf.
  induction fuel as [|fuel IH]; intros w frags index tree cbuf hbuf
    Hfuel Hcbuf Hhbuf.
  - destruct (ReadFull_spec frags None ChunkSize) as (rest & Hrest & Hread).
    exists rest. cbn [Serve_loop]. rewrite Hread.
    destruct (concat frags) eqn:Hdata; [|simpl in Hfuel; lia].
    simpl length. destruct ChunkSize; [lia|].
    simpl. rewrite app_nil_r. reflexivity.
  - destruct (decide (concat frags = [])) as [Hdata|Hdata].
    + destruct (ReadFull_spec frags None ChunkSize) as (rest & Hrest & Hread).
      exists rest. cbn [Serve_loop]. rewrite Hread, Hdata.
      simpl length. destruct ChunkSize; [lia|].
      simpl. rewrite app_nil_r. reflexivity.
    + destruct (Serve_loop_step (S fuel) key w frags index tree cbuf hbuf)
        as (rest & cbuf' & hbuf' & Hrest & Hcbuf' & Hhbuf' & Hstep);
        [assumption | assumption | assumption |].
      rewrite Hstep.
      destruct (IH (w ++ [clearHash index (take ChunkSize (concat frags));
                          cipherChunk key index (take ChunkSize (concat frags))])
                  rest (u64 (index + 1))
                  (merkle.Add tree
                     (cipherLeaf key index (take ChunkSize (concat frags))))
                  cbuf' hbuf') as (rest' & Hloop);
        [| assumption | assumption |].
      { rewrite Hrest, length_drop.
        destruct (concat frags); [congruence | simpl in *; lia]. }
      exists rest'. etrans; [exact Hloop|]. rewrite Hrest.
      rewrite (chunks_upto_cons ChunkSize fuel (concat frags) Hdata).
      cbn [writes_from leaves_from fold_left].
      rewrite <- app_assoc. reflexivity.
Qed.

End ServeLoop.

(** ** Chunk indices below [2^64] do not wrap *)

Lemma u64_small (x : Z) : 0 <= x < 2 ^ 64 -> u64 x = x.
Proof. intros Hx. unfold u64. apply Z.mod_small. exact Hx. Qed.

Lemma leaves_from_imap (key : bytes) (index : Z) (cs : list bytes) :
  0 <= index -> index + Z.of_nat (length cs) <= 2 ^ 64 ->
  leaves_from key index cs =
  imap (fun i c => cipherLeaf key (index + Z.of_nat i) c) cs.
Proof.
  revert index. induction cs as [|c cs IH]; intros index Hlo Hhi.
  - reflexivity.
  - cbn [leaves_from]. rewrite imap_cons. f_equal.
    + f_equal. lia.
    + destruct cs as [|c' cs']; [reflexivity|].
      simpl length in Hhi.
      rewrite u64_small by lia. rewrite IH by (simpl length; lia).
      apply imap_ext. intros i x _. simpl. f_equal. lia.
Qed.

Lemma writes_from_concat (key : bytes) (index : Z) (cs : list bytes) :
  0 <= index -> index + Z.of_nat (length cs) <= 2 ^ 64 ->
  concat (writes_from key index cs) =
  concat (imap (fun i c => record key (index + Z.of_nat i) c) cs).
Proof.
  revert index. induction cs as [|c cs IH]; intros index Hlo Hhi.
  - reflexivity.
  - cbn [writes_from]. rewrite imap_cons. cbn [concat].
    unfold record at 1. rewrite <- app_assoc.
    replace (index + Z.of_nat 0) with index by lia.
    do 2 f_equal.
    destruct cs as [|c' cs']; [reflexivity|].
    simpl length in Hhi.
    rewrite u64_small by lia. rewrite IH by (simpl length; lia).
    f_equal. apply imap_ext. intros i x _. simpl. f_equal. lia.
Qed.

Lemma writes_from_lookup (key : bytes) (cs : list bytes) (i : nat) (c : bytes)
    (index : Z) :
  0 <= index -> index + Z.of_nat (length cs) <= 2 ^ 64 ->
  cs !! i = Some c ->
  writes_from key index cs !! (2 * i)%nat =
    Some (clearHash (index + Z.of_nat i) c) /\
  writes_from key index cs !! (2 * i + 1)%nat =
    Some (cipherChunk key (index + Z.of_nat i) c).
Proof.
  revert index i. induction cs as [|c0 cs IH]; intros index i Hlo Hhi Hc.
  - discriminate.
  - destruct i as [|i].
    + simpl in Hc. injection Hc as ->.
      change (Z.of_nat 0) with 0. rewrite Z.add_0_r. split; reflexivity.
    + simpl in Hc. simpl length in Hhi.
      assert (Hlen : (i < length cs)%nat) by (eapply lookup_lt_Some; eassumption).
      cbn [writes_from].
      replace (2 * S i)%nat with (S (S (2 * i))) by lia.
      replace (S (S (2 * i)) + 1)%nat with (S (S (2 * i + 1))) by lia.
      cbn [lookup list_lookup].
      destruct (IH (u64 (index + 1)) i) as [Hh Hk];
        [unfold u64; apply Z.mod_pos_bound; lia
        | rewrite u64_small by lia; lia | exact Hc |].
      rewrite (u64_small (index + 1)) in * by lia.
      replace (index + Z.of_nat (S i)) with (index + 1 + Z.of_nat i) by lia.
      split; assumption.
Qed.

Lemma length_chunks_upto (ChunkSize fuel : nat) (data : bytes) :
  (length (chunks_upto ChunkSize fuel data) <= fuel)%nat.
Proof.
  revert data. induction fuel as [|fuel IH]; intros data; simpl; [lia|].
  destruct data; simpl; [lia|].
  specialize (IH (drop ChunkSize (z :: data))). lia.
Qed.

Lemma length_chunks (ChunkSize : nat) (data : bytes) :
  (length (chunks ChunkSize data) <= length data)%nat.
Proof. apply length_chunks_upto. Qed.

(** The chunks are the file: nothing is lost, nothing is empty, nothing is
    longer than [ChunkSize]. *)
Lemma chunks_upto_concat (ChunkSize fuel : nat) (data : bytes) :
  (0 < ChunkSize)%nat -> (length data <= fuel)%nat ->
  concat (chunks_upto ChunkSize fuel data) = data /\
  Forall (fun c => (1 <= length c <= ChunkSize)%nat)
         (chunks_upto ChunkSize fuel data).
Proof.
  intros Hpos. revert data. induction fuel as [|fuel IH]; intros data Hfuel.
  - destruct data; [split; [reflexivity | constructor] | simpl in Hfuel; lia].
  - destruct data as [|b data]; [split; [reflexivity | constructor]|].
    rewrite chunks_upto_cons by discriminate.
    destruct (IH (drop ChunkSize (b :: data))) as [Hcat Hall].
    { rewrite length_drop. simpl in *. lia. }
    split.
    + cbn [concat]. rewrite Hcat. apply take_drop.
    + constructor; [|exact Hall].
      rewrite length_take. simpl length. lia.
Qed.

(** ** [Serve] on a reader that ends in [io.EOF] *)

Lemma Serve_spec (ChunkSize : nat) (r : Reader) (key : bytes) :
  (0 < ChunkSize)%nat -> r_end r = None ->
  exists r',
    Serve ChunkSize ([] : WriteLog) r key =
    Some (writes_from key 0 (chunks ChunkSize (contents r)), r',
          Ok (merkle.Root
                (fold_left merkle.Add
                   (leaves_from key 0 (chunks ChunkSize (contents r)))
                   merkle.NewTree))).
Proof.
  intros Hpos Hend. destruct r as [frags e]. simpl in Hend. subst e.
  unfold Serve, Serve_fuel, contents. simpl r_frags.
  destruct (Serve_loop_spec ChunkSize Hpos (length (concat frags)) key []
              frags 0 merkle.NewTree
              (replicate (ChunkSize + MaxVarintLen64) 0)
              (replicate (32 + MaxVarintLen64) 0)) as (rest & Hloop);
    [lia | apply length_replicate | apply length_replicate |].
  exists (mkReader rest None). rewrite Hloop. reflexivity.
Qed.

Lemma Serve_imap (ChunkSize : nat) (r : Reader) (key : bytes) :
  (0 < ChunkSize)%nat -> r_end r = None ->
  Z.of_nat (length (contents r)) < 2 ^ 64 ->
  exists r',
    Serve ChunkSize ([] : WriteLog) r key =
    Some (writes_from key 0 (chunks ChunkSize (contents r)), r',
          Ok (cipherRoot ChunkSize key (contents r))).
Proof.
  intros Hpos Hend Hsize.
  destruct (Serve_spec ChunkSize r key Hpos Hend) as (r' & Hserve).
  exists r'. rewrite Hserve. unfold cipherRoot, merkle.root_of.
  pose proof (length_chunks ChunkSize (contents r)) as Hlen.
  rewrite leaves_from_imap by lia. reflexivity.
Qed.

(** [io.ReadFull] reports [io.EOF] only with zero bytes read, and on a
    reader that ends in [io.EOF] exactly when nothing is left. *)
Lemma ReadFull_EOF (r : Reader) (size : nat) (d : bytes) (r' : Reader) :
  ReadFull r size = (d, Some EOF, r') -> d = [].
Proof.
  unfold ReadFull.
  destruct (read_frags (r_frags r) size) as [[d0 rest] hit].
  destruct hit; [|discriminate].
  destruct (r_end r) as [[]|]; try discriminate;
    (destruct (length d0 =? 0)%nat eqn:Hzero; [|discriminate]);
    intros Heq; injection Heq as <- _; apply Nat.eqb_eq in Hzero;
    (destruct d0; [reflexivity | discriminate]).
Qed.

Lemma ReadFull_EOF_iff (r : Reader) (size : nat) :
  (0 < size)%nat -> r_end r = None ->
  (ReadFull r size).1.2 = Some EOF <-> contents r = [].
Proof.
  intros Hpos Hend. destruct r as [frags e]. simpl in Hend. subst e.
  destruct (ReadFull_spec frags None size) as (rest & _ & Hread).
  rewrite Hread. unfold contents. simpl.
  destruct (concat frags) as [|b data]; simpl.
  - destruct size; [lia|]. simpl. split; reflexivity.
  - destruct (S (length data) <? size)%nat; split; discriminate.
Qed.

(** ** [Serve] on the small file "ABCDEF", in chunks of four bytes *)

(** Six bytes in three pieces: two records, the second chunk two bytes
    long; the reader is left empty. *)
Example Serve_ABCDEF :
  (fun run : WriteLog * Reader * result bytes =>
     (map length run.1.1, run.1.2)) <$>
    Serve 4 ([] : WriteLog) (mkReader [[65; 66; 67]; [68; 69]; [70]] None)
      (replicate 32 1) =
  Some ([32; 4; 32; 2]%nat, mkReader [] None).
Proof. vm_compute. reflexivity. Qed.

(** A writer that fails: the error is wrapped with the index of the chunk,
    and no root is returned. *)
Example Serve_write_error :
  (fun run : LimitWriter * Reader * result bytes =>
     (length (lw_out run.1.1), run.2)) <$>
    Serve 4 (mkLimitWriter 40 []) (mkReader [[65; 66; 67; 68; 69; 70]] None)
      (replicate 32 1) =
  Some (40%nat, Err (Wrapf (ErrIO "short write") "writing clear hash" 1)).
Proof. vm_compute. reflexivity. Qed.

(** A reader that fails after six bytes: the first chunk has been written,
    the short read of the second is an error. *)
Example Serve_read_error :
  (fun run : WriteLog * Reader * result bytes =>
     (map length run.1.1, run.2)) <$>
    Serve 4 ([] : WriteLog)
      (mkReader [[65; 66; 67; 68; 69; 70]]
         (Some (ErrIO "input/output error")))
      (replicate 32 1) =
  Some ([32; 4]%nat,
        Err (Wrapf (ErrIO "input/output error") "reading clear chunk" 1)).
Proof. vm_compute. reflexivity. Qed.

(** * The chunk codec: what [Serve] writes and returns *)

(** C4.  For every input (a reader that ends in [io.EOF], whatever the
    pieces it delivers its contents in) and every key, [Serve] writes
    exactly the concatenation, in chunk-index order from index 0, of the
    records [clearHash_i || cipherChunk_i], where [clearHash_i] is the
    32-byte leaf hash of [varint(i) || chunk_i], [cipherChunk_i] is chunk
    [i] XOR'd with the keystream for index [i], and the chunks make up the
    contents; the root returned is the Merkle root over the leaves
    [varint(i) || cipherChunk_i], the Merkle Tree Hash of RFC 6962.  The
    index is a [uint64]: the contents hold fewer than [2^64] bytes. *)
Theorem Serve_stream_and_root (ChunkSize : nat) (r : Reader) (key : bytes) :
  (0 < ChunkSize)%nat ->
  r_end r = None ->
  Z.of_nat (length (contents r)) < 2 ^ 64 ->
  exists (log : WriteLog) (r' : Reader),
    Serve ChunkSize ([] : WriteLog) r key =
      Some (log, r',
            Ok (merkle.root_of
                  (imap (fun i c =>
                           PutUvarint (Z.of_nat i) ++
                           cipherChunk key (Z.of_nat i) c)
                        (chunks ChunkSize (contents r))))) /\
    concat log =
      concat (imap (fun i c =>
                      merkle.LeafHash (PutUvarint (Z.of_nat i) ++ c) ++
                      cipherChunk key (Z.of_nat i) c)
                   (chunks ChunkSize (contents r))) /\
    merkle.root_of
      (imap (fun i c =>
               PutUvarint (Z.of_nat i) ++ cipherChunk key (Z.of_nat i) c)
            (chunks ChunkSize (contents r))) =
    merkle.mth
      (imap (fun i c =>
               PutUvarint (Z.of_nat i) ++ cipherChunk key (Z.of_nat i) c)
            (chunks ChunkSize (contents r))) /\
    concat (chunks ChunkSize (contents r)) = contents r /\
    (forall i c, chunks ChunkSize (contents r) !! i = Some c ->
       length (merkle.LeafHash (PutUvarint (Z.of_nat i) ++ c)) = 32%nat /\
       cipherChunk key (Z.of_nat i) c =
         zip_with Z.lxor c (keystream key (Z.of_nat i) (length c))).
Proof.
  intros Hpos Hend Hsize.
  destruct (Serve_imap ChunkSize r key Hpos Hend Hsize) as (r' & Hserve).
  pose proof (length_chunks ChunkSize (contents r)) as Hlen.
  exists (writes_from key 0 (chunks ChunkSize (contents r))), r'.
  split; [exact Hserve|]. split; [|split; [|split]].
  - rewrite writes_from_concat by lia. reflexivity.
  - apply root_of_mth.
  - apply (chunks_upto_concat ChunkSize (length (contents r)) (contents r));
      [exact Hpos | lia].
  - intros i c _. split; [apply length_LeafHash | reflexivity].
Qed.

Lemma Serve_stream_and_root_witness :
  (0 < ChunkSize8K)%nat /\
  r_end (mkReader [[65; 66]; [67]] None) = None /\
  Z.of_nat (length (contents (mkReader [[65; 66]; [67]] None))) < 2 ^ 64 /\
  exists (log : WriteLog) (r' : Reader),
    Serve ChunkSize8K ([] : WriteLog) (mkReader [[65; 66]; [67]] None)
      (replicate 32 1) =
      Some (log, r',
            Ok (merkle.root_of
                  (imap (fun i c =>
                           PutUvarint (Z.of_nat i) ++
                           cipherChunk (replicate 32 1) (Z.of_nat i) c)
                        (chunks ChunkSize8K
                           (contents (mkReader [[65; 66]; [67]] None)))))) /\
    concat log =
      concat (imap (fun i c =>
                      merkle.LeafHash (PutUvarint (Z.of_nat i) ++ c) ++
                      cipherChunk (replicate 32 1) (Z.of_nat i) c)
                   (chunks ChunkSize8K (contents (mkReader [[65; 66]; [67]] None)))) /\
    merkle.root_of
      (imap (fun i c =>
               PutUvarint (Z.of_nat i) ++
               cipherChunk (replicate 32 1) (Z.of_nat i) c)
            (chunks ChunkSize8K (contents (mkReader [[65; 66]; [67]] None)))) =
    merkle.mth
      (imap (fun i c =>
               PutUvarint (Z.of_nat i) ++
               cipherChunk (replicate 32 1) (Z.of_nat i) c)
            (chunks ChunkSize8K (contents (mkReader [[65; 66]; [67]] None)))) /\
    concat (chunks ChunkSize8K (contents (mkReader [[65; 66]; [67]] None))) =
      contents (mkReader [[65; 66]; [67]] None) /\
    (forall i c,
       chunks ChunkSize8K (contents (mkReader [[65; 66]; [67]] None)) !! i = Some c ->
       length (merkle.LeafHash (PutUvarint (Z.of_nat i) ++ c)) = 32%nat /\
       cipherChunk (replicate 32 1) (Z.of_nat i) c =
         zip_with Z.lxor c (keystream (replicate 32 1) (Z.of_nat i) (length c))).
Proof.
  split; [unfold ChunkSize8K; lia|]. split; [reflexivity|]. split; [reflexivity|].
  apply (Serve_stream_and_root ChunkSize8K (mkReader [[65; 66]; [67]] None)
           (replicate 32 1)); [unfold ChunkSize8K; lia | reflexivity | reflexivity].
Defined.

(** C9.  [Serve] is deterministic: two runs over the same contents (however
    each reader cuts them into pieces) with the same key make the same
    [Write] calls, hence emit the same byte stream, and return the same
    root. *)
Theorem Serve_deterministic (ChunkSize : nat) (r1 r2 : Reader) (key : bytes) :
  (0 < ChunkSize)%nat ->
  r_end r1 = None -> r_end r2 = None ->
  contents r1 = contents r2 ->
  exists (log : WriteLog) (root : bytes) (r1' r2' : Reader),
    Serve ChunkSize ([] : WriteLog) r1 key = Some (log, r1', Ok root) /\
    Serve ChunkSize ([] : WriteLog) r2 key = Some (log, r2', Ok root).
Proof.
  intros Hpos Hend1 Hend2 Hsame.
  destruct (Serve_spec ChunkSize r1 key Hpos Hend1) as (r1' & Hrun1).
  destruct (Serve_spec ChunkSize r2 key Hpos Hend2) as (r2' & Hrun2).
  rewrite <- Hsame in Hrun2.
  eexists _, _, r1', r2'. split; [exact Hrun1 | exact Hrun2].
Qed.

Lemma Serve_deterministic_witness :
  (0 < ChunkSize8K)%nat /\
  r_end (mkReader [[65; 66]; [67]] None) = None /\
  r_end (mkReader [[65]; []; [66; 67]] None) = None /\
  contents (mkReader [[65; 66]; [67]] None) =
    contents (mkReader [[65]; []; [66; 67]] None) /\
  exists (log : WriteLog) (root : bytes) (r1' r2' : Reader),
    Serve ChunkSize8K ([] : WriteLog) (mkReader [[65; 66]; [67]] None)
      (replicate 32 1) = Some (log, r1', Ok root) /\
    Serve ChunkSize8K ([] : WriteLog) (mkReader [[65]; []; [66; 67]] None)
      (replicate 32 1) = Some (log, r2', Ok root).
Proof.
  split; [unfold ChunkSize8K; lia|]. split; [reflexivity|]. split; [reflexivity|].
  split; [reflexivity|].
  apply (Serve_deterministic ChunkSize8K (mkReader [[65; 66]; [67]] None)
           (mkReader [[65]; []; [66; 67]] None) (replicate 32 1));
    [unfold ChunkSize8K; lia | reflexivity | reflexivity | reflexivity].
Defined.

(** C7, as stated, fails: for the empty file [Serve] returns the root of
    the tree without leaves, the hash of no input at all (e3b0c442...);
    the hash of the empty leaf, which carries the prefix byte of a leaf,
    is another value (6e340b9c...). *)
Lemma empty_root_is_not_a_leaf_hash :
  returned_root
    (Serve ChunkSize8K ([] : WriteLog) (mkReader [] None) (replicate 32 1))
    = Some (SHA256.sum []) /\
  merkle.root_of [] = SHA256.sum [] /\
  merkle.LeafHash [] =
    unhex "6e340b9cffb37a989ca544e6bb780a2c78901d3fb33738768511a30617afa01d" /\
  merkle.root_of [] <> merkle.LeafHash [].
Proof.
  split; [vm_compute; reflexivity|].
  split; [reflexivity|]. split; [vm_compute; reflexivity|].
  apply (bool_decide_eq_false_1 _). vm_compute. reflexivity.
Qed.

(** C7, amended.  For an input of length 0, [Serve] makes no [Write] call
    at all and returns the root of the tree without leaves, which is the
    SHA-256 hash of the empty input (e3b0c442...); it is not the hash of
    the empty leaf, the SHA-256 hash of the single byte 00 (6e340b9c...). *)
Theorem Serve_empty_file (ChunkSize : nat) (r : Reader) (key : bytes) :
  (0 < ChunkSize)%nat ->
  r_end r = None ->
  length (contents r) = 0%nat ->
  exists r',
    Serve ChunkSize ([] : WriteLog) r key = Some ([], r', Ok (SHA256.sum [])) /\
    SHA256.sum [] = merkle.root_of [] /\
    SHA256.sum [] =
      unhex "e3b0c44298fc1c149afbf4c8996fb92427ae41e4649b934ca495991b7852b855" /\
    merkle.LeafHash [] = SHA256.sum [0] /\
    merkle.LeafHash [] =
      unhex "6e340b9cffb37a989ca544e6bb780a2c78901d3fb33738768511a30617afa01d" /\
    SHA256.sum [] <> merkle.LeafHash [].
Proof.
  intros Hpos Hend Hlen.
  destruct (Serve_spec ChunkSize r key Hpos Hend) as (r' & Hserve).
  destruct (contents r) eqn:Hdata; [|discriminate].
  exists r'. split; [exact Hserve|]. split; [reflexivity|].
  split; [exact sha256_empty|]. split; [reflexivity|].
  split; [vm_compute; reflexivity|].
  apply (bool_decide_eq_false_1 _). vm_compute. reflexivity.
Qed.

Lemma Serve_empty_file_witness :
  (0 < ChunkSize8K)%nat /\
  r_end (mkReader [] None) = None /\
  length (contents (mkReader [] None)) = 0%nat /\
  exists r',
    Serve ChunkSize8K ([] : WriteLog) (mkReader [] None) (replicate 32 1) =
      Some ([], r', Ok (SHA256.sum [])) /\
    SHA256.sum [] = merkle.root_of [] /\
    SHA256.sum [] =
      unhex "e3b0c44298fc1c149afbf4c8996fb92427ae41e4649b934ca495991b7852b855" /\
    merkle.LeafHash [] = SHA256.sum [0] /\
    merkle.LeafHash [] =
      unhex "6e340b9cffb37a989ca544e6bb780a2c78901d3fb33738768511a30617afa01d" /\
    SHA256.sum [] <> merkle.LeafHash [].
Proof.
  split; [unfold ChunkSize8K; lia|]. split; [reflexivity|]. split; [reflexivity|].
  apply (Serve_empty_file ChunkSize8K (mkReader [] None) (replicate 32 1));
    [unfold ChunkSize8K; lia | reflexivity | reflexivity].
Defined.

Lemma length_cipherChunk (key : bytes) (i : Z) (chunk : bytes) :
  length (cipherChunk key i chunk) = length chunk.
Proof. apply (length_crypt key chunk i). Qed.

Lemma length_writes_from (key : bytes) (index : Z) (cs : list bytes) :
  length (writes_from key index cs) = (2 * length cs)%nat.
Proof.
  revert index. induction cs as [|c cs IH]; intros index; [reflexivity|].
  cbn [writes_from length]. rewrite IH. lia.
Qed.

Lemma writes_from_cipher_length (key : bytes) (index : Z) (cs : list bytes)
    (i : nat) (c : bytes) :
  cs !! i = Some c ->
  exists k, writes_from key index cs !! (2 * i + 1)%nat = Some k /\
            length k = length c.
Proof.
  revert index i. induction cs as [|c0 cs IH]; intros index i Hc;
    [discriminate|].
  destruct i as [|i].
  - simpl in Hc. injection Hc as ->.
    exists (cipherChunk key index c). split; [reflexivity|].
    apply length_cipherChunk.
  - simpl in Hc. destruct (IH (u64 (index + 1)) i Hc) as (k & Hk & Hlen).
    exists k. split; [|exact Hlen].
    replace (2 * S i + 1)%nat with (S (S (2 * i + 1))) by lia. exact Hk.
Qed.

(** A file of [ChunkSize + 5] bytes is two chunks. *)
Lemma chunks_short_last (ChunkSize : nat) (data : bytes) :
  (5 <= ChunkSize)%nat -> length data = (ChunkSize + 5)%nat ->
  chunks ChunkSize data = [take ChunkSize data; drop ChunkSize data].
Proof.
  intros Hsize Hlen. unfold chunks. rewrite Hlen.
  replace (ChunkSize + 5)%nat with (S (S (S (ChunkSize + 2)))) by lia.
  rewrite chunks_upto_cons by (destruct data; [simpl in Hlen; lia | discriminate]).
  assert (Hrest : length (drop ChunkSize data) = 5%nat)
    by (rewrite length_drop; lia).
  rewrite chunks_upto_cons
    by (destruct (drop ChunkSize data); [discriminate | discriminate]).
  rewrite (take_ge (drop ChunkSize data)) by lia.
  rewrite (drop_ge (drop ChunkSize data)) by lia.
  reflexivity.
Qed.

(** C6.  For an input of exactly [ChunkSize + 5] bytes (the chunk size being
    at least 5, as 8 KiB is), [Serve] emits exactly two records, four
    [Write] calls, and the last cipher chunk has exactly 5 bytes.  In
    general [io.ReadFull] reports [io.EOF] only with zero bytes read, and on
    a reader that ends in [io.EOF] only when nothing is left, so that the
    loop writes one record per chunk of the contents, the cipher chunk as
    long as the clear chunk, which is never empty, never longer than
    [ChunkSize], and shorter only where the contents end. *)
Theorem Serve_short_last_chunk (ChunkSize : nat) (r : Reader) (key : bytes) :
  (5 <= ChunkSize)%nat ->
  r_end r = None ->
  length (contents r) = (ChunkSize + 5)%nat ->
  (exists r' root,
     Serve ChunkSize ([] : WriteLog) r key =
       Some ([clearHash 0 (take ChunkSize (contents r));
              cipherChunk key 0 (take ChunkSize (contents r));
              clearHash 1 (drop ChunkSize (contents r));
              cipherChunk key 1 (drop ChunkSize (contents r))],
             r', Ok root) /\
     length (clearHash 0 (take ChunkSize (contents r))) = 32%nat /\
     length (cipherChunk key 0 (take ChunkSize (contents r))) = ChunkSize /\
     length (clearHash 1 (drop ChunkSize (contents r))) = 32%nat /\
     length (cipherChunk key 1 (drop ChunkSize (contents r))) = 5%nat) /\
  (forall r0 size d r0', ReadFull r0 size = (d, Some EOF, r0') -> d = []) /\
  (forall r0, r_end r0 = None ->
     ((ReadFull r0 ChunkSize).1.2 = Some EOF <-> contents r0 = [])) /\
  (forall r0 key0, r_end r0 = None ->
     exists (log : WriteLog) r0' root0,
       Serve ChunkSize ([] : WriteLog) r0 key0 = Some (log, r0', Ok root0) /\
       length log = (2 * length (chunks ChunkSize (contents r0)))%nat /\
       concat (chunks ChunkSize (contents r0)) = contents r0 /\
       Forall (fun c => (1 <= length c <= ChunkSize)%nat)
              (chunks ChunkSize (contents r0)) /\
       (forall i c, chunks ChunkSize (contents r0) !! i = Some c ->
          exists k, log !! (2 * i + 1)%nat = Some k /\ length k = length c)).
Proof.
  intros Hsize Hend Hlen.
  assert (Hpos : (0 < ChunkSize)%nat) by lia.
  split; [|split; [|split]].
  - destruct (Serve_spec ChunkSize r key Hpos Hend) as (r' & Hserve).
    rewrite (chunks_short_last ChunkSize (contents r) Hsize Hlen) in Hserve.
    eexists r', _. split; [exact Hserve|].
    unfold clearHash. rewrite !length_LeafHash, !length_cipherChunk.
    rewrite length_take, length_drop. lia.
  - intros r0 size d r0'. apply ReadFull_EOF.
  - intros r0 Hend0. apply ReadFull_EOF_iff; assumption.
  - intros r0 key0 Hend0.
    destruct (Serve_spec ChunkSize r0 key0 Hpos Hend0) as (r0' & Hserve).
    destruct (chunks_upto_concat ChunkSize (length (contents r0)) (contents r0))
      as [Hcat Hall]; [exact Hpos | lia |].
    eexists _, r0', _. split; [exact Hserve|].
    split; [apply length_writes_from|].
    split; [exact Hcat|]. split; [exact Hall|].
    intros i c Hc. apply writes_from_cipher_length. exact Hc.
Qed.

Lemma Serve_short_last_chunk_witness :
  (5 <= ChunkSize8K)%nat /\
  r_end (mkReader [replicate (ChunkSize8K + 5) 65] None) = None /\
  length (contents (mkReader [replicate (ChunkSize8K + 5) 65] None)) = (ChunkSize8K + 5)%nat /\
  (exists r' root,
     Serve ChunkSize8K ([] : WriteLog) (mkReader [replicate (ChunkSize8K + 5) 65] None)
       (replicate 32 1) =
       Some ([clearHash 0 (take ChunkSize8K (contents (mkReader [replicate (ChunkSize8K + 5) 65] None)));
              cipherChunk (replicate 32 1) 0 (take ChunkSize8K (contents (mkReader [replicate (ChunkSize8K + 5) 65] None)));
              clearHash 1 (drop ChunkSize8K (contents (mkReader [replicate (ChunkSize8K + 5) 65] None)));
              cipherChunk (replicate 32 1) 1 (drop ChunkSize8K (contents (mkReader [replicate (ChunkSize8K + 5) 65] None)))],
             r', Ok root) /\
     length (clearHash 0 (take ChunkSize8K (contents (mkReader [replicate (ChunkSize8K + 5) 65] None)))) = 32%nat /\
     length (cipherChunk (replicate 32 1) 0 (take ChunkSize8K (contents (mkReader [replicate (ChunkSize8K + 5) 65] None)))) = ChunkSize8K /\
     length (clearHash 1 (drop ChunkSize8K (contents (mkReader [replicate (ChunkSize8K + 5) 65] None)))) = 32%nat /\
     length (cipherChunk (replicate 32 1) 1 (drop ChunkSize8K (contents (mkReader [replicate (ChunkSize8K + 5) 65] None)))) = 5%nat) /\
  (forall r0 size d r0', ReadFull r0 size = (d, Some EOF, r0') -> d = []) /\
  (forall r0, r_end r0 = None ->
     ((ReadFull r0 ChunkSize8K).1.2 = Some EOF <-> contents r0 = [])) /\
  (forall r0 key0, r_end r0 = None ->
     exists (log : WriteLog) r0' root0,
       Serve ChunkSize8K ([] : WriteLog) r0 key0 = Some (log, r0', Ok root0) /\
       length log = (2 * length (chunks ChunkSize8K (contents r0)))%nat /\
       concat (chunks ChunkSize8K (contents r0)) = contents r0 /\
       Forall (fun c => (1 <= length c <= ChunkSize8K)%nat)
              (chunks ChunkSize8K (contents r0)) /\
       (forall i c, chunks ChunkSize8K (contents r0) !! i = Some c ->
          exists k, log !! (2 * i + 1)%nat = Some k /\ length k = length c)).
Proof.
  split; [unfold ChunkSize8K; lia|]. split; [reflexivity|].
  split; [vm_compute; reflexivity|].
  apply (Serve_short_last_chunk ChunkSize8K
           (mkReader [replicate (ChunkSize8K + 5) 65] None) (replicate 32 1));
    [unfold ChunkSize8K; lia | reflexivity | vm_compute; reflexivity].
Defined.

(** C1, as stated, fails: [Serve] has one tree and one return value.  On the
    one-byte file "A" the value it returns is not the root of the clear
    tree, so it does not return both roots. *)
Lemma Serve_returns_no_clear_root :
  ~ (returns_root
       (Serve ChunkSize8K ([] : WriteLog) (mkReader [[65]] None)
          (replicate 32 1))
       (cipherRoot ChunkSize8K (replicate 32 1) [65]) /\
     returns_root
       (Serve ChunkSize8K ([] : WriteLog) (mkReader [[65]] None)
          (replicate 32 1))
       (clearRoot ChunkSize8K [65])).
Proof.
  intros [_ (w & r & Hrun)].
  assert (Hne : returned_root
                  (Serve ChunkSize8K ([] : WriteLog) (mkReader [[65]] None)
                     (replicate 32 1)) <> Some (clearRoot ChunkSize8K [65])).
  { apply (bool_decide_eq_false_1 _). vm_compute. reflexivity. }
  apply Hne. rewrite Hrun. reflexivity.
Qed.

(** C1, amended.  For every reader that ends in [io.EOF] and every key,
    [Serve] builds the cipher Merkle tree only and returns its root, the
    cipher root, as its single result; each per-chunk clear hash is written
    to the output, in front of its cipher chunk, and enters no tree. *)
Theorem Serve_returns_cipher_root (ChunkSize : nat) (r : Reader) (key : bytes) :
  (0 < ChunkSize)%nat ->
  r_end r = None ->
  Z.of_nat (length (contents r)) < 2 ^ 64 ->
  returns_root (Serve ChunkSize ([] : WriteLog) r key)
    (cipherRoot ChunkSize key (contents r)) /\
  (forall root,
     returns_root (Serve ChunkSize ([] : WriteLog) r key) root ->
     root = cipherRoot ChunkSize key (contents r)) /\
  (exists (log : WriteLog) r' root,
     Serve ChunkSize ([] : WriteLog) r key = Some (log, r', Ok root) /\
     forall i c, chunks ChunkSize (contents r) !! i = Some c ->
       log !! (2 * i)%nat = Some (clearHash (Z.of_nat i) c) /\
       log !! (2 * i + 1)%nat = Some (cipherChunk key (Z.of_nat i) c)).
Proof.
  intros Hpos Hend Hsize.
  destruct (Serve_imap ChunkSize r key Hpos Hend Hsize) as (r' & Hserve).
  pose proof (length_chunks ChunkSize (contents r)) as Hlen.
  split; [|split].
  - eexists _, r'. exact Hserve.
  - intros root (w & r0 & Hrun). rewrite Hserve in Hrun. congruence.
  - eexists _, r', _. split; [exact Hserve|].
    intros i c Hc.
    destruct (writes_from_lookup key (chunks ChunkSize (contents r)) i c 0)
      as [Hh Hk]; [lia | lia | exact Hc |].
    rewrite Z.add_0_l in Hh, Hk. split; assumption.
Qed.

Lemma Serve_returns_cipher_root_witness :
  (0 < ChunkSize8K)%nat /\
  r_end (mkReader [[65]] None) = None /\
  Z.of_nat (length (contents (mkReader [[65]] None))) < 2 ^ 64 /\
  returns_root
    (Serve ChunkSize8K ([] : WriteLog) (mkReader [[65]] None) (replicate 32 1))
    (cipherRoot ChunkSize8K (replicate 32 1) (contents (mkReader [[65]] None))) /\
  (forall root,
     returns_root
       (Serve ChunkSize8K ([] : WriteLog) (mkReader [[65]] None)
          (replicate 32 1)) root ->
     root = cipherRoot ChunkSize8K (replicate 32 1)
              (contents (mkReader [[65]] None))) /\
  (exists (log : WriteLog) r' root,
     Serve ChunkSize8K ([] : WriteLog) (mkReader [[65]] None) (replicate 32 1) =
       Some (log, r', Ok root) /\
     forall i c,
       chunks ChunkSize8K (contents (mkReader [[65]] None)) !! i = Some c ->
       log !! (2 * i)%nat = Some (clearHash (Z.of_nat i) c) /\
       log !! (2 * i + 1)%nat =
         Some (cipherChunk (replicate 32 1) (Z.of_nat i) c)).
Proof.
  split; [unfold ChunkSize8K; lia|]. split; [reflexivity|].
  split; [reflexivity|].
  apply (Serve_returns_cipher_root ChunkSize8K (mkReader [[65]] None)
           (replicate 32 1)); [unfold ChunkSize8K; lia | reflexivity | reflexivity].
Defined.

(** * Varints decode what they encode *)

(** A property of bytes holds when it holds of the 256 bytes. *)
Lemma byte_cases (P : Z -> bool) :
  forallb P (map Z.of_nat (seq 0 256)) = true ->
  forall b, 0 <= b < 256 -> P b = true.
Proof.
  intros Hall b Hb. rewrite forallb_forall in Hall. apply Hall.
  apply in_map_iff. exists (Z.to_nat b). split; [lia|].
  apply in_seq. lia.
Qed.

Lemma continuation_byte (x : Z) :
  0 <= x ->
  (Z.lor (u8 x) 0x80 <? 0x80) = false /\
  Z.land (Z.lor (u8 x) 0x80) 0x7f = x mod 128.
Proof.
  intros Hx. unfold u8.
  assert (Hb : 0 <= x mod 256 < 256) by (apply Z.mod_pos_bound; lia).
  pose proof (byte_cases
    (fun b => negb (Z.lor b 0x80 <? 0x80) &&
              (Z.land (Z.lor b 0x80) 0x7f =? b mod 128))
    eq_refl (x mod 256) Hb) as Hcase.
  apply andb_true_iff in Hcase as [Hge Hland].
  apply negb_true_iff in Hge. apply Z.eqb_eq in Hland.
  split; [exact Hge|]. rewrite Hland.
  apply Z.mod_mod_divide. exists 2. reflexivity.
Qed.

(** Bits that do not overlap add up. *)
Lemma lor_shifted (acc y s : Z) :
  0 <= s -> 0 <= acc < 2 ^ s -> 0 <= y ->
  Z.lor acc (y * 2 ^ s) = acc + y * 2 ^ s.
Proof.
  intros Hs Hacc Hy.
  rewrite <- Z.lxor_lor, <- Z.add_nocarry_lxor; try reflexivity.
  all: apply Z.bits_inj'; intros n Hn; rewrite Z.land_spec, Z.bits_0.
  all: destruct (Z.lt_ge_cases n s) as [Hlow | Hhigh].
  all: try (rewrite Z.mul_pow2_bits_low by lia; apply andb_false_r).
  all: rewrite <- (Z.mod_small acc (2 ^ s)) by lia.
  all: rewrite Z.mod_pow2_bits_high by lia; reflexivity.
Qed.

Lemma uvarint_putUvarint (fuel i : nat) (x acc : Z) :
  (fuel + i = 9)%nat ->
  0 <= x < 2 ^ (64 - 7 * Z.of_nat i) ->
  0 <= acc < 2 ^ (7 * Z.of_nat i) ->
  uvarint (putUvarint fuel x) i acc (7 * Z.of_nat i) =
    (acc + x * 2 ^ (7 * Z.of_nat i),
     Z.of_nat i + Z.of_nat (length (putUvarint fuel x))).
Proof.
  revert i x acc. induction fuel as [|fuel IH]; intros i x acc Hi Hx Hacc.
  - assert (i = 9%nat) by lia. subst i.
    change (64 - 7 * Z.of_nat 9) with 1 in Hx.
    change (2 ^ 1) with 2 in Hx.
    cbn [putUvarint uvarint length].
    unfold u8. rewrite (Z.mod_small x 256) by lia.
    change (9 =? MaxVarintLen64)%nat with false.
    change (9 =? MaxVarintLen64 - 1)%nat with true.
    replace (x <? 128) with true by (symmetry; apply Z.ltb_lt; lia).
    replace (1 <? x) with false by (symmetry; apply Z.ltb_ge; lia).
    cbn [andb]. unfold u64.
    rewrite Z.shiftl_mul_pow2 by lia.
    rewrite (Z.mod_small (x * 2 ^ _)) by (change (7 * Z.of_nat 9) with 63; nia).
    rewrite lor_shifted by lia. reflexivity.
  - assert (Hi' : (i <= 8)%nat) by lia.
    assert (Hs : 0 <= 7 * Z.of_nat i <= 56) by lia.
    assert (Hpow : 2 ^ (64 - 7 * Z.of_nat i) * 2 ^ (7 * Z.of_nat i) = 2 ^ 64)
      by (rewrite <- Z.pow_add_r by lia; f_equal; lia).
    assert (Hpos : 0 < 2 ^ (7 * Z.of_nat i)) by (apply Z.pow_pos_nonneg; lia).
    cbn [putUvarint]. destruct (128 <=? x) eqn:Hbig.
    + apply Z.leb_le in Hbig.
      destruct (continuation_byte x) as [Hcont Hlow]; [lia|].
      cbn [uvarint length].
      replace (i =? MaxVarintLen64)%nat with false
        by (symmetry; apply Nat.eqb_neq; unfold MaxVarintLen64; lia).
      rewrite Hcont, Hlow.
      assert (Hlow7 : 0 <= x mod 128 < 128) by (apply Z.mod_pos_bound; lia).
      unfold u64 at 1.
      rewrite (Z.shiftl_mul_pow2 (x mod 128)) by lia.
      rewrite (Z.mod_small (x mod 128 * 2 ^ _)) by nia.
      rewrite lor_shifted by lia.
      replace (7 * Z.of_nat i + 7) with (7 * Z.of_nat (S i)) by lia.
      assert (Hstep : 2 ^ (7 * Z.of_nat (S i)) = 128 * 2 ^ (7 * Z.of_nat i)).
      { replace (7 * Z.of_nat (S i)) with (7 + 7 * Z.of_nat i) by lia.
        rewrite Z.pow_add_r by lia. reflexivity. }
      assert (Hrest : 2 ^ (64 - 7 * Z.of_nat i) =
                      128 * 2 ^ (64 - 7 * Z.of_nat (S i))).
      { replace (64 - 7 * Z.of_nat i) with (7 + (64 - 7 * Z.of_nat (S i))) by lia.
        rewrite Z.pow_add_r by lia. reflexivity. }
      rewrite IH.
      * rewrite Z.shiftr_div_pow2 by lia. change (2 ^ 7) with 128.
        rewrite Hstep. f_equal; [|lia].
        pose proof (Z.div_mod x 128). nia.
      * lia.
      * rewrite Z.shiftr_div_pow2 by lia. change (2 ^ 7) with 128.
        split; [apply Z.div_pos; lia|].
        apply Z.div_lt_upper_bound; lia.
      * rewrite Hstep. nia.
    + apply Z.leb_gt in Hbig.
      cbn [uvarint length].
      replace (i =? MaxVarintLen64)%nat with false
        by (symmetry; apply Nat.eqb_neq; unfold MaxVarintLen64; lia).
      replace (i =? MaxVarintLen64 - 1)%nat with false
        by (symmetry; apply Nat.eqb_neq; unfold MaxVarintLen64; lia).
      unfold u8. rewrite (Z.mod_small x 256) by lia.
      replace (x <? 128) with true by (symmetry; apply Z.ltb_lt; lia).
      cbn [andb]. unfold u64.
      rewrite Z.shiftl_mul_pow2 by lia.
      rewrite (Z.mod_small (x * 2 ^ _)) by nia.
      rewrite lor_shifted by lia. f_equal.
Qed.

(** [Uvarint] reads back what [PutUvarint] wrote, and says how many bytes. *)
Lemma Uvarint_PutUvarint (x : Z) :
  0 <= x < 2 ^ 64 ->
  Uvarint (PutUvarint x) = (x, Z.of_nat (length (PutUvarint x))).
Proof.
  intros Hx. unfold Uvarint, PutUvarint.
  pose proof (uvarint_putUvarint 9 0 x 0) as Hrt.
  change (7 * Z.of_nat 0) with 0 in Hrt.
  rewrite Hrt; [f_equal; lia | reflexivity | simpl; lia | simpl; lia].
Qed.

Lemma u64_range (x : Z) : 0 <= u64 x < 2 ^ 64.
Proof. unfold u64. apply Z.mod_pos_bound. lia. Qed.

Lemma land_1 (z : Z) : Z.land z 1 = z mod 2.
Proof. apply (Z.land_ones z 1). lia. Qed.

(** The zig-zag code of an [int64]. *)
Lemma zigzag_decode (x : Z) :
  - 2 ^ 63 <= x < 2 ^ 63 ->
  let ux := u64 (Z.shiftl (u64 x) 1) in
  let zz := if x <? 0 then u64 (Z.lnot ux) else ux in
  (if Z.land zz 1 =? 0 then i64 (Z.shiftr zz 1)
   else i64 (Z.lnot (i64 (Z.shiftr zz 1)))) = x.
Proof.
  intros Hx. cbv zeta.
  rewrite !land_1.
  rewrite !Z.shiftr_div_pow2, !Z.shiftl_mul_pow2 by lia.
  change (2 ^ 1) with 2.
  unfold Z.lnot, Z.pred, u64, i64.
  change (2 ^ 64) with 18446744073709551616 in *.
  change (2 ^ 63) with 9223372036854775808 in *.
  destruct (x <? 0) eqn:Hneg;
    [apply Z.ltb_lt in Hneg | apply Z.ltb_ge in Hneg];
    match goal with
    | |- (if ?c then _ else _) = _ => destruct c eqn:Hc
    end;
    [apply Z.eqb_eq in Hc | apply Z.eqb_neq in Hc
    | apply Z.eqb_eq in Hc | apply Z.eqb_neq in Hc];
    Z.div_mod_to_equations; lia.
Qed.

(** [Varint] reads back what [PutVarint] wrote. *)
Lemma Varint_PutVarint (x : Z) :
  - 2 ^ 63 <= x < 2 ^ 63 ->
  Varint (PutVarint x) = (x, Z.of_nat (length (PutVarint x))).
Proof.
  intros Hx. unfold Varint, PutVarint.
  rewrite Uvarint_PutUvarint by (destruct (x <? 0); apply u64_range).
  f_equal. apply (zigzag_decode x Hx).
Qed.

(** Whatever [PutVarint] wrote, [Varint] reads a whole number of bytes. *)
Lemma Varint_PutVarint_read (x : Z) : 1 <= (Varint (PutVarint x)).2.
Proof.
  unfold Varint, PutVarint.
  rewrite Uvarint_PutUvarint by (destruct (x <? 0); apply u64_range).
  simpl. pose proof (length_PutUvarint
    (if x <? 0 then u64 (Z.lnot (u64 (Z.shiftl (u64 x) 1)))
     else u64 (Z.shiftl (u64 x) 1))). lia.
Qed.

(** ** The millisecond clock *)

Lemma Millis_range (t : Z) : 0 <= Millis t < 2 ^ 64.
Proof.
  unfold Millis, Millisecond. pose proof (u64_range (UnixNano t)) as Hu.
  split; [apply Z.div_pos; lia|].
  apply Z.div_lt_upper_bound; lia.
Qed.

(** From the epoch to the end of the [int64] nanoseconds (the year 2262),
    storing milliseconds truncates to the millisecond. *)
Lemma FromMillis_Millis (t : Z) :
  0 <= t < 2 ^ 63 -> FromMillis (Millis t) = Truncate_ms t.
Proof.
  intros Ht. unfold FromMillis, Millis, Truncate_ms, UnixNano, Millisecond.
  assert (Hi : i64 t = t) by (unfold i64; rewrite Z.mod_small; lia).
  rewrite Hi, (u64_small t) by lia.
  pose proof (Z.div_mod t 1000000 ltac:(lia)) as Hdm.
  pose proof (Z.mod_pos_bound t 1000000 ltac:(lia)) as Hmod.
  assert (Hq : 0 <= t / 1000000 <= t) by (split; [apply Z.div_pos; lia | nia]).
  assert (Hi2 : i64 (t / 1000000) = t / 1000000)
    by (unfold i64; rewrite Z.mod_small; lia).
  rewrite Hi2. unfold i64. rewrite Z.mod_small by lia. lia.
Qed.

(** * The record store *)

(** What a successful [storeRecord] leaves in the bucket of the transfer. *)
Lemma storeRecord_written (db db' : DB) (rec : serverRecord) :
  storeRecord db rec = Ok db' ->
  exists bu,
    db' = Records (<[transferID rec := bu]> (records_of db)) /\
    Get bu "amount" = PutVarint (Amount rec) /\
    Get bu "assetID" = AssetID rec /\
    Get bu "clearRoot" = ClearRoot rec /\
    Get bu "cipherRoot" = CipherRoot rec /\
    Get bu "revealDeadlineMS" = PutUvarint (Millis (RevealDeadline rec)) /\
    Get bu "refundDeadlineMS" = PutUvarint (Millis (RefundDeadline rec)) /\
    Get bu "key" = Key rec.
Proof.
  intros Hstore. unfold storeRecord, Put in Hstore.
  repeat match type of Hstore with
         | context [if ?c then _ else _] =>
             destruct c; [discriminate|]; cbn [wrap mbind result_bind] in Hstore
         end.
  injection Hstore as <-.
  eexists. split; [reflexivity|].
  unfold Get. repeat split; by simplify_map_eq.
Qed.

(** A bucket written by [storeRecord] is read by [getRecord] without error. *)
Lemma getRecord_bucket (m : gmap (list Z) (gmap string (list Z)))
    (id : bytes) (bu : gmap string (list Z)) (a rv rf : Z) :
  m !! id = Some bu ->
  Get bu "amount" = PutVarint a ->
  Get bu "revealDeadlineMS" = PutUvarint (Millis rv) ->
  Get bu "refundDeadlineMS" = PutUvarint (Millis rf) ->
  getRecord (Records m) id =
    Ok {| Amount := (Varint (PutVarint a)).1;
          AssetID := Get bu "assetID";
          Anchor1 := [];
          Anchor2 := [];
          ClearRoot := Get bu "clearRoot";
          CipherRoot := Get bu "cipherRoot";
          RevealDeadline := FromMillis (Millis rv);
          RefundDeadline := FromMillis (Millis rf);
          Buyer := [];
          Seller := [];
          Key := Get bu "key";
          OutputID := [];
          transferID := copy32 id |}.
Proof.
  intros Hbu Ha Hrv Hrf. unfold getRecord. rewrite Hbu, Ha, Hrv, Hrf.
  pose proof (Varint_PutVarint_read a) as Hn.
  destruct (Varint (PutVarint a)) as [amount n]. simpl in Hn.
  replace (n <? 1) with false by (symmetry; apply Z.ltb_ge; lia).
  rewrite !Uvarint_PutUvarint by apply Millis_range.
  pose proof (length_PutUvarint (Millis rv)).
  pose proof (length_PutUvarint (Millis rf)).
  replace (Z.of_nat (length (PutUvarint (Millis rv))) <? 1) with false
    by (symmetry; apply Z.ltb_ge; lia).
  replace (Z.of_nat (length (PutUvarint (Millis rf))) <? 1) with false
    by (symmetry; apply Z.ltb_ge; lia).
  reflexivity.
Qed.

(** C10, as stated, fails for a deadline outside the range that [uint64]
    milliseconds can hold.  The handler turns the request's
    "refunddeadline=9223372036855" into the deadline below (which lies
    before the epoch, [int64] nanoseconds having wrapped); stored and
    loaded, it comes back as it was, not truncated to the millisecond. *)
Lemma getRecord_deadline_not_truncated :
  FromMillis 9223372036855 = -9223372036854551616 /\
  ok_or 0
    (rec' ← store_then_get NoRoot
              (mkRecord 5 [0] [] [] [171] [] 1600001200000000000
                 (-9223372036854551616) [] [7] (replicate 32 1) []
                 (replicate 32 2));
     Ok (RefundDeadline rec')) = -9223372036854551616 /\
  Truncate_ms (-9223372036854551616) = -9223372036855000000 /\
  ok_or 0
    (rec' ← store_then_get NoRoot
              (mkRecord 5 [0] [] [] [171] [] 1600001200000000000
                 (-9223372036854551616) [] [7] (replicate 32 1) []
                 (replicate 32 2));
     Ok (RefundDeadline rec')) <> Truncate_ms (-9223372036854551616).
Proof.
  split; [vm_compute; reflexivity|].
  split; [vm_compute; reflexivity|].
  split; [vm_compute; reflexivity|].
  apply (bool_decide_eq_false_1 _). vm_compute. reflexivity.
Qed.

(** C10, amended.  For every record written by [storeRecord] (its amount an
    [int64]), [getRecord] with the same transfer ID returns a record with
    the same amount, asset ID, clear root, cipher root and key; each
    deadline comes back as [FromMillis (Millis t)], which is the stored
    deadline truncated to the millisecond whenever that deadline lies at or
    after the Unix epoch and fewer than [2^63] nanoseconds after it. *)
Theorem getRecord_storeRecord (db db' : DB) (rec : serverRecord) :
  storeRecord db rec = Ok db' ->
  - 2 ^ 63 <= Amount rec < 2 ^ 63 ->
  exists rec',
    getRecord db' (transferID rec) = Ok rec' /\
    Amount rec' = Amount rec /\
    AssetID rec' = AssetID rec /\
    ClearRoot rec' = ClearRoot rec /\
    CipherRoot rec' = CipherRoot rec /\
    Key rec' = Key rec /\
    RevealDeadline rec' = FromMillis (Millis (RevealDeadline rec)) /\
    RefundDeadline rec' = FromMillis (Millis (RefundDeadline rec)) /\
    (0 <= RevealDeadline rec < 2 ^ 63 ->
     RevealDeadline rec' = Truncate_ms (RevealDeadline rec)) /\
    (0 <= RefundDeadline rec < 2 ^ 63 ->
     RefundDeadline rec' = Truncate_ms (RefundDeadline rec)).
Proof.
  intros Hstore Hamount.
  destruct (storeRecord_written db db' rec Hstore)
    as (bu & -> & Ha & Hasset & Hclear & Hcipher & Hrv & Hrf & Hkey).
  eexists. split.
  - apply (getRecord_bucket _ _ bu (Amount rec) (RevealDeadline rec)
             (RefundDeadline rec)); [apply lookup_insert_eq | assumption..].
  - cbn [Amount AssetID ClearRoot CipherRoot Key RevealDeadline RefundDeadline].
    rewrite Varint_PutVarint by exact Hamount.
    repeat split; try assumption; intros Hrange;
      apply FromMillis_Millis; exact Hrange.
Qed.

Lemma getRecord_storeRecord_witness :
  storeRecord NoRoot
    sample_record =
  Ok (ok_or NoRoot
        (storeRecord NoRoot
           sample_record)) /\
  - 2 ^ 63 <= 5 < 2 ^ 63 /\
  exists rec',
    getRecord
      (ok_or NoRoot
         (storeRecord NoRoot
            sample_record))
      (replicate 32 2) = Ok rec' /\
    Amount rec' = 5 /\
    AssetID rec' = [0] /\
    ClearRoot rec' = [171] /\
    CipherRoot rec' = [] /\
    Key rec' = replicate 32 1 /\
    RevealDeadline rec' = FromMillis (Millis 1600001200000000123) /\
    RefundDeadline rec' = FromMillis (Millis 1600003000000000456) /\
    (0 <= 1600001200000000123 < 2 ^ 63 ->
     RevealDeadline rec' = Truncate_ms 1600001200000000123) /\
    (0 <= 1600003000000000456 < 2 ^ 63 ->
     RefundDeadline rec' = Truncate_ms 1600003000000000456).
Proof.
  split; [vm_compute; reflexivity|]. split; [lia|].
  apply (getRecord_storeRecord NoRoot _
           sample_record); [vm_compute; reflexivity | simpl; lia].
Defined.

(** * Start-up: the deadline queue is rebuilt from the store *)

Lemma elem_of_enqueue (q : list (Z * Action)) (dueAt : Z) (a : Action)
    (e : Z * Action) :
  e ∈ enqueue q dueAt a <-> e = (dueAt, a) \/ e ∈ q.
Proof.
  induction q as [|[t b] q IH]; simpl.
  - rewrite list_elem_of_singleton. split; [left; assumption|].
    intros [He | He]; [exact He | inversion He].
  - destruct (dueAt <? t).
    + apply elem_of_cons.
    + rewrite !elem_of_cons, IH. tauto.
Qed.

(** The queue stays ordered by due time. *)
Lemma enqueue_sorted (q : list (Z * Action)) (dueAt : Z) (a : Action) :
  Sorted (fun x y => x.1 <= y.1) q ->
  Sorted (fun x y => x.1 <= y.1) (enqueue q dueAt a).
Proof.
  induction q as [|[t b] q IH]; intros Hsorted; simpl.
  - repeat constructor.
  - destruct (dueAt <? t) eqn:Hlt.
    + apply Z.ltb_lt in Hlt. constructor; [exact Hsorted|].
      constructor. simpl. lia.
    + apply Z.ltb_ge in Hlt. inversion Hsorted as [|? ? Htail Hhd]; subst.
      constructor; [apply IH; exact Htail|].
      destruct q as [|[t' b'] q']; simpl.
      * constructor. simpl. lia.
      * destruct (dueAt <? t'); constructor; simpl; [lia|].
        inversion Hhd; subst. assumption.
Qed.

Lemma Stored_written (db : DB) :
  Stored db ->
  forall id bu, records_of db !! id = Some bu -> written bu.
Proof.
  induction 1 as [|db db' rec _ IH Hstore|db id0 _ IH]; intros id bu Hbu.
  - simpl in Hbu. rewrite lookup_empty in Hbu. discriminate.
  - destruct (storeRecord_written db db' rec Hstore)
      as (bu' & -> & Ha & _ & _ & _ & Hrv & Hrf & _).
    simpl in Hbu. destruct (decide (transferID rec = id)) as [<- | Hne].
    + rewrite lookup_insert_eq in Hbu. injection Hbu as <-.
      exists (Amount rec), (RevealDeadline rec), (RefundDeadline rec).
      repeat split; assumption.
    + rewrite lookup_insert_ne in Hbu by exact Hne. eapply IH; eassumption.
  - simpl in Hbu. apply lookup_delete_Some in Hbu as [_ Hbu].
    eapply IH; eassumption.
Qed.

Lemma getRecord_written (db : DB) (id : bytes) (bu : gmap string (list Z)) :
  records_of db !! id = Some bu -> written bu ->
  exists rec,
    getRecord db id = Ok rec /\
    RefundDeadline rec = recorded_refundDeadline bu.
Proof.
  intros Hbu (a & rv & rf & Ha & Hrv & Hrf).
  destruct db as [| |m]; simpl in Hbu;
    [rewrite lookup_empty in Hbu; discriminate
    |rewrite lookup_empty in Hbu; discriminate|].
  eexists. split.
  - apply (getRecord_bucket m id bu a rv rf); assumption.
  - simpl. unfold recorded_refundDeadline.
    rewrite Hrf, Uvarint_PutUvarint by apply Millis_range. reflexivity.
Qed.

Lemma queue_all_spec (ids : list bytes) (s : server) :
  (forall id, id ∈ ids -> exists rec, getRecord (db s) id = Ok rec) ->
  exists s',
    queue_all s ids = Ok s' /\
    db s' = db s /\ seller s' = seller s /\
    (forall e, e ∈ o s -> e ∈ o s') /\
    (forall id, id ∈ ids ->
       exists rec, getRecord (db s) id = Ok rec /\
                   (RefundDeadline rec, ClaimPaymentAction rec (seller s)) ∈ o s').
Proof.
  revert s. induction ids as [|id ids IH]; intros s Hread.
  - exists s. repeat split; [|intros id Hin; inversion Hin]. auto.
  - destruct (Hread id) as (rec & Hrec); [left|].
    cbn [queue_all]. unfold queueClaimPayment. rewrite Hrec.
    cbn [mbind result_bind].
    destruct (IH (queueClaimPaymentHelper s rec)) as
      (s' & Hall & Hdb & Hseller & Hkeep & Hqueued).
    { intros id' Hin. apply Hread. right. exact Hin. }
    exists s'. split; [exact Hall|]. simpl in Hdb, Hseller.
    split; [exact Hdb|]. split; [exact Hseller|]. split.
    + intros e He. apply Hkeep. simpl. apply elem_of_enqueue. right. exact He.
    + intros id' Hin. apply elem_of_cons in Hin as [-> | Hin].
      * exists rec. split; [exact Hrec|].
        apply Hkeep. simpl. apply elem_of_enqueue. left. reflexivity.
      * destruct (Hqueued id' Hin) as (rec' & Hrec' & Hin').
        exists rec'. split; assumption.
Qed.

Lemma elem_of_persisted (db : DB) (id : bytes) :
  id ∈ persisted db <-> exists bu, records_of db !! id = Some bu.
Proof.
  unfold persisted. rewrite list_elem_of_fmap. split.
  - intros ([id' bu] & -> & Hin). exists bu.
    apply elem_of_map_to_list in Hin. exact Hin.
  - intros (bu & Hbu). exists (id, bu). split; [reflexivity|].
    apply elem_of_map_to_list. exact Hbu.
Qed.

(** C8.  On start-up, over any store this daemon produced, [serve] does not
    stop on an error, and for every transfer record persisted in the store
    a claim-payment action for that record is in the deadline queue, due
    at the refund deadline recorded in the store. *)
Theorem serve_requeues_claims (database : DB) (content : bytes -> Content)
    (pub : bytes) :
  Stored database ->
  exists s,
    serve database content pub = Ok s /\
    forall id bu, records_of database !! id = Some bu ->
      exists rec,
        getRecord database id = Ok rec /\
        RefundDeadline rec = recorded_refundDeadline bu /\
        (recorded_refundDeadline bu, ClaimPaymentAction rec pub) ∈ o s.
Proof.
  intros Hstored. unfold serve.
  destruct (queue_all_spec (persisted database)
              (mkServer database content pub [])) as
    (s & Hall & _ & _ & _ & Hqueued).
  { intros id Hin. apply elem_of_persisted in Hin as (bu & Hbu).
    destruct (getRecord_written database id bu Hbu) as (rec & Hrec & _);
      [eapply Stored_written; eassumption|].
    exists rec. exact Hrec. }
  exists s. split; [exact Hall|].
  intros id bu Hbu.
  destruct (Hqueued id) as (rec & Hrec & Hin);
    [apply elem_of_persisted; exists bu; exact Hbu|].
  destruct (getRecord_written database id bu Hbu) as (rec' & Hrec' & Hdue);
    [eapply Stored_written; eassumption|].
  simpl in Hrec, Hin. rewrite Hrec in Hrec'. injection Hrec' as <-.
  exists rec. split; [exact Hrec|]. split; [exact Hdue|].
  rewrite <- Hdue. exact Hin.
Qed.

Lemma serve_requeues_claims_witness :
  Stored (ok_or NoRoot (storeRecord NoRoot sample_record)) /\
  exists s,
    serve (ok_or NoRoot (storeRecord NoRoot sample_record)) sample_content [7]
      = Ok s /\
    forall id bu,
      records_of (ok_or NoRoot (storeRecord NoRoot sample_record)) !! id
        = Some bu ->
      exists rec,
        getRecord (ok_or NoRoot (storeRecord NoRoot sample_record)) id
          = Ok rec /\
        RefundDeadline rec = recorded_refundDeadline bu /\
        (recorded_refundDeadline bu, ClaimPaymentAction rec [7]) ∈ o s.
Proof.
  assert (Hstored : Stored (ok_or NoRoot (storeRecord NoRoot sample_record))).
  { apply (Stored_store NoRoot _ sample_record Stored_fresh).
    vm_compute. reflexivity. }
  split; [exact Hstored|].
  apply (serve_requeues_claims
           (ok_or NoRoot (storeRecord NoRoot sample_record))
           sample_content [7] Hstored).
Defined.

(** The sample store holds one record, and start-up queues its claim at
    the recorded deadline, 2020-09-13 13:16:40 UTC. *)
Example serve_sample :
  (fun s => (fun e => e.1) <$> o s) <$>
    (match serve (ok_or NoRoot (storeRecord NoRoot sample_record))
             sample_content [7] with
     | Ok s => Some s
     | Err _ => None
     end) = Some [1600003000000000000].
Proof. vm_compute. reflexivity. Qed.

(** * The request handler *)

Lemma digit_range (c : ascii) (d : Z) : digit c = Some d -> 0 <= d <= 9.
Proof.
  unfold digit. intros Hd.
  destruct (_ && _) eqn:Hc; [|discriminate Hd]. injection Hd as <-.
  apply andb_true_iff in Hc as [H1 H2].
  apply Z.leb_le in H1. apply Z.leb_le in H2. lia.
Qed.

Lemma digits_nonneg (s : string) (acc n : Z) :
  digits s acc = Some n -> 0 <= acc -> 0 <= n.
Proof.
  revert acc. induction s as [|c s IH]; intros acc Hd Hacc; simpl in Hd.
  - injection Hd as <-. exact Hacc.
  - destruct (digit c) as [d|] eqn:Hc; [|discriminate Hd].
    apply digit_range in Hc. apply (IH _ Hd). lia.
Qed.

(** [strconv.ParseUint(s, 10, 64)] returns a [uint64]. *)
Lemma ParseUint_range (s : string) (n : Z) :
  ParseUint s = Some n -> 0 <= n < 2 ^ 64.
Proof.
  unfold ParseUint. intros Hp. destruct s as [|c rest]; [discriminate Hp|].
  destruct (digits (String c rest) 0) as [m|] eqn:Hm; [|discriminate Hp].
  apply digits_nonneg in Hm; [|lia].
  destruct (m <? 2 ^ 64) eqn:Hlt; [|discriminate Hp].
  injection Hp as <-. apply Z.ltb_lt in Hlt. lia.
Qed.

(** Up to [MaxMillis], [bc.FromMillis] does not wrap around. *)
Lemma FromMillis_small (ms : Z) :
  0 <= ms <= MaxMillis -> FromMillis ms = ms * Millisecond.
Proof.
  unfold MaxMillis, Millisecond, FromMillis, i64.
  change ((2 ^ 63 - 1) / 1000000) with 9223372036854.
  change (2 ^ 63) with 9223372036854775808.
  change (2 ^ 64) with 18446744073709551616.
  intros Hms.
  rewrite (Z.mod_small (ms + 9223372036854775808)) by lia.
  replace (ms + 9223372036854775808 - 9223372036854775808) with ms by lia.
  change Millisecond with 1000000.
  rewrite Z.mod_small by lia. lia.
Qed.

(** Saturation does not hide an order between two instants. *)
Lemma Sub_le (t u d : Z) : - 2 ^ 63 < d < 2 ^ 63 - 1 -> Sub t u <= d -> t - u <= d.
Proof. unfold Sub, saturate. lia. Qed.

Lemma Sub_ge (t u d : Z) : - 2 ^ 63 < d < 2 ^ 63 - 1 -> d <= Sub t u -> d <= t - u.
Proof. unfold Sub, saturate. lia. Qed.

Lemma minRevealDur_range : - 2 ^ 63 < minRevealDur < 2 ^ 63 - 1.
Proof. split; reflexivity. Qed.

Lemma maxRefundDur_range : - 2 ^ 63 < maxRefundDur < 2 ^ 63 - 1.
Proof. split; reflexivity. Qed.

(** Saturation does not hide on which side of a duration a difference
    lies. *)
Lemma Sub_lt_iff (t u d : Z) :
  - 2 ^ 63 < d < 2 ^ 63 - 1 -> Sub t u < d <-> t - u < d.
Proof. unfold Sub, saturate. lia. Qed.

Lemma Sub_gt_iff (t u d : Z) :
  - 2 ^ 63 < d < 2 ^ 63 - 1 -> d < Sub t u <-> d < t - u.
Proof. unfold Sub, saturate. lia. Qed.

(** In range, the handler's comparison of instants is the comparison of
    the deadlines themselves. *)
Lemma reveal_too_soon_in_range (env : Env) (req : Request) :
  deadlines_in_range req ->
  reveal_too_soon env req <-> reveal_deadline_too_soon env req.
Proof.
  intros [Hrv _]. unfold reveal_too_soon, reveal_deadline_too_soon, Until.
  split; intros (ms & Hp & Hsoon); exists ms; (split; [exact Hp|]);
    pose proof (ParseUint_range _ _ Hp) as Hms;
    pose proof (Hrv _ Hp) as Hmax;
    rewrite FromMillis_small in * by lia;
    apply (Sub_lt_iff _ _ _ minRevealDur_range); exact Hsoon.
Qed.

Lemma refund_window_in_range (req : Request) :
  deadlines_in_range req ->
  refund_window_too_long req <-> refund_deadline_too_late req.
Proof.
  intros [Hrv Hrf]. unfold refund_window_too_long, refund_deadline_too_late.
  split; intros (rv & rf & Hp1 & Hp2 & Hlong); exists rv, rf;
    (split; [exact Hp1|]); (split; [exact Hp2|]);
    pose proof (ParseUint_range _ _ Hp1) as Hms1;
    pose proof (ParseUint_range _ _ Hp2) as Hms2;
    pose proof (Hrv _ Hp1) as Hmax1;
    pose proof (Hrf _ Hp2) as Hmax2;
    rewrite !FromMillis_small in * by lia;
    [apply (Sub_gt_iff _ _ _ maxRefundDur_range) in Hlong
    |apply (Sub_gt_iff _ _ _ maxRefundDur_range)];
    unfold Millisecond in *; lia.
Qed.

Ltac bool_hyps :=
  repeat match goal with
         | H : (_ <? _) = true |- _ => apply Z.ltb_lt in H
         | H : (_ <? _) = false |- _ => apply Z.ltb_ge in H
         | H : negb _ = true |- _ => apply negb_true_iff in H
         | H : negb _ = false |- _ => apply negb_false_iff in H
         end.

(** Every path through the handler, with what it found on the way. *)
Ltac handler_paths H :=
  unfold server_serve, checkPrice in H;
  repeat case_match; simplify_eq; bool_hyps.

Ltac split_hyps :=
  repeat match goal with
         | H : _ \/ _ |- _ => destruct H
         | H : ex _ |- _ => destruct H
         | H : _ /\ _ |- _ => destruct H
         end.

(** C5, as stated, fails: with a non-positive amount and a clear root that
    maps to no stored file, the handler answers 404, not 400; the file is
    looked up before the amount is. *)
Lemma server_serve_not_as_specified :
  status <$> (fst <$>
    server_serve ChunkSize8K sample_server sample_env
      (mkRequest "cd" "0" "00" "1600001200000" "1600003000000")) = Some 404 /\
  amount_non_positive
    (mkRequest "cd" "0" "00" "1600001200000" "1600003000000") /\
  ~ rejects_as_specified sample_server sample_env
      (mkRequest "cd" "0" "00" "1600001200000" "1600003000000")
      (httpErr 404 "file not found").
Proof.
  split; [vm_compute; reflexivity|].
  assert (Hamount : amount_non_positive
            (mkRequest "cd" "0" "00" "1600001200000" "1600003000000")).
  { exists 0. split; [reflexivity | lia]. }
  split; [exact Hamount|].
  intros [[_ Hbad] _].
  assert (Hcode : status (httpErr 404 "file not found") = StatusBadRequest)
    by (apply Hbad; left; exact Hamount).
  discriminate Hcode.
Qed.

(** A malformed asset ID is answered 400 although the amount is positive,
    the reveal deadline far enough and the refund window short enough. *)
Example server_serve_malformed_assetid :
  status <$> (fst <$>
    server_serve ChunkSize8K sample_server sample_env
      (mkRequest "ab" "5" "zz" "1600001200000" "1600003000000")) = Some 400.
Proof. vm_compute. reflexivity. Qed.

(** The status codes of the handler, with the deadlines as the instants
    the handler makes of them ([bc.FromMillis]: [int64] nanoseconds, which
    wrap around). *)
Lemma server_serve_statuses (ChunkSize : nat) (s s' : server) (env : Env)
    (req : Request) (resp : Response) :
  server_serve ChunkSize s env req = Some (resp, s') ->
  (status resp = StatusNotFound <-> content_not_found s req) /\
  (status resp = StatusBadRequest <->
     DecodeString (clearroot req) = None \/
     (content_readable s req /\
      (malformed req \/ amount_non_positive req \/ reveal_too_soon env req \/
       refund_window_too_long req))) /\
  (status resp = StatusBadRequest \/ status resp = StatusNotFound ->
     stream_sent resp = None /\ s' = s).
Proof.
  intros Hrun.
  unfold content_not_found, content_readable, malformed,
    amount_non_positive, reveal_too_soon, refund_window_too_long.
  handler_paths Hrun.
  all: cbn [status stream_sent].
  all: unfold StatusNotFound, StatusBadRequest, StatusInternalServerError.
  all: split; [|split].
  (* no stream, nothing stored *)
  all: try (intros [Hcode | Hcode]; try discriminate Hcode; split; reflexivity).
  (* the other status codes; and, from right to left, what was found *)
  all: try (split;
            [intros ?; try discriminate
            |intros; split_hyps; simplify_eq; try congruence; try lia]).
  (* 404: the file does not exist *)
  all: try (eexists; split; [reflexivity | eassumption]).
  (* 400: the check that failed *)
  all: try (left; reflexivity).
  all: right; (split; [eauto 10|]).
  all: first
         [ left; left; reflexivity
         | left; right; left; reflexivity
         | left; right; right; left; reflexivity
         | left; right; right; right; reflexivity
         | right; left; eexists; split; [reflexivity | lia]
         | right; right; left; eexists; split; [reflexivity | lia]
         | right; right; right; eexists _, _;
           split; [reflexivity | split; [reflexivity | lia]] ].
Qed.

(** Beyond [MaxMillis] the instants are not the deadlines: a refund
    deadline 241 years after the reveal deadline is accepted, its instant
    having wrapped around to the year 1677, and the last reveal deadline
    there is, is answered "reveal deadline too soon". *)
Example server_serve_wrapped_deadlines :
  accepted
    (server_serve ChunkSize8K sample_server sample_env
       (mkRequest "ab" "5" "00" "1600001200000" "9223372036855")) = true /\
  FromMillis 9223372036855 = -9223372036854551616 /\
  server_serve ChunkSize8K sample_server sample_env
    (mkRequest "ab" "5" "00" "18446744073709551615" "1600003000000") =
  Some (httpErr StatusBadRequest "reveal deadline too soon", sample_server) /\
  FromMillis 18446744073709551615 = -1000000.
Proof. repeat split; vm_compute; reflexivity. Qed.

(** C5, amended.  Whenever the handler responds: it answers 404 exactly
    when the clear root is hexadecimal and maps to no stored file; it
    answers 400 exactly when the clear root is not hexadecimal or, the
    content file and its content type being readable, a parameter is
    malformed, the amount is below 1, the reveal instant is less than
    [minRevealDur] from now, or the refund instant is more than
    [maxRefundDur] after the reveal instant, the instants being what
    [bc.FromMillis] makes of the deadlines ([int64] nanoseconds, which
    wrap around); in each such case no ciphertext stream is sent and
    nothing is stored.  For a request whose deadlines are at most
    [MaxMillis] (9223372036854 ms) the instants are the deadlines, and the
    two conditions are that the reveal deadline is less than
    [minRevealDur] from now or the refund deadline more than
    [maxRefundDur] after the reveal deadline. *)
Theorem server_serve_rejections (ChunkSize : nat) (s s' : server) (env : Env)
    (req : Request) (resp : Response) :
  server_serve ChunkSize s env req = Some (resp, s') ->
  (status resp = StatusNotFound <-> content_not_found s req) /\
  (status resp = StatusBadRequest <->
     DecodeString (clearroot req) = None \/
     (content_readable s req /\
      (malformed req \/ amount_non_positive req \/ reveal_too_soon env req \/
       refund_window_too_long req))) /\
  (status resp = StatusBadRequest \/ status resp = StatusNotFound ->
     stream_sent resp = None /\ s' = s) /\
  (deadlines_in_range req ->
   (status resp = StatusBadRequest <->
      DecodeString (clearroot req) = None \/
      (content_readable s req /\
       (malformed req \/ amount_non_positive req \/
        reveal_deadline_too_soon env req \/
        refund_deadline_too_late req)))).
Proof.
  intros Hrun.
  destruct (server_serve_statuses ChunkSize s s' env req resp Hrun)
    as (Hnotfound & Hbad & Hnone).
  split; [exact Hnotfound|]. split; [exact Hbad|]. split; [exact Hnone|].
  intros Hrange.
  pose proof (reveal_too_soon_in_range env req Hrange) as Hsoon.
  pose proof (refund_window_in_range req Hrange) as Hlong.
  rewrite Hbad. tauto.
Qed.

Lemma server_serve_rejections_witness :
  server_serve ChunkSize8K sample_server sample_env
    (mkRequest "cd" "0" "00" "1600001200000" "1600003000000") =
    Some (httpErr 404 "file not found", sample_server) /\
  (status (httpErr 404 "file not found") = StatusNotFound <->
     content_not_found sample_server
       (mkRequest "cd" "0" "00" "1600001200000" "1600003000000")) /\
  (status (httpErr 404 "file not found") = StatusBadRequest <->
     DecodeString
       (clearroot (mkRequest "cd" "0" "00" "1600001200000" "1600003000000"))
       = None \/
     (content_readable sample_server
        (mkRequest "cd" "0" "00" "1600001200000" "1600003000000") /\
      (malformed (mkRequest "cd" "0" "00" "1600001200000" "1600003000000") \/
       amount_non_positive
         (mkRequest "cd" "0" "00" "1600001200000" "1600003000000") \/
       reveal_too_soon sample_env
         (mkRequest "cd" "0" "00" "1600001200000" "1600003000000") \/
       refund_window_too_long
         (mkRequest "cd" "0" "00" "1600001200000" "1600003000000")))) /\
  (status (httpErr 404 "file not found") = StatusBadRequest \/
   status (httpErr 404 "file not found") = StatusNotFound ->
     stream_sent (httpErr 404 "file not found") = None /\
     sample_server = sample_server) /\
  (deadlines_in_range
     (mkRequest "cd" "0" "00" "1600001200000" "1600003000000") ->
   (status (httpErr 404 "file not found") = StatusBadRequest <->
      DecodeString
        (clearroot (mkRequest "cd" "0" "00" "1600001200000" "1600003000000"))
        = None \/
      (content_readable sample_server
         (mkRequest "cd" "0" "00" "1600001200000" "1600003000000") /\
       (malformed (mkRequest "cd" "0" "00" "1600001200000" "1600003000000") \/
        amount_non_positive
          (mkRequest "cd" "0" "00" "1600001200000" "1600003000000") \/
        reveal_deadline_too_soon sample_env
          (mkRequest "cd" "0" "00" "1600001200000" "1600003000000") \/
        refund_deadline_too_late
          (mkRequest "cd" "0" "00" "1600001200000" "1600003000000"))))).
Proof.
  split; [vm_compute; reflexivity|].
  apply (server_serve_rejections ChunkSize8K sample_server sample_server
           sample_env
           (mkRequest "cd" "0" "00" "1600001200000" "1600003000000")
           (httpErr 404 "file not found")).
  vm_compute. reflexivity.
Defined.

(** C2, as stated, fails: the handler accepts a request whose refund
    deadline (the epoch) lies before its reveal deadline. *)
Lemma server_serve_accepts_refund_before_reveal :
  accepted
    (server_serve ChunkSize8K sample_server sample_env
       (mkRequest "ab" "5" "00" "1600001200000" "0")) = true /\
  ParseUint "1600001200000" = Some 1600001200000 /\
  ParseUint "0" = Some 0 /\
  ~ 1600001200000 < 0 /\
  ~ FromMillis 1600001200000 < FromMillis 0.
Proof.
  split; [vm_compute; reflexivity|].
  split; [vm_compute; reflexivity|].
  split; [vm_compute; reflexivity|].
  split; [lia|].
  vm_compute. discriminate.
Qed.

(** Nor is the refund deadline of an accepted request always within an
    hour of its reveal deadline: beyond [MaxMillis] the instant wraps
    around, and this refund deadline, 241 years after the reveal
    deadline, is accepted. *)
Example server_serve_accepts_refund_centuries_later :
  accepted
    (server_serve ChunkSize8K sample_server sample_env
       (mkRequest "ab" "5" "00" "1600001200000" "9223372036855")) = true /\
  MaxMillis = 9223372036854 /\
  1600001200000 + 3600000 < 9223372036855 /\
  FromMillis 9223372036855 < FromMillis 1600001200000.
Proof. repeat split; vm_compute; reflexivity. Qed.

(** C2, amended.  For every request the handler accepts, both deadlines are
    decimal [uint64] milliseconds, and of the instants [bc.FromMillis]
    makes of them ([int64] nanoseconds, which wrap around) the reveal
    instant is at least [minRevealDur] (10 minutes) after now and the
    refund instant at most [maxRefundDur] (1 hour) after the reveal
    instant.  Where the deadlines are at most [MaxMillis]
    (9223372036854 ms) the instants are the deadlines: the reveal deadline
    is at least 10 minutes after now, and the refund deadline at most
    3600000 ms after the reveal deadline.  The refund deadline may be
    earlier than the reveal deadline. *)
Theorem server_serve_accepts (ChunkSize : nat) (s : server) (env : Env)
    (req : Request) :
  accepted (server_serve ChunkSize s env req) = true ->
  exists rv rf,
    ParseUint (revealdeadline req) = Some rv /\
    ParseUint (refunddeadline req) = Some rf /\
    minRevealDur <= Until (now env) (FromMillis rv) /\
    now env + minRevealDur <= FromMillis rv /\
    Sub (FromMillis rf) (FromMillis rv) <= maxRefundDur /\
    FromMillis rf <= FromMillis rv + maxRefundDur /\
    (rv <= MaxMillis -> now env + minRevealDur <= rv * Millisecond) /\
    (rv <= MaxMillis -> rf <= MaxMillis -> rf <= rv + 3600000).
Proof.
  intros Haccepted. unfold accepted in Haccepted.
  destruct (server_serve ChunkSize s env req) as [[resp s']|] eqn:Hrun;
    [|discriminate].
  destruct resp as [|id contentType body]; [discriminate|].
  handler_paths Hrun.
  eexists _, _. split; [reflexivity|]. split; [reflexivity|].
  match goal with
  | Hsoon : minRevealDur <= Until _ _, Hlong : Sub _ _ <= maxRefundDur,
    Hrv : ParseUint (revealdeadline req) = Some _,
    Hrf : ParseUint (refunddeadline req) = Some _ |- _ =>
      pose proof (Sub_ge _ _ minRevealDur minRevealDur_range Hsoon) as Hge;
      pose proof (Sub_le _ _ maxRefundDur maxRefundDur_range Hlong) as Hle;
      pose proof (ParseUint_range _ _ Hrv) as Hrv0;
      pose proof (ParseUint_range _ _ Hrf) as Hrf0
  end.
  split; [assumption|]. split; [lia|]. split; [assumption|]. split; [lia|].
  split.
  - intros Hmax. rewrite FromMillis_small in Hge by lia. lia.
  - intros Hmax1 Hmax2. rewrite !FromMillis_small in Hle by lia.
    unfold maxRefundDur, Hour, Minute, Millisecond in Hle. lia.
Qed.

Lemma server_serve_accepts_witness :
  accepted
    (server_serve ChunkSize8K sample_server sample_env
       (mkRequest "ab" "5" "00" "1600001200000" "1600003000000")) = true /\
  exists rv rf,
    ParseUint
      (revealdeadline
         (mkRequest "ab" "5" "00" "1600001200000" "1600003000000")) = Some rv /\
    ParseUint
      (refunddeadline
         (mkRequest "ab" "5" "00" "1600001200000" "1600003000000")) = Some rf /\
    minRevealDur <= Until (now sample_env) (FromMillis rv) /\
    now sample_env + minRevealDur <= FromMillis rv /\
    Sub (FromMillis rf) (FromMillis rv) <= maxRefundDur /\
    FromMillis rf <= FromMillis rv + maxRefundDur /\
    (rv <= MaxMillis -> now sample_env + minRevealDur <= rv * Millisecond) /\
    (rv <= MaxMillis -> rf <= MaxMillis -> rf <= rv + 3600000).
Proof.
  split; [vm_compute; reflexivity|].
  apply (server_serve_accepts ChunkSize8K sample_server sample_env
           (mkRequest "ab" "5" "00" "1600001200000" "1600003000000")).
  vm_compute. reflexivity.
Defined.

(** * Revealing the key *)

(** [RevealKey] does not look at the parameters it is to verify: whatever
    is wanted, it makes the same calls and returns the same result. *)
Lemma RevealKey_ignores_wanted (client : Client) (seller : TransactOpts)
    (contractAddr key clear1 cipher1 clear2 cipher2 : bytes)
    (reveal1 refund1 reveal2 refund2 : Z) :
  RevealKey client seller contractAddr key clear1 cipher1 reveal1 refund1 =
  RevealKey client seller contractAddr key clear2 cipher2 reveal2 refund2.
Proof. reflexivity. Qed.

(** The only call [RevealKey] ever makes is [reveal], with the transaction
    options of the caller as they came: it reads nothing from the contract
    and adds no funds. *)
Lemma RevealKey_calls (client : Client) (seller : TransactOpts)
    (contractAddr key wantClearRoot wantCipherRoot : bytes)
    (wantRevealDeadline wantRefundDeadline : Z) (call : Call) :
  call ∈ (RevealKey client seller contractAddr key wantClearRoot
            wantCipherRoot wantRevealDeadline wantRefundDeadline).1 ->
  call = CallReveal contractAddr seller key.
Proof.
  unfold RevealKey.
  destruct (NewTredd client contractAddr); [|intros Hin; inversion Hin].
  destruct (transact client _); simpl; intros Hin;
    apply list_elem_of_singleton in Hin; exact Hin.
Qed.

(** C3 on the code.  The contract deployed at the address commits to the
    clear root [01], the cipher root [02] and the deadlines 1 s and 2 s;
    the seller wants the roots [09] and [08] and the deadlines 3 s and 4 s,
    and sends no funds.  [RevealKey] reveals the key all the same: one
    call, [reveal], without collateral, and the receipt is returned. *)
Lemma RevealKey_reveals_unverified :
  deployed sample_client [10] = mkParams [1] [2] (10 ^ 9) (2 * 10 ^ 9) /\
  RevealKey sample_client (mkOpts [7] 0) [10] (replicate 32 1)
    [9] [8] (3 * 10 ^ 9) (4 * 10 ^ 9) =
  ([CallReveal [10] (mkOpts [7] 0) (replicate 32 1)], Ok 1).
Proof. split; reflexivity. Qed.

Section ServePass.

Variable ChunkSize : nat.
Context {W : Type} `{Writer W}.

(** One pass of the loop on any writer, after a read that delivered a
    chunk (whole, or short at the end of the input). *)
Lemma Serve_loop_pass (fuel : nat) (key : bytes) (w : W) (r r1 : Reader)
    (index : Z) (tree : merkle.Tree) (cbuf hbuf d : bytes)
    (err : option error) :
  ReadFull r ChunkSize = (d, err, r1) ->
  err = None \/ err = Some ErrUnexpectedEOF ->
  (length d <= ChunkSize)%nat ->
  length cbuf = (ChunkSize + MaxVarintLen64)%nat ->
  length hbuf = (32 + MaxVarintLen64)%nat ->
  exists cbuf' hbuf',
    length cbuf' = (ChunkSize + MaxVarintLen64)%nat /\
    length hbuf' = (32 + MaxVarintLen64)%nat /\
    Serve_loop ChunkSize (S fuel) key w r index tree cbuf hbuf =
    match Write w (clearHash index d) with
    | (w1, Some e) => Some (w1, r1, Err (Wrapf e "writing clear hash" index))
    | (w1, None) =>
        match Write w1 (cipherChunk key index d) with
        | (w2, Some e) =>
            Some (w2, r1, Err (Wrapf e "writing cipher chunk" index))
        | (w2, None) =>
            Serve_loop ChunkSize fuel key w2 r1 (u64 (index + 1))
              (merkle.Add tree (cipherLeaf key index d)) cbuf' hbuf'
        end
    end.
Proof.
  intros Hread Herr Hd Hcbuf Hhbuf.
  set (vi := PutUvarint index).
  pose proof (length_PutUvarint index) as Hm. fold vi in Hm.
  unfold MaxVarintLen64 in *.
  set (cbuf1 := write_at cbuf 0 vi).
  set (hbuf1 := write_at hbuf 0 vi).
  set (cbuf2 := write_at cbuf1 (length vi) d).
  set (hbuf2 := write_at hbuf1 (length vi) (merkle.LeafHash (vi ++ d))).
  set (cbuf3 := write_at cbuf2 (length vi) (crypt key d index)).
  assert (Hc1 : length cbuf1 = length cbuf)
    by (apply length_write_at; simpl; lia).
  assert (Hh1 : length hbuf1 = length hbuf)
    by (apply length_write_at; simpl; lia).
  assert (Hc2 : length cbuf2 = length cbuf)
    by (subst cbuf2; rewrite length_write_at; lia).
  assert (Hh2 : length hbuf2 = length hbuf)
    by (subst hbuf2; rewrite length_write_at; rewrite ?length_LeafHash; lia).
  assert (Hc3 : length cbuf3 = length cbuf)
    by (subst cbuf3; rewrite length_write_at; rewrite ?length_crypt; lia).
  assert (Hv1 : take (length vi) cbuf1 = vi) by apply take_write_at_0.
  assert (Hs2 : slice cbuf2 0 (length vi + length d) = vi ++ d).
  { rewrite slice_from_0. subst cbuf2.
    rewrite take_write_at_through by lia. rewrite Hv1. reflexivity. }
  assert (Hsd : slice cbuf2 (length vi) (length vi + length d) = d)
    by (apply slice_write_at; lia).
  assert (Hsh : slice hbuf2 (length vi) (length vi + 32) =
                merkle.LeafHash (vi ++ d)).
  { pose proof (slice_write_at hbuf1 (length vi) (merkle.LeafHash (vi ++ d)))
      as Hslice.
    rewrite length_LeafHash in Hslice. apply Hslice. lia. }
  assert (Hsc : slice cbuf3 (length vi) (length vi + length d) =
                crypt key d index).
  { pose proof (slice_write_at cbuf2 (length vi) (crypt key d index))
      as Hslice.
    rewrite length_crypt in Hslice. apply Hslice. lia. }
  assert (Hs3 : slice cbuf3 0 (length vi + length d) =
                vi ++ crypt key d index).
  { rewrite slice_from_0.
    pose proof (take_write_at_through cbuf2 (length vi) (crypt key d index))
      as Htake.
    rewrite length_crypt in Htake. fold cbuf3 in Htake.
    rewrite Htake by lia.
    subst cbuf2. rewrite take_write_at by lia. rewrite Hv1. reflexivity. }
  exists cbuf3, hbuf2.
  split; [lia|]. split; [lia|].
  cbn [Serve_loop]. rewrite Hread.
  fold vi cbuf1 hbuf1. fold cbuf2.
  unfold clearHash, cipherChunk, cipherLeaf. fold vi.
  change (zip_with Z.lxor d (keystream key index (length d)))
    with (crypt key d index).
  destruct Herr as [-> | ->];
    rewrite Hs2; fold hbuf2; rewrite Hsh;
    destruct (Write w (merkle.LeafHash (vi ++ d))) as [w1 [e1|]];
    try reflexivity;
    rewrite Hsd; fold cbuf3; rewrite Hsc;
    destruct (Write w1 (crypt key d index)) as [w2 [e2|]];
    try reflexivity;
    rewrite Hs3; reflexivity.
Qed.

End ServePass.

(** ** A reader that fails *)

Section ServeReaderError.

Variable ChunkSize : nat.
Hypothesis ChunkSize_pos : (0 < ChunkSize)%nat.

Lemma div_step (n : nat) :
  (ChunkSize <= n)%nat -> (n / ChunkSize = S ((n - ChunkSize) / ChunkSize))%nat.
Proof.
  intros Hn.
  replace n with ((n - ChunkSize) + 1 * ChunkSize)%nat at 1 by lia.
  rewrite Nat.div_add by lia. lia.
Qed.

(** A read that fails with an error of the reader's own ends the run. *)
Lemma Serve_loop_read_error (fuel : nat) (key : bytes) (w : WriteLog)
    (r r1 : Reader) (index : Z) (tree : merkle.Tree) (cbuf hbuf d : bytes)
    (e : error) :
  ReadFull r ChunkSize = (d, Some e, r1) ->
  e <> EOF -> e <> ErrUnexpectedEOF ->
  Serve_loop ChunkSize (S fuel) key w r index tree cbuf hbuf =
  Some (w, r1, Err (Wrapf e "reading clear chunk" index)).
Proof.
  intros Hread Heof Hshort. cbn [Serve_loop]. rewrite Hread.
  destruct e; try congruence; reflexivity.
Qed.

Lemma Serve_loop_reader_error (fuel : nat) (key : bytes) (w : WriteLog)
    (frags : list bytes) (e : error) (index : Z) (tree : merkle.Tree)
    (cbuf hbuf : bytes) :
  e <> EOF -> e <> ErrUnexpectedEOF ->
  (length (concat frags) <= fuel)%nat ->
  0 <= index ->
  index + Z.of_nat (length (concat frags) / ChunkSize) < 2 ^ 64 ->
  length cbuf = (ChunkSize + MaxVarintLen64)%nat ->
  length hbuf = (32 + MaxVarintLen64)%nat ->
  exists rest,
    Serve_loop ChunkSize (S fuel) key w (mkReader frags (Some e)) index tree
      cbuf hbuf =
    Some (w ++ writes_from key index
                 (take (length (concat frags) / ChunkSize)
                    (chunks_upto ChunkSize fuel (concat frags))),
          mkReader rest (Some e),
          Err (Wrapf e "reading clear chunk"
                 (index + Z.of_nat (length (concat frags) / ChunkSize)))).
Proof.
  intros Heof Hueof. revert w frags index tree cbuf hbuf.
  induction fuel as [|fuel IH]; intros w frags index tree cbuf hbuf
    Hfuel Hlo Hhi Hcbuf Hhbuf;
    destruct (ReadFull_spec frags (Some e) ChunkSize)
      as (rest & Hrest & Hread);
    assert (Herr : match e with EOF => Some (if (length (concat frags) =? 0)%nat
                                              then EOF else ErrUnexpectedEOF)
                           | _ => Some e end = Some e)
      by (destruct e; congruence);
    rewrite Herr in Hread.
  - exists rest.
    destruct (concat frags) eqn:Hdata; [|simpl in Hfuel; lia].
    simpl length in *. rewrite Nat.Div0.div_0_l.
    replace (0 <? ChunkSize)%nat with true in Hread
      by (symmetry; apply Nat.ltb_lt; lia).
    rewrite (Serve_loop_read_error _ _ _ _ _ _ _ _ _ _ _ Hread Heof Hueof).
    simpl. rewrite app_nil_r, Z.add_0_r. reflexivity.
  - destruct (decide (length (concat frags) < ChunkSize)%nat) as [Hshort|Hfull].
    + exists rest.
      replace (length (concat frags) <? ChunkSize)%nat with true in Hread
        by (symmetry; apply Nat.ltb_lt; lia).
      rewrite (Serve_loop_read_error _ _ _ _ _ _ _ _ _ _ _ Hread Heof Hueof).
      rewrite Nat.div_small by lia.
      cbn [take writes_from]. rewrite app_nil_r, Z.add_0_r. reflexivity.
    + replace (length (concat frags) <? ChunkSize)%nat with false in Hread
        by (symmetry; apply Nat.ltb_ge; lia).
      destruct (Serve_loop_pass ChunkSize (S fuel) key w
                  (mkReader frags (Some e)) (mkReader rest (Some e))
                  index tree cbuf hbuf (take ChunkSize (concat frags)) None)
        as (cbuf' & hbuf' & Hcbuf' & Hhbuf' & Hpass);
        [exact Hread | left; reflexivity | rewrite length_take; lia
        | exact Hcbuf | exact Hhbuf |].
      rewrite Hpass. unfold Write, WriteLog_Writer.
      assert (Hdata : concat frags <> [])
        by (destruct (concat frags); [simpl in Hfull; lia | discriminate]).
      pose proof (div_step (length (concat frags)) ltac:(lia)) as Hq.
      rewrite Hq in Hhi |- *.
      assert (Hnext : u64 (index + 1) = index + 1)
        by (apply u64_small; lia).
      destruct (IH ((w ++ [clearHash index (take ChunkSize (concat frags))])
                      ++ [cipherChunk key index (take ChunkSize (concat frags))])
                  rest (u64 (index + 1))
                  (merkle.Add tree
                     (cipherLeaf key index (take ChunkSize (concat frags))))
                  cbuf' hbuf') as (rest' & Hloop).
      * rewrite Hrest, length_drop. lia.
      * lia.
      * rewrite Hnext, Hrest, length_drop. lia.
      * exact Hcbuf'.
      * exact Hhbuf'.
      * exists rest'. etrans; [exact Hloop|].
        rewrite Hrest, length_drop.
        rewrite (chunks_upto_cons ChunkSize fuel (concat frags) Hdata).
        cbn [take writes_from]. rewrite Hnext.
        rewrite <- !app_assoc.
        replace (index + Z.of_nat (S ((length (concat frags) - ChunkSize)
                                        / ChunkSize)))
          with (index + 1 + Z.of_nat ((length (concat frags) - ChunkSize)
                                        / ChunkSize)) by lia.
        reflexivity.
Qed.


End ServeReaderError.



(** A reader that delivers "AB" and then fails with [io.ErrUnexpectedEOF],
    on a disk with room for 100 bytes: the record of "AB", then two
    records of an empty chunk, and the fourth clear hash does not fit.
    Only the disk ends the run. *)
Example Serve_unexpected_EOF_fills_disk :
  (fun run : LimitWriter * Reader * result bytes =>
     (length (lw_out run.1.1), run.2)) <$>
    Serve_loop 4 10 (replicate 32 1) (mkLimitWriter 100 [])
      (mkReader [[65; 66]] (Some ErrUnexpectedEOF)) 0 merkle.NewTree
      (replicate (4 + MaxVarintLen64) 0)
      (replicate (32 + MaxVarintLen64) 0) =
  Some (100%nat, Err (Wrapf (ErrIO "short write") "writing clear hash" 3)).
Proof. vm_compute. reflexivity. Qed.

(** With a reader that fails with another error, a run on the log ends in
    an error. *)
Lemma Serve_failing_reader (ChunkSize : nat) (r : Reader) (key : bytes)
    (e : error) :
  (0 < ChunkSize)%nat ->
  r_end r = Some e ->
  e <> EOF -> e <> ErrUnexpectedEOF ->
  Z.of_nat (length (contents r)) < 2 ^ 64 ->
  exists log r' e',
    Serve ChunkSize ([] : WriteLog) r key = Some (log, r', Err e').
Proof.
  intros Hpos Hend Heof Hueof Hsize. destruct r as [frags e'].
  simpl in Hend. subst e'.
  unfold Serve, Serve_fuel, contents in *. simpl r_frags in *.
  assert (Hq : (length (concat frags) / ChunkSize <= length (concat frags))%nat)
    by (apply Nat.Div0.div_le_upper_bound; nia).
  destruct (Serve_loop_reader_error ChunkSize Hpos (length (concat frags))
              key [] frags e 0 merkle.NewTree
              (replicate (ChunkSize + MaxVarintLen64) 0)
              (replicate (32 + MaxVarintLen64) 0) Heof Hueof)
    as (rest & Hloop);
    [lia | lia | lia | apply length_replicate | apply length_replicate |].
  eexists _, _, _. exact Hloop.
Qed.

(** ** Any writer *)

Section ServeAnyWriter.

Variable ChunkSize : nat.
Hypothesis ChunkSize_pos : (0 < ChunkSize)%nat.
Context {W : Type} `{Writer W}.

Lemma even_double (j : nat) : Nat.even (2 * j) = true.
Proof. rewrite Nat.even_mul. reflexivity. Qed.

Lemma even_succ_double (j : nat) : Nat.even (S (2 * j)) = false.
Proof. rewrite Nat.even_succ, Nat.odd_mul. reflexivity. Qed.

Lemma half_double (j : nat) : (2 * j / 2 = j)%nat.
Proof. rewrite Nat.mul_comm. apply Nat.div_mul. lia. Qed.

Lemma half_succ_double (j : nat) : (S (2 * j) / 2 = j)%nat.
Proof.
  replace (S (2 * j)) with (1 + j * 2)%nat by lia.
  rewrite Nat.div_add by lia. reflexivity.
Qed.

Lemma Serve_loop_any_writer (fuel : nat) (key : bytes) (w : W)
    (frags : list bytes) (j : nat) (tree : merkle.Tree) (cbuf hbuf : bytes) :
  (length (concat frags) <= fuel)%nat ->
  Z.of_nat j + Z.of_nat (length (concat frags)) < 2 ^ 64 ->
  length cbuf = (ChunkSize + MaxVarintLen64)%nat ->
  length hbuf = (32 + MaxVarintLen64)%nat ->
  exists rest,
    Serve_loop ChunkSize (S fuel) key w (mkReader frags None) (Z.of_nat j)
      tree cbuf hbuf =
    Some ((write_all w
             (writes_from key (Z.of_nat j)
                (chunks_upto ChunkSize fuel (concat frags))) (2 * j)).1,
          mkReader rest None,
          match (write_all w
                   (writes_from key (Z.of_nat j)
                      (chunks_upto ChunkSize fuel (concat frags))) (2 * j)).2
          with
          | None =>
              Ok (merkle.Root
                    (fold_left merkle.Add
                       (leaves_from key (Z.of_nat j)
                          (chunks_upto ChunkSize fuel (concat frags)))
                       tree))
          | Some (pos, e) =>
              Err (Wrapf e (if Nat.even pos then "writing clear hash"
                            else "writing cipher chunk")
                     (Z.of_nat (pos / 2)))
          end).
Proof.
  revert w frags j tree cbuf hbuf.
  induction fuel as [|fuel IH]; intros w frags j tree cbuf hbuf
    Hfuel Hhi Hcbuf Hhbuf;
    destruct (ReadFull_spec frags None ChunkSize) as (rest & Hrest & Hread).
  - exists rest. cbn [Serve_loop]. rewrite Hread.
    destruct (concat frags) eqn:Hdata; [|simpl in Hfuel; lia].
    simpl length.
    replace (0 <? ChunkSize)%nat with true
      by (symmetry; apply Nat.ltb_lt; lia).
    reflexivity.
  - destruct (decide (concat frags = [])) as [Hdata|Hdata].
    + exists rest. cbn [Serve_loop]. rewrite Hread, Hdata.
      simpl length.
      replace (0 <? ChunkSize)%nat with true
        by (symmetry; apply Nat.ltb_lt; lia).
      reflexivity.
    + assert (Hlen : (0 < length (concat frags))%nat)
        by (destruct (concat frags); [congruence | simpl; lia]).
      destruct (Serve_loop_pass ChunkSize (S fuel) key w
                  (mkReader frags None) (mkReader rest None)
                  (Z.of_nat j) tree cbuf hbuf (take ChunkSize (concat frags))
                  (if (length (concat frags) <? ChunkSize)%nat
                   then Some (if (length (concat frags) =? 0)%nat
                              then EOF else ErrUnexpectedEOF)
                   else None))
        as (cbuf' & hbuf' & Hcbuf' & Hhbuf' & Hpass);
        [exact Hread
        | destruct (length (concat frags) <? ChunkSize)%nat;
          [right | left; reflexivity];
          replace (length (concat frags) =? 0)%nat with false
            by (symmetry; apply Nat.eqb_neq; lia); reflexivity
        | rewrite length_take; lia
        | exact Hcbuf | exact Hhbuf |].
      rewrite Hpass.
      rewrite (chunks_upto_cons ChunkSize fuel (concat frags) Hdata).
      cbn [writes_from leaves_from write_all fold_left].
      destruct (Write w (clearHash (Z.of_nat j)
                           (take ChunkSize (concat frags)))) as [w1 [e1|]].
      { exists rest. cbn [fst snd]. rewrite even_double, half_double.
        reflexivity. }
      destruct (Write w1 (cipherChunk key (Z.of_nat j)
                            (take ChunkSize (concat frags)))) as [w2 [e2|]].
      { exists rest. cbn [fst snd]. rewrite even_succ_double, half_succ_double.
        reflexivity. }
      rewrite u64_small by lia.
      replace (Z.of_nat j + 1) with (Z.of_nat (S j)) by lia.
      replace (S (S (2 * j))) with (2 * S j)%nat by lia.
      rewrite <- Hrest.
      apply IH.
      * rewrite Hrest, length_drop. lia.
      * rewrite Hrest, length_drop. lia.
      * exact Hcbuf'.
      * exact Hhbuf'.
Qed.

End ServeAnyWriter.

(** X2.  On any writer, [Serve] makes the [Write] calls it makes on a log,
    in the same order, and stops at the first that fails, returning that
    error wrapped with the half of the record ("clear hash" or "cipher
    chunk") and the index of the chunk; when none fails, it returns the
    cipher root. *)
Theorem Serve_any_writer (ChunkSize : nat) {W : Type} `{Writer W} (w : W)
    (r : Reader) (key : bytes) :
  (0 < ChunkSize)%nat ->
  r_end r = None ->
  Z.of_nat (length (contents r)) < 2 ^ 64 ->
  exists r',
    Serve ChunkSize w r key =
    Some ((write_all w (writes_from key 0 (chunks ChunkSize (contents r))) 0).1,
          r',
          match (write_all w
                   (writes_from key 0 (chunks ChunkSize (contents r))) 0).2
          with
          | None => Ok (cipherRoot ChunkSize key (contents r))
          | Some (pos, e) =>
              Err (Wrapf e (if Nat.even pos then "writing clear hash"
                            else "writing cipher chunk")
                     (Z.of_nat (pos / 2)))
          end).
Proof.
  intros Hpos Hend Hsize. destruct r as [frags e]. simpl in Hend. subst e.
  unfold Serve, Serve_fuel, contents in *. simpl r_frags in *.
  destruct (Serve_loop_any_writer ChunkSize Hpos (length (concat frags))
              key w frags 0 merkle.NewTree
              (replicate (ChunkSize + MaxVarintLen64) 0)
              (replicate (32 + MaxVarintLen64) 0)) as (rest & Hloop);
    [lia | simpl; lia | apply length_replicate | apply length_replicate |].
  exists (mkReader rest None). etrans; [exact Hloop|].
  unfold cipherRoot, merkle.root_of, chunks.
  pose proof (length_chunks_upto ChunkSize (length (concat frags))
                (concat frags)) as Hlen.
  rewrite leaves_from_imap by (simpl; lia). reflexivity.
Qed.

Lemma Serve_any_writer_witness :
  (0 < ChunkSize8K)%nat /\
  r_end (mkReader [[65; 66]; [67]] None) = None /\
  Z.of_nat (length (contents (mkReader [[65; 66]; [67]] None))) < 2 ^ 64 /\
  exists r',
    Serve ChunkSize8K (mkLimitWriter 33 []) (mkReader [[65; 66]; [67]] None)
      (replicate 32 1) =
    Some ((write_all (mkLimitWriter 33 [])
             (writes_from (replicate 32 1) 0
                (chunks ChunkSize8K
                   (contents (mkReader [[65; 66]; [67]] None)))) 0).1,
          r',
          match (write_all (mkLimitWriter 33 [])
                   (writes_from (replicate 32 1) 0
                      (chunks ChunkSize8K
                         (contents (mkReader [[65; 66]; [67]] None)))) 0).2
          with
          | None =>
              Ok (cipherRoot ChunkSize8K (replicate 32 1)
                    (contents (mkReader [[65; 66]; [67]] None)))
          | Some (pos, e) =>
              Err (Wrapf e (if Nat.even pos then "writing clear hash"
                            else "writing cipher chunk")
                     (Z.of_nat (pos / 2)))
          end).
Proof.
  split; [unfold ChunkSize8K; lia|]. split; [reflexivity|].
  split; [vm_compute; reflexivity|].
  apply (Serve_any_writer ChunkSize8K (mkLimitWriter 33 [])
           (mkReader [[65; 66]; [67]] None) (replicate 32 1));
    [unfold ChunkSize8K; lia | reflexivity | vm_compute; reflexivity].
Defined.

(** On a disk with room for 33 bytes, the cipher chunk of "ABC" does not
    fit. *)
Example Serve_disk_full :
  (fun run : LimitWriter * Reader * result bytes =>
     (lw_room run.1.1, length (lw_out run.1.1), run.2)) <$>
  Serve ChunkSize8K (mkLimitWriter 33 []) (mkReader [[65; 66]; [67]] None)
    (replicate 32 1) =
  Some (0%nat, 33%nat,
        Err (Wrapf (ErrIO "short write") "writing cipher chunk" 0)).
Proof. vm_compute. reflexivity. Qed.

(** ** The size and the framing of the stream *)

Lemma chunks_upto_enough (ChunkSize fuel : nat) (data : bytes) :
  (0 < ChunkSize)%nat -> (length data <= fuel)%nat ->
  chunks_upto ChunkSize fuel data = chunks ChunkSize data.
Proof.
  intros Hpos. unfold chunks.
  assert (Hgen : forall f1 f2 d, (length d <= f1)%nat -> (length d <= f2)%nat ->
            chunks_upto ChunkSize f1 d = chunks_upto ChunkSize f2 d).
  { induction f1 as [|f1 IH]; intros f2 d H1 H2.
    - destruct d; [|simpl in H1; lia]. destruct f2; reflexivity.
    - destruct d as [|b d]; [destruct f2; reflexivity|].
      destruct f2 as [|f2]; [simpl in H2; lia|].
      cbn [chunks_upto]. f_equal.
      apply IH; rewrite length_drop; simpl in *; lia. }
  intros Hfuel. apply Hgen; lia.
Qed.

Lemma length_chunks_upto_ceil (ChunkSize fuel : nat) (data : bytes) :
  (0 < ChunkSize)%nat -> (length data <= fuel)%nat ->
  length (chunks_upto ChunkSize fuel data) =
  ((length data + (ChunkSize - 1)) / ChunkSize)%nat.
Proof.
  intros Hpos. revert data.
  induction fuel as [|fuel IH]; intros data Hfuel.
  - destruct data; [|simpl in Hfuel; lia]. simpl.
    symmetry. apply Nat.div_small. lia.
  - destruct (decide (data = [])) as [->|Hdata].
    + simpl. symmetry. apply Nat.div_small. lia.
    + assert (Hlen : (0 < length data)%nat)
        by (destruct data; [congruence | simpl; lia]).
      rewrite chunks_upto_cons by exact Hdata. cbn [length].
      rewrite IH by (rewrite length_drop; lia).
      rewrite length_drop.
      destruct (decide (length data <= ChunkSize)%nat) as [Hle|Hgt].
      * replace (length data - ChunkSize)%nat with 0%nat by lia.
        rewrite (Nat.div_small (0 + (ChunkSize - 1))) by lia.
        cbn [Nat.add].
        apply (Nat.div_unique _ _ 1 (length data - 1)); lia.
      * symmetry.
        replace (length data + (ChunkSize - 1))%nat
          with ((length data - ChunkSize + (ChunkSize - 1)) + 1 * ChunkSize)%nat
          by lia.
        rewrite Nat.div_add by lia. lia.
Qed.

(** Any framing [g] that puts 32 bytes in front of a chunk. *)
Lemma length_framed (g : nat -> bytes -> bytes) (cs : list bytes) :
  (forall i c, length (g i c) = (32 + length c)%nat) ->
  length (concat (imap g cs)) = (32 * length cs + length (concat cs))%nat.
Proof.
  revert g. induction cs as [|c cs IH]; intros g Hg; [reflexivity|].
  cbn [imap concat length]. rewrite !length_app, Hg, IH.
  - lia.
  - intros i c'. apply Hg.
Qed.

Section Framing.

Variable ChunkSize : nat.
Hypothesis ChunkSize_pos : (0 < ChunkSize)%nat.

Lemma frames_of_framed (fuel fuel' : nat) (g : nat -> bytes -> bytes)
    (data : bytes) :
  (forall i c, length (g i c) = (32 + length c)%nat) ->
  (length data <= fuel)%nat ->
  (length (concat (imap g (chunks_upto ChunkSize fuel data))) <= fuel')%nat ->
  chunks_upto (32 + ChunkSize) fuel'
    (concat (imap g (chunks_upto ChunkSize fuel data))) =
  imap g (chunks_upto ChunkSize fuel data).
Proof.
  revert fuel' g data.
  induction fuel as [|fuel IH]; intros fuel' g data Hg Hfuel Hfuel'.
  - destruct data; [|simpl in Hfuel; lia]. destruct fuel'; reflexivity.
  - destruct (decide (data = [])) as [->|Hdata];
      [destruct fuel'; reflexivity|].
    assert (Hlen : (0 < length data)%nat)
      by (destruct data; [congruence | simpl; lia]).
    rewrite chunks_upto_cons in * by exact Hdata.
    cbn [imap concat] in *.
    assert (Hne : g 0%nat (take ChunkSize data) ++
                  concat (imap (g ∘ S)
                    (chunks_upto ChunkSize fuel (drop ChunkSize data))) <> []).
    { intros Hnil. apply (f_equal length) in Hnil.
      rewrite length_app, Hg in Hnil. simpl in Hnil. lia. }
    destruct fuel' as [|fuel''].
    { exfalso. rewrite length_app, Hg in Hfuel'. lia. }
    rewrite chunks_upto_cons by exact Hne.
    destruct (decide (length data <= ChunkSize)%nat) as [Hle|Hgt].
    + assert (Hdrop : drop ChunkSize data = []).
      { apply nil_length_inv. rewrite length_drop. lia. }
      rewrite Hdrop.
      assert (Hnil : chunks_upto ChunkSize fuel [] = [])
        by (destruct fuel; reflexivity).
      rewrite Hnil. cbn [imap concat]. rewrite app_nil_r.
      rewrite take_ge by (rewrite Hg, length_take; lia).
      rewrite drop_ge by (rewrite Hg, length_take; lia).
      f_equal. destruct fuel''; reflexivity.
    + assert (Hfull : length (g 0%nat (take ChunkSize data)) =
                      (32 + ChunkSize)%nat)
        by (rewrite Hg, length_take; lia).
      rewrite take_app_length' by (symmetry; exact Hfull).
      rewrite drop_app_length' by (symmetry; exact Hfull).
      f_equal. apply IH.
      * intros i c. apply Hg.
      * rewrite length_drop. lia.
      * rewrite length_app, Hfull in Hfuel'. lia.
Qed.

End Framing.

Lemma length_record (key : bytes) (i : Z) (c : bytes) :
  length (record key i c) = (32 + length c)%nat.
Proof.
  unfold record, clearHash.
  rewrite length_app, length_LeafHash, length_cipherChunk. reflexivity.
Qed.

(** X3.  The size and the framing of the stream.  The stream of a file of [n]
    bytes has [32 * ceil (n / ChunkSize) + n] bytes, and cutting it every
    [32 + ChunkSize] bytes gives back the records, one per chunk, the last
    one shorter when the file does not end on a chunk boundary. *)
Theorem Serve_stream_framing (ChunkSize : nat) (r : Reader) (key : bytes) :
  (0 < ChunkSize)%nat ->
  r_end r = None ->
  Z.of_nat (length (contents r)) < 2 ^ 64 ->
  exists log r' root,
    Serve ChunkSize ([] : WriteLog) r key = Some (log, r', Ok root) /\
    length (concat log) =
      (32 * ((length (contents r) + (ChunkSize - 1)) / ChunkSize) +
       length (contents r))%nat /\
    chunks (32 + ChunkSize) (concat log) =
      imap (fun i c => record key (Z.of_nat i) c)
           (chunks ChunkSize (contents r)).
Proof.
  intros Hpos Hend Hsize.
  destruct (Serve_spec ChunkSize r key Hpos Hend) as (r' & Hserve).
  eexists _, r', _. split; [exact Hserve|].
  pose proof (length_chunks ChunkSize (contents r)) as Hn.
  rewrite writes_from_concat by lia.
  change (fun (i : nat) (c : bytes) => record key (0 + Z.of_nat i) c)
    with (fun (i : nat) (c : bytes) => record key (Z.of_nat i) c).
  assert (Hg : forall (i : nat) (c : bytes),
             length (record key (Z.of_nat i) c) = (32 + length c)%nat)
    by (intros; apply length_record).
  split.
  - rewrite (length_framed (fun i c => record key (Z.of_nat i) c))
      by exact Hg.
    unfold chunks.
    rewrite length_chunks_upto_ceil by (try exact Hpos; lia).
    destruct (chunks_upto_concat ChunkSize (length (contents r)) (contents r))
      as [Hcat _]; [exact Hpos | lia |].
    rewrite Hcat. reflexivity.
  - unfold chunks.
    apply (frames_of_framed ChunkSize Hpos); [exact Hg | lia | lia].
Qed.

Lemma Serve_stream_framing_witness :
  (0 < 4)%nat /\
  r_end six_byte_reader = None /\
  Z.of_nat (length (contents six_byte_reader)) < 2 ^ 64 /\
  exists log r' root,
    Serve 4 ([] : WriteLog) six_byte_reader (replicate 32 1) =
      Some (log, r', Ok root) /\
    length (concat log) =
      (32 * ((length (contents six_byte_reader) + (4 - 1)) / 4) +
       length (contents six_byte_reader))%nat /\
    chunks (32 + 4) (concat log) =
      imap (fun i c => record (replicate 32 1) (Z.of_nat i) c)
           (chunks 4 (contents six_byte_reader)).
Proof.
  split; [lia|]. split; [reflexivity|]. split; [vm_compute; reflexivity|].
  apply (Serve_stream_framing 4 six_byte_reader (replicate 32 1));
    [lia | reflexivity | vm_compute; reflexivity].
Defined.

(** ** [Serve] returns *)

Section ServeTotal.

Variable ChunkSize : nat.
Hypothesis ChunkSize_pos : (0 < ChunkSize)%nat.
Context {W : Type} `{Writer W}.

Lemma Serve_loop_total (fuel : nat) (key : bytes) (w : W) (frags : list bytes)
    (e : option error) (index : Z) (tree : merkle.Tree) (cbuf hbuf : bytes) :
  e <> Some ErrUnexpectedEOF ->
  (length (concat frags) <= fuel)%nat ->
  length cbuf = (ChunkSize + MaxVarintLen64)%nat ->
  length hbuf = (32 + MaxVarintLen64)%nat ->
  exists out,
    Serve_loop ChunkSize (S fuel) key w (mkReader frags e) index tree cbuf hbuf
    = Some out.
Proof.
  intros He. revert w frags index tree cbuf hbuf.
  induction fuel as [|fuel IH]; intros w frags index tree cbuf hbuf
    Hfuel Hcbuf Hhbuf;
    destruct (ReadFull_spec frags e ChunkSize) as (rest & Hrest & Hread).
  - cbn [Serve_loop]. rewrite Hread.
    replace (length (concat frags)) with 0%nat by lia.
    replace (0 <? ChunkSize)%nat with true
      by (symmetry; apply Nat.ltb_lt; lia).
    destruct e as [[]|]; try congruence; eexists; reflexivity.
  - destruct (length (concat frags) <? ChunkSize)%nat eqn:Hshort.
    + assert (Hcases :
        (exists e0, e = Some e0 /\ e0 <> EOF /\ e0 <> ErrUnexpectedEOF) \/
        match e with
        | None | Some EOF =>
            Some (if (length (concat frags) =? 0)%nat
                  then EOF else ErrUnexpectedEOF)
        | Some e' => Some e'
        end = Some (if (length (concat frags) =? 0)%nat
                    then EOF else ErrUnexpectedEOF)).
      { destruct e as [[]|]; try congruence; try (right; reflexivity);
          left; eexists; (split; [reflexivity|]); split; discriminate. }
      destruct Hcases as [(e0 & -> & Heof & Hueof) | Herr].
      { cbn [Serve_loop]. rewrite Hread, ?Hshort.
        destruct e0; try congruence; eexists; reflexivity. }
      rewrite ?Hshort, Herr in Hread.
      destruct (length (concat frags) =? 0)%nat eqn:Hzero.
      { cbn [Serve_loop]. rewrite Hread. eexists. reflexivity. }
      destruct (Serve_loop_pass ChunkSize (S fuel) key w
                  (mkReader frags e) (mkReader rest e)
                  index tree cbuf hbuf (take ChunkSize (concat frags))
                  (Some ErrUnexpectedEOF))
        as (cbuf' & hbuf' & Hcbuf' & Hhbuf' & Hpass);
        [exact Hread | right; reflexivity | rewrite length_take; lia
        | exact Hcbuf | exact Hhbuf |].
      rewrite Hpass.
      destruct (Write w _) as [w1 [e1|]]; [eexists; reflexivity|].
      destruct (Write w1 _) as [w2 [e2|]]; [eexists; reflexivity|].
      apply IH; [|exact Hcbuf' | exact Hhbuf'].
      rewrite Hrest, length_drop. apply Nat.ltb_lt in Hshort. lia.
    + rewrite ?Hshort in Hread.
      destruct (Serve_loop_pass ChunkSize (S fuel) key w
                  (mkReader frags e) (mkReader rest e)
                  index tree cbuf hbuf (take ChunkSize (concat frags)) None)
        as (cbuf' & hbuf' & Hcbuf' & Hhbuf' & Hpass);
        [exact Hread | left; reflexivity | rewrite length_take; lia
        | exact Hcbuf | exact Hhbuf |].
      rewrite Hpass.
      destruct (Write w _) as [w1 [e1|]]; [eexists; reflexivity|].
      destruct (Write w1 _) as [w2 [e2|]]; [eexists; reflexivity|].
      apply IH; [|exact Hcbuf' | exact Hhbuf'].
      rewrite Hrest, length_drop. apply Nat.ltb_ge in Hshort. lia.
Qed.

(** [Serve] returns on every reader that does not fail with
    [io.ErrUnexpectedEOF], a file for one. *)
Lemma Serve_total (w : W) (r : Reader) (key : bytes) :
  r_end r <> Some ErrUnexpectedEOF ->
  exists out, Serve ChunkSize w r key = Some out.
Proof.
  destruct r as [frags e]. unfold Serve, Serve_fuel, contents.
  simpl r_frags. simpl r_end.
  intros He. apply Serve_loop_total;
    [exact He | lia | apply length_replicate | apply length_replicate].
Qed.

Lemma Serve_file_total (w : W) (f : File) (key : bytes) :
  exists out, Serve ChunkSize w (file_reader f) key = Some out.
Proof.
  apply Serve_total. unfold file_reader. simpl.
  destruct (f_err f); discriminate.
Qed.

End ServeTotal.

(** * The record store, record by record *)

Lemma getRecord_lookup (db1 db2 : DB) (id : bytes) (rec : serverRecord) :
  records_of db1 !! id = records_of db2 !! id ->
  getRecord db1 id = Ok rec -> getRecord db2 id = Ok rec.
Proof.
  intros Hsame Hget.
  destruct db1 as [| |m1]; [discriminate Hget | discriminate Hget|].
  simpl in Hsame, Hget.
  destruct (m1 !! id) as [bu|] eqn:Hbu; [|discriminate Hget].
  destruct db2 as [| |m2]; simpl in Hsame;
    [rewrite lookup_empty in Hsame; discriminate Hsame
    |rewrite lookup_empty in Hsame; discriminate Hsame|].
  simpl. rewrite <- Hsame. exact Hget.
Qed.

Lemma storeRecord_frame (db db' : DB) (rec : serverRecord) (id : bytes) :
  storeRecord db rec = Ok db' ->
  id <> transferID rec ->
  records_of db' !! id = records_of db !! id.
Proof.
  intros Hstore Hne.
  destruct (storeRecord_written db db' rec Hstore) as (bu & -> & _).
  simpl. apply lookup_insert_ne. congruence.
Qed.

(** X4.  Storing a record leaves every other record as it was: a transfer
    ID other than the one stored is bound to the same bucket as before,
    and [getRecord] returns for it what it returned before, the same
    record or the same error.  Only on a store that had no bucket of
    records yet, where no record could be found before either, does the
    error change: from "no root bucket" or "no records bucket" to "no
    record bucket". *)
Theorem storeRecord_other_records (db db' : DB) (rec : serverRecord)
    (id : bytes) :
  storeRecord db rec = Ok db' ->
  id <> transferID rec ->
  records_of db' !! id = records_of db !! id /\
  (forall rec0, getRecord db' id = Ok rec0 <-> getRecord db id = Ok rec0) /\
  (forall m, db = Records m -> getRecord db' id = getRecord db id) /\
  (db = NoRoot ->
   getRecord db id = Err (ErrIO "no root bucket") /\
   getRecord db' id = Err (ErrIO "no record bucket")) /\
  (db = NoRecords ->
   getRecord db id = Err (ErrIO "no records bucket") /\
   getRecord db' id = Err (ErrIO "no record bucket")).
Proof.
  intros Hstore Hne.
  pose proof (storeRecord_frame db db' rec id Hstore Hne) as Hsame.
  split; [exact Hsame|]. split.
  { intros rec0.
    split; apply getRecord_lookup; [exact Hsame | symmetry; exact Hsame]. }
  destruct (storeRecord_written db db' rec Hstore) as (bu & -> & _).
  simpl in Hsame. split; [|split].
  - intros m ->. cbn [records_of] in *. unfold getRecord.
    rewrite Hsame. reflexivity.
  - intros ->. split; [reflexivity|]. cbn [records_of] in *.
    unfold getRecord. rewrite Hsame, lookup_empty. reflexivity.
  - intros ->. split; [reflexivity|]. cbn [records_of] in *.
    unfold getRecord. rewrite Hsame, lookup_empty. reflexivity.
Qed.

Lemma storeRecord_other_records_witness :
  storeRecord sample_store_one sample_record = Ok sample_store /\
  transferID sample_other_record <> transferID sample_record /\
  (exists rec0,
     getRecord sample_store_one (transferID sample_other_record) = Ok rec0) /\
  records_of sample_store !! transferID sample_other_record =
    records_of sample_store_one !! transferID sample_other_record /\
  (forall rec0,
     getRecord sample_store (transferID sample_other_record) = Ok rec0 <->
     getRecord sample_store_one (transferID sample_other_record) = Ok rec0) /\
  (forall m, sample_store_one = Records m ->
     getRecord sample_store (transferID sample_other_record) =
     getRecord sample_store_one (transferID sample_other_record)) /\
  (sample_store_one = NoRoot ->
   getRecord sample_store_one (transferID sample_other_record) =
     Err (ErrIO "no root bucket") /\
   getRecord sample_store (transferID sample_other_record) =
     Err (ErrIO "no record bucket")) /\
  (sample_store_one = NoRecords ->
   getRecord sample_store_one (transferID sample_other_record) =
     Err (ErrIO "no records bucket") /\
   getRecord sample_store (transferID sample_other_record) =
     Err (ErrIO "no record bucket")).
Proof.
  split; [vm_compute; reflexivity|].
  split; [vm_compute; discriminate|].
  split; [eexists; vm_compute; reflexivity|].
  apply (storeRecord_other_records sample_store_one sample_store
           sample_record (transferID sample_other_record));
    [vm_compute; reflexivity | vm_compute; discriminate].
Defined.

(** * Start-up, exactly *)

Lemma length_enqueue (q : list (Z * Action)) (dueAt : Z) (a : Action) :
  length (enqueue q dueAt a) = S (length q).
Proof.
  induction q as [|[t b] q IH]; simpl; [reflexivity|].
  destruct (dueAt <? t); simpl; [reflexivity|]. rewrite IH. reflexivity.
Qed.

(** What [getRecord] never reads back. *)
Lemma getRecord_unread (db : DB) (id : bytes) (rec : serverRecord) :
  getRecord db id = Ok rec ->
  Buyer rec = [] /\ Seller rec = [] /\ Anchor1 rec = [] /\
  Anchor2 rec = [] /\ OutputID rec = [] /\ transferID rec = copy32 id.
Proof.
  intros Hget. unfold getRecord in Hget.
  repeat case_match; simplify_eq. repeat split.
Qed.

Lemma queue_all_exact (ids : list bytes) (s s' : server) :
  queue_all s ids = Ok s' ->
  db s' = db s /\ dir s' = dir s /\ seller s' = seller s /\
  length (o s') = (length (o s) + length ids)%nat /\
  (Sorted (fun x y => x.1 <= y.1) (o s) ->
   Sorted (fun x y => x.1 <= y.1) (o s')) /\
  forall e, e ∈ o s' ->
    e ∈ o s \/
    exists id rec,
      id ∈ ids /\ getRecord (db s) id = Ok rec /\
      e = (RefundDeadline rec, ClaimPaymentAction rec (seller s)).
Proof.
  revert s. induction ids as [|id ids IH]; intros s Hall.
  - simpl in Hall. injection Hall as <-.
    repeat split; [simpl; lia | auto | auto].
  - cbn [queue_all] in Hall. unfold queueClaimPayment in Hall.
    destruct (getRecord (db s) id) as [rec|e] eqn:Hrec;
      cbn [mbind result_bind] in Hall; [|discriminate Hall].
    destruct (IH _ Hall) as (Hdb & Hdir & Hseller & Hlen & Hsorted & Hin).
    simpl in Hdb, Hdir, Hseller, Hlen, Hsorted, Hin.
    split; [exact Hdb|]. split; [exact Hdir|]. split; [exact Hseller|].
    split; [rewrite Hlen, length_enqueue; simpl; lia|].
    split; [intros Hs; apply Hsorted, enqueue_sorted, Hs|].
    intros e He. destruct (Hin e He) as [Hold | (id' & rec' & Hid & Hget & ->)].
    + apply elem_of_enqueue in Hold as [-> | Hold]; [|left; exact Hold].
      right. exists id, rec. split; [left|]. split; [exact Hrec | reflexivity].
    + right. exists id', rec'. split; [right; exact Hid|].
      split; [exact Hget | reflexivity].
Qed.

Lemma queue_all_fatal (ids : list bytes) (s : server) :
  (exists e, queue_all s ids = Err e) <->
  exists id, id ∈ ids /\ exists e, getRecord (db s) id = Err e.
Proof.
  revert s. induction ids as [|id ids IH]; intros s.
  - simpl. split; [intros (e & He); discriminate He|].
    intros (id & Hin & _). inversion Hin.
  - cbn [queue_all]. unfold queueClaimPayment.
    destruct (getRecord (db s) id) as [rec|e] eqn:Hrec;
      cbn [mbind result_bind].
    + rewrite IH. simpl. split.
      * intros (id' & Hin & He). exists id'. split; [right; exact Hin | exact He].
      * intros (id' & Hin & e & He).
        apply elem_of_cons in Hin as [-> | Hin];
          [rewrite Hrec in He; discriminate He|].
        exists id'. split; [exact Hin|]. exists e. exact He.
    + split; [|intros _; exists e; reflexivity].
      intros _. exists id. split; [left|]. exists e. exact Hrec.
Qed.

Lemma enqueue_Permutation (q : list (Z * Action)) (dueAt : Z) (a : Action) :
  enqueue q dueAt a ≡ₚ (dueAt, a) :: q.
Proof.
  induction q as [|[t b] q IH]; simpl; [reflexivity|].
  destruct (dueAt <? t); [reflexivity|].
  rewrite IH. apply Permutation_swap.
Qed.

(** The queue gains the entry of each record read, and nothing else. *)
Lemma queue_all_Permutation (ids : list bytes) (s s' : server) :
  queue_all s ids = Ok s' ->
  exists recs,
    Forall2 (fun id rec => getRecord (db s) id = Ok rec) ids recs /\
    o s' ≡ₚ (claim_entry (seller s) <$> recs) ++ o s.
Proof.
  revert s. induction ids as [|id ids IH]; intros s Hall.
  - simpl in Hall. injection Hall as <-. exists []. split; [constructor|].
    reflexivity.
  - cbn [queue_all] in Hall. unfold queueClaimPayment in Hall.
    destruct (getRecord (db s) id) as [rec|e] eqn:Hrec;
      cbn [mbind result_bind] in Hall; [|discriminate Hall].
    destruct (IH _ Hall) as (recs & Hrecs & Hperm). simpl in Hrecs, Hperm.
    exists (rec :: recs). split; [constructor; assumption|].
    rewrite Hperm, enqueue_Permutation. cbn [fmap list_fmap].
    symmetry. apply Permutation_middle.
Qed.

(** X5.  When start-up succeeds, the deadline queue holds exactly one
    claim-payment action for each persisted record and nothing else: the
    persisted transfer IDs are pairwise distinct, [getRecord] reads a
    record for each, and the queue is the list of the entries of these
    records, one for one, in another order, namely by due time; each entry
    is due at the refund deadline [getRecord] read, and the store, the
    content tree and the seller key are as they were given. *)
Theorem serve_queue_exact (database : DB) (content : bytes -> Content)
    (pub : bytes) (s : server) :
  serve database content pub = Ok s ->
  db s = database /\ dir s = content /\ seller s = pub /\
  NoDup (persisted database) /\
  (exists recs,
     Forall2 (fun id rec => getRecord database id = Ok rec)
       (persisted database) recs /\
     o s ≡ₚ claim_entry pub <$> recs) /\
  length (o s) = length (persisted database) /\
  Sorted (fun x y => x.1 <= y.1) (o s).
Proof.
  intros Hserve. unfold serve in Hserve.
  destruct (queue_all_exact _ _ _ Hserve)
    as (Hdb & Hdir & Hseller & Hlen & Hsorted & _).
  destruct (queue_all_Permutation _ _ _ Hserve) as (recs & Hrecs & Hperm).
  simpl in Hdb, Hdir, Hseller, Hlen, Hsorted, Hrecs, Hperm.
  split; [exact Hdb|]. split; [exact Hdir|]. split; [exact Hseller|].
  split; [apply NoDup_fst_map_to_list|].
  split.
  { exists recs. split; [exact Hrecs|]. rewrite Hperm, app_nil_r. reflexivity. }
  split; [exact Hlen|]. apply Hsorted. constructor.
Qed.

Lemma serve_queue_exact_witness :
  serve sample_store sample_content [7] =
    Ok (ok_or sample_server (serve sample_store sample_content [7])) /\
  length (persisted sample_store) = 2%nat /\
  db (ok_or sample_server (serve sample_store sample_content [7])) =
    sample_store /\
  dir (ok_or sample_server (serve sample_store sample_content [7])) =
    sample_content /\
  seller (ok_or sample_server (serve sample_store sample_content [7])) =
    [7] /\
  NoDup (persisted sample_store) /\
  (exists recs,
     Forall2 (fun id rec => getRecord sample_store id = Ok rec)
       (persisted sample_store) recs /\
     o (ok_or sample_server (serve sample_store sample_content [7]))
       ≡ₚ claim_entry [7] <$> recs) /\
  length (o (ok_or sample_server (serve sample_store sample_content [7]))) =
    length (persisted sample_store) /\
  Sorted (fun x y => x.1 <= y.1)
    (o (ok_or sample_server (serve sample_store sample_content [7]))).
Proof.
  split; [vm_compute; reflexivity|].
  split; [vm_compute; reflexivity|].
  apply (serve_queue_exact sample_store sample_content [7]
           (ok_or sample_server (serve sample_store sample_content [7]))).
  vm_compute. reflexivity.
Defined.

(** X6.  Start-up stops on an error exactly when some persisted record
    cannot be read back by [getRecord]: one bucket with an unparsable
    amount or deadline keeps the server from starting. *)
Theorem serve_fatal_iff (database : DB) (content : bytes -> Content)
    (pub : bytes) :
  (exists e, serve database content pub = Err e) <->
  exists id, id ∈ persisted database /\ exists e, getRecord database id = Err e.
Proof. unfold serve. apply queue_all_fatal. Qed.

(** A bucket without an amount: start-up fails on it. *)
Example serve_fatal_on_empty_bucket :
  serve (Records {[ [1] := ∅ ]}) sample_content [7] =
  Err (ErrIO "cannot parse amount in record").
Proof. vm_compute. reflexivity. Qed.

(** X7.  The claims queued at start-up have no buyer, no anchors and no
    output ID, whatever was stored: [getRecord] reads back none of them,
    although [storeRecord] writes them. *)
Theorem serve_requeued_claims_forget_buyer (database : DB)
    (content : bytes -> Content) (pub : bytes) (s : server) (dueAt : Z)
    (rec : serverRecord) (who : bytes) :
  serve database content pub = Ok s ->
  (dueAt, ClaimPaymentAction rec who) ∈ o s ->
  Buyer rec = [] /\ Seller rec = [] /\ Anchor1 rec = [] /\
  Anchor2 rec = [] /\ OutputID rec = [].
Proof.
  intros Hserve Hin. unfold serve in Hserve.
  destruct (queue_all_exact _ _ _ Hserve) as (_ & _ & _ & _ & _ & Hall).
  destruct (Hall _ Hin) as [Hnil | (id & rec' & _ & Hget & Heq)];
    [inversion Hnil|].
  injection Heq as _ -> _.
  destruct (getRecord_unread _ _ _ Hget) as (? & ? & ? & ? & ? & _).
  repeat split; assumption.
Qed.

Lemma serve_requeued_claims_forget_buyer_witness :
  Buyer sample_revealed_record = [9] /\
  serve (ok_or NoRoot (storeRecord NoRoot sample_revealed_record))
    sample_content [7] =
    Ok (ok_or sample_server
          (serve (ok_or NoRoot (storeRecord NoRoot sample_revealed_record))
             sample_content [7])) /\
  (1600003000000000000,
   ClaimPaymentAction
     (ok_or sample_record
        (getRecord (ok_or NoRoot (storeRecord NoRoot sample_revealed_record))
           (replicate 32 2)))
     [7])
  ∈ o (ok_or sample_server
         (serve (ok_or NoRoot (storeRecord NoRoot sample_revealed_record))
            sample_content [7])) /\
  Buyer (ok_or sample_record
           (getRecord (ok_or NoRoot (storeRecord NoRoot sample_revealed_record))
              (replicate 32 2))) = [].
Proof.
  split; [reflexivity|].
  split; [vm_compute; reflexivity|].
  split; [vm_compute; constructor|].
  apply (serve_requeued_claims_forget_buyer
           (ok_or NoRoot (storeRecord NoRoot sample_revealed_record))
           sample_content [7]
           (ok_or sample_server
              (serve (ok_or NoRoot (storeRecord NoRoot sample_revealed_record))
                 sample_content [7]))
           1600003000000000000
           (ok_or sample_record
              (getRecord
                 (ok_or NoRoot (storeRecord NoRoot sample_revealed_record))
                 (replicate 32 2)))
           [7]);
    [vm_compute; reflexivity | vm_compute; constructor].
Defined.

(** * The request handler, end to end *)

(** [strconv.ParseInt(s, 10, 64)] returns an [int64]. *)
Lemma ParseInt_range (s : string) (a : Z) :
  ParseInt s = Some a -> - 2 ^ 63 <= a < 2 ^ 63.
Proof.
  unfold ParseInt. intros Hp.
  destruct s as [|c rest]; [discriminate Hp|].
  destruct (if (Ascii.eqb c "+" || Ascii.eqb c "-")%bool then rest
            else String c rest) as [|c' body'] eqn:Hbody;
    [discriminate Hp|].
  destruct (digits (String c' body') 0) as [un|] eqn:Hun; [|discriminate Hp].
  apply digits_nonneg in Hun; [|lia].
  destruct (Ascii.eqb c "-").
  - destruct (un <=? 2 ^ 63) eqn:Hle; [|discriminate Hp].
    injection Hp as <-. apply Z.leb_le in Hle. lia.
  - destruct (un <? 2 ^ 63) eqn:Hlt; [|discriminate Hp].
    injection Hp as <-. apply Z.ltb_lt in Hlt. lia.
Qed.

(** A run on the log that returns a root read the whole file. *)
Lemma Serve_log_ok (ChunkSize : nat) (f : File) (r' : Reader) (key : bytes)
    (log : WriteLog) (root : bytes) :
  (0 < ChunkSize)%nat ->
  Z.of_nat (length (contents f)) < 2 ^ 64 ->
  Serve ChunkSize ([] : WriteLog) (file_reader f) key
    = Some (log, r', Ok root) ->
  log = writes_from key 0 (chunks ChunkSize (contents f)) /\
  root = cipherRoot ChunkSize key (contents f).
Proof.
  intros Hpos Hsize Hrun. destruct (f_err f) as [msg|] eqn:Hend.
  - destruct (Serve_failing_reader ChunkSize (file_reader f) key (ErrIO msg))
      as (log' & r'' & e & Hfail);
      [exact Hpos | unfold file_reader; simpl; rewrite Hend; reflexivity
      | discriminate | discriminate | exact Hsize |].
    rewrite Hfail in Hrun. discriminate Hrun.
  - destruct (Serve_imap ChunkSize (file_reader f) key) as (r'' & Hok);
      [exact Hpos | unfold file_reader; simpl; rewrite Hend; reflexivity
      | exact Hsize |].
    rewrite Hok in Hrun. injection Hrun as <- _ <-. split; reflexivity.
Qed.

(** A stream that was sent, and the record stored with it. *)
Lemma server_serve_sent (ChunkSize : nat) (s s' : server)
    (env : Env) (req : Request) (id contentType body : bytes) :
  (0 < ChunkSize)%nat ->
  (forall root f t,
     dir s root = Opened f t -> Z.of_nat (length (contents f)) < 2 ^ 64) ->
  server_serve ChunkSize s env req = Some (Sent id contentType body, s') ->
  exists clearRoot f key a assetID rv rf rec,
    DecodeString (clearroot req) = Some clearRoot /\
    dir s clearRoot = Opened f (Ok contentType) /\
    rand_key env = Ok key /\
    rand_transferID env = Ok id /\
    ParseInt (amount req) = Some a /\
    DecodeString (assetid req) = Some assetID /\
    ParseUint (revealdeadline req) = Some rv /\
    ParseUint (refunddeadline req) = Some rf /\
    body = concat (imap (fun i c => record key (Z.of_nat i) c)
                     (chunks ChunkSize (contents f))) /\
    getRecord (db s') id = Ok rec /\
    Key rec = key /\
    ClearRoot rec = clearRoot /\
    CipherRoot rec = cipherRoot ChunkSize key (contents f) /\
    Amount rec = a /\
    AssetID rec = assetID /\
    RevealDeadline rec = FromMillis (Millis (FromMillis rv)) /\
    RefundDeadline rec = FromMillis (Millis (FromMillis rf)).
Proof.
  intros Hpos Hsize Hrun. handler_paths Hrun.
  match goal with
  | Hdir : dir s ?c = Opened ?f _,
    Hserve : Serve _ _ (file_reader ?f) ?k = Some (?log, _, Ok ?root),
    Hstore : storeRecord _ _ = Ok _,
    Hamount : ParseInt _ = Some ?a |- _ =>
      pose proof (Hsize _ _ _ Hdir) as Hlen;
      destruct (Serve_log_ok _ _ _ _ _ _ Hpos Hlen Hserve) as [-> ->];
      destruct (storeRecord_written _ _ _ Hstore)
        as (bu & -> & Ha & Hasset & Hclear & Hcipher & Hrv & Hrf & Hkey);
      pose proof (ParseInt_range _ _ Hamount) as Hrange;
      simpl in Ha, Hasset, Hclear, Hcipher, Hrv, Hrf, Hkey
  end.
  eexists _, _, _, _, _, _, _, _.
  do 8 (split; [first [reflexivity | eassumption]|]).
  split.
  { pose proof (length_chunks ChunkSize (contents f)).
    rewrite writes_from_concat by lia. reflexivity. }
  split.
  { simpl. eapply getRecord_bucket;
      [apply lookup_insert_eq | exact Ha | exact Hrv | exact Hrf]. }
  simpl. rewrite Varint_PutVarint by exact Hrange.
  repeat split; assumption.
Qed.

(** X8.  What the handler stores is what it streamed.  When the handler
    sends a stream, the body is the sequence of records of the content
    file under the fresh key, and the record stored under the transfer ID
    of the response holds that key, the clear root, amount and asset ID of
    the request, and as cipher root the root of the cipher tree of the
    stream sent. *)
Theorem server_serve_stores_stream (ChunkSize : nat) (s s' : server)
    (env : Env) (req : Request) (id contentType body : bytes) :
  (0 < ChunkSize)%nat ->
  (forall root f t,
     dir s root = Opened f t -> Z.of_nat (length (contents f)) < 2 ^ 64) ->
  server_serve ChunkSize s env req = Some (Sent id contentType body, s') ->
  exists clearRoot f key a assetID rv rf rec,
    DecodeString (clearroot req) = Some clearRoot /\
    dir s clearRoot = Opened f (Ok contentType) /\
    rand_key env = Ok key /\
    rand_transferID env = Ok id /\
    ParseInt (amount req) = Some a /\
    DecodeString (assetid req) = Some assetID /\
    ParseUint (revealdeadline req) = Some rv /\
    ParseUint (refunddeadline req) = Some rf /\
    body = concat (imap (fun i c => record key (Z.of_nat i) c)
                     (chunks ChunkSize (contents f))) /\
    getRecord (db s') id = Ok rec /\
    Key rec = key /\
    ClearRoot rec = clearRoot /\
    CipherRoot rec = cipherRoot ChunkSize key (contents f) /\
    Amount rec = a /\
    AssetID rec = assetID /\
    RevealDeadline rec = FromMillis (Millis (FromMillis rv)) /\
    RefundDeadline rec = FromMillis (Millis (FromMillis rf)).
Proof. apply server_serve_sent. Qed.

Lemma sample_content_size (root : bytes) (f : File) (t : result bytes) :
  dir sample_server root = Opened f t ->
  Z.of_nat (length (contents f)) < 2 ^ 64.
Proof.
  simpl. unfold sample_content. intros Hdir.
  destruct (bool_decide (root = [171])); [|discriminate Hdir].
  injection Hdir as <- _. vm_compute. reflexivity.
Qed.

Lemma server_serve_stores_stream_witness :
  server_serve ChunkSize8K sample_server sample_env sample_request =
    Some (Sent (replicate 32 2) [116]
            (default [] (stream_sent (response_of sample_run))),
          server_after sample_server sample_run) /\
  exists clearRoot f key a assetID rv rf rec,
    DecodeString (clearroot sample_request) = Some clearRoot /\
    dir sample_server clearRoot = Opened f (Ok [116]) /\
    rand_key sample_env = Ok key /\
    rand_transferID sample_env = Ok (replicate 32 2) /\
    ParseInt (amount sample_request) = Some a /\
    DecodeString (assetid sample_request) = Some assetID /\
    ParseUint (revealdeadline sample_request) = Some rv /\
    ParseUint (refunddeadline sample_request) = Some rf /\
    default [] (stream_sent (response_of sample_run)) =
      concat (imap (fun i c => record key (Z.of_nat i) c)
                (chunks ChunkSize8K (contents f))) /\
    getRecord (db (server_after sample_server sample_run)) (replicate 32 2)
      = Ok rec /\
    Key rec = key /\
    ClearRoot rec = clearRoot /\
    CipherRoot rec = cipherRoot ChunkSize8K key (contents f) /\
    Amount rec = a /\
    AssetID rec = assetID /\
    RevealDeadline rec = FromMillis (Millis (FromMillis rv)) /\
    RefundDeadline rec = FromMillis (Millis (FromMillis rf)).
Proof.
  split; [vm_compute; reflexivity|].
  apply (server_serve_stores_stream ChunkSize8K sample_server
           (server_after sample_server sample_run) sample_env sample_request
           (replicate 32 2) [116]
           (default [] (stream_sent (response_of sample_run))));
    [unfold ChunkSize8K; lia | exact sample_content_size
    | vm_compute; reflexivity].
Defined.

(** X9.  The handler always responds, and whatever it responds it leaves
    the deadline queue, the content tree and the seller key as they were;
    in the store, only the record of the fresh transfer ID can differ from
    before.  (Claims are queued by the reveal-key handler and at start-up,
    never here.) *)
Theorem server_serve_responds (ChunkSize : nat) (s : server) (env : Env)
    (req : Request) :
  (0 < ChunkSize)%nat ->
  exists resp s',
    server_serve ChunkSize s env req = Some (resp, s') /\
    o s' = o s /\ dir s' = dir s /\ seller s' = seller s /\
    forall id, rand_transferID env <> Ok id ->
      records_of (db s') !! id = records_of (db s) !! id.
Proof.
  intros Hpos.
  destruct (server_serve ChunkSize s env req) as [[resp s']|] eqn:Hrun.
  - exists resp, s'. split; [reflexivity|].
    handler_paths Hrun; repeat split; try reflexivity; intros id' Hid; simpl;
      match goal with
      | Hstore : storeRecord _ _ = Ok _ |- _ =>
          apply (storeRecord_frame _ _ _ _ Hstore); simpl; congruence
      end.
  - exfalso. handler_paths Hrun.
    match goal with
    | Hserve : Serve _ _ (file_reader ?f) ?k = None |- _ =>
        destruct (Serve_file_total ChunkSize Hpos ([] : WriteLog) f k)
          as (out & Hout);
        rewrite Hout in Hserve; discriminate Hserve
    end.
Qed.

Lemma server_serve_responds_witness :
  (0 < ChunkSize8K)%nat /\
  exists resp s',
    server_serve ChunkSize8K sample_server sample_env sample_request =
      Some (resp, s') /\
    o s' = o sample_server /\ dir s' = dir sample_server /\
    seller s' = seller sample_server /\
    forall id, rand_transferID sample_env <> Ok id ->
      records_of (db s') !! id = records_of (db sample_server) !! id.
Proof.
  split; [unfold ChunkSize8K; lia|].
  apply (server_serve_responds ChunkSize8K sample_server sample_env
           sample_request).
  unfold ChunkSize8K; lia.
Defined.

(** X10.  The handler never answers "proposed payment rejected":
    [checkPrice] rejects only an amount below 1, and such a request has
    been answered "non-positive amount" before [checkPrice] is called. *)
Theorem checkPrice_never_rejects (ChunkSize : nat) (s s' : server)
    (env : Env) (req : Request) (resp : Response) :
  server_serve ChunkSize s env req = Some (resp, s') ->
  resp <> httpErr StatusBadRequest "proposed payment rejected".
Proof.
  intros Hrun Hresp. subst resp. handler_paths Hrun. lia.
Qed.

Lemma checkPrice_never_rejects_witness :
  server_serve ChunkSize8K sample_server sample_env
    (mkRequest "ab" "0" "00" "1600001200000" "1600003000000") =
    Some (httpErr StatusBadRequest "non-positive amount", sample_server) /\
  httpErr StatusBadRequest "non-positive amount" <>
  httpErr StatusBadRequest "proposed payment rejected".
Proof.
  split; [vm_compute; reflexivity|].
  apply (checkPrice_never_rejects ChunkSize8K sample_server sample_server
           sample_env
           (mkRequest "ab" "0" "00" "1600001200000" "1600003000000")).
  vm_compute. reflexivity.
Defined.

(** * Hexadecimal transfer IDs *)

Lemma hexdigit_hexchar (n : Z) :
  0 <= n < 16 -> hexdigit (hexchar n) = Some n.
Proof.
  intros Hn.
  assert (Hc : In n [0; 1; 2; 3; 4; 5; 6; 7; 8; 9; 10; 11; 12; 13; 14; 15])
    by (simpl; lia).
  simpl in Hc.
  repeat (destruct Hc as [<- | Hc]; [vm_compute; reflexivity|]).
  contradiction.
Qed.

Lemma DecodeString_EncodeToString (b : bytes) :
  Forall (fun x => 0 <= x < 256) b ->
  DecodeString (EncodeToString b) = Some b.
Proof.
  induction 1 as [|x b Hx _ IH]; [reflexivity|].
  cbn [EncodeToString DecodeString].
  rewrite !hexdigit_hexchar, IH
    by (try apply Z.mod_pos_bound; try (split; [apply Z.div_pos | apply Z.div_lt_upper_bound]); lia).
  do 2 f_equal. symmetry. rewrite Z.mul_comm. apply Z.div_mod. lia.
Qed.

(** * The reveal-key handler *)

Section LedgerProperties.

Variable Prog : Type.
Variable buildRevealKey : RevealArgs -> result Prog.
Variable ParseLog : Prog -> option Parsed.
Variable Validate : Prog -> Z -> Z -> result Z.
Variable submitter : Prog -> Z -> Z -> result unit.
Variable buildClaimPayment : Redeem -> result Prog.


(** X12.  The transfer ID the request handler sends, in hexadecimal, with
    a stream is one the reveal-key handler accepts: given it, the
    reveal-key handler finds the record and calls [tredd.RevealKey] with
    the key that stream was encrypted with, its cipher root, and the clear
    root, amount and asset ID of the request. *)
Theorem server_revealKey_after_serve (ChunkSize : nat) (s s1 : server)
    (env : Env) (req : Request) (id contentType body : bytes) (now' : Z)
    (proposal : bytes) :
  (0 < ChunkSize)%nat ->
  (forall root f t,
     dir s root = Opened f t -> Z.of_nat (length (contents f)) < 2 ^ 64) ->
  (forall id, rand_transferID env = Ok id ->
     Forall (fun x => 0 <= x < 256) id) ->
  server_serve ChunkSize s env req = Some (Sent id contentType body, s1) ->
  exists clearRoot f key a assetID rv rf rest,
    DecodeString (clearroot req) = Some clearRoot /\
    dir s clearRoot = Opened f (Ok contentType) /\
    rand_key env = Ok key /\
    ParseInt (amount req) = Some a /\
    DecodeString (assetid req) = Some assetID /\
    ParseUint (revealdeadline req) = Some rv /\
    ParseUint (refunddeadline req) = Some rf /\
    (server_revealKey Prog buildRevealKey ParseLog Validate submitter
       s1 now' (EncodeToString id) (Ok proposal)).2 =
    CallRevealKey
      {| ra_paymentProposal := proposal;
         ra_seller := seller s;
         ra_key := copy32 key;
         ra_amount := a;
         ra_assetID := copy32 assetID;
         ra_clearRoot := copy32 clearRoot;
         ra_cipherRoot := copy32 (cipherRoot ChunkSize key (contents f));
         ra_now := now';
         ra_revealDeadline := FromMillis (Millis (FromMillis rv));
         ra_refundDeadline := FromMillis (Millis (FromMillis rf)) |} :: rest.
Proof.
  intros Hpos Hsize Hbytes Hrun.
  destruct (server_serve_sent _ _ _ _ _ _ _ _ Hpos Hsize Hrun)
    as (clearRoot & f & key & a & assetID & rv & rf & rec & Hclear & Hdir &
        Hkey & Hid & Ha & Hasset & Hrv & Hrf & _ & Hget & Hk & Hc & Hci &
        Hamount & Hassetid & Hreveal & Hrefund).
  assert (Hseller : seller s1 = seller s).
  { clear - Hrun. handler_paths Hrun. reflexivity. }
  exists clearRoot, f, key, a, assetID, rv, rf.
  unfold server_revealKey.
  rewrite DecodeString_EncodeToString by (apply Hbytes; exact Hid).
  rewrite Hget, Hk, Hc, Hci, Hamount, Hassetid, Hreveal, Hrefund, Hseller.
  repeat case_match; eexists; repeat (split; [eassumption|]); reflexivity.
Qed.

(** * The claim callback *)




(** X15.  The store stays one the daemon can start from: if the store is
    one this daemon produced, it still is after the request handler and
    after the reveal-key handler have run, whatever they answered. *)
Theorem handlers_keep_Stored (s : server) :
  Stored (db s) ->
  (forall ChunkSize env req resp s',
     server_serve ChunkSize s env req = Some (resp, s') -> Stored (db s')) /\
  (forall now hdr body reply s' effects,
     server_revealKey Prog buildRevealKey ParseLog Validate submitter
       s now hdr body = (reply, s', effects) -> Stored (db s')).
Proof.
  intros Hstored. split.
  - intros ChunkSize env req resp s' Hrun.
    handler_paths Hrun; try exact Hstored;
      simpl; eapply Stored_store; eassumption.
  - intros now hdr body reply s' effects Hrun.
    unfold server_revealKey in Hrun.
    repeat case_match; simplify_eq; try exact Hstored;
      simpl; eapply Stored_store; eassumption.
Qed.

End LedgerProperties.


(** The submission refused, the claim is queued all the same. *)
Example sample_reveal_queued :
  (reply_status sample_reveal.1.1, length (o sample_reveal.1.2)) =
  (500, 1%nat).
Proof. vm_compute. reflexivity. Qed.

Lemma server_revealKey_after_serve_witness :
  (0 < ChunkSize8K)%nat /\
  server_serve ChunkSize8K sample_server sample_env sample_request =
    Some (Sent (replicate 32 2) [116]
            (default [] (stream_sent (response_of sample_run))),
          server_after sample_server sample_run) /\
  exists clearRoot f key a assetID rv rf rest,
    DecodeString (clearroot sample_request) = Some clearRoot /\
    dir sample_server clearRoot = Opened f (Ok [116]) /\
    rand_key sample_env = Ok key /\
    ParseInt (amount sample_request) = Some a /\
    DecodeString (assetid sample_request) = Some assetID /\
    ParseUint (revealdeadline sample_request) = Some rv /\
    ParseUint (refunddeadline sample_request) = Some rf /\
    sample_reveal.2 =
    CallRevealKey
      {| ra_paymentProposal := [1; 2; 3];
         ra_seller := seller sample_server;
         ra_key := copy32 key;
         ra_amount := a;
         ra_assetID := copy32 assetID;
         ra_clearRoot := copy32 clearRoot;
         ra_cipherRoot := copy32 (cipherRoot ChunkSize8K key (contents f));
         ra_now := 1600000300 * 10 ^ 9;
         ra_revealDeadline := FromMillis (Millis (FromMillis rv));
         ra_refundDeadline := FromMillis (Millis (FromMillis rf)) |} :: rest.
Proof.
  split; [unfold ChunkSize8K; lia|].
  split; [vm_compute; reflexivity|].
  apply (server_revealKey_after_serve bytes sample_buildRevealKey
           sample_ParseLog sample_Validate failing_submitter ChunkSize8K
           sample_server (server_after sample_server sample_run) sample_env
           sample_request (replicate 32 2) [116]
           (default [] (stream_sent (response_of sample_run)))
           (1600000300 * 10 ^ 9) [1; 2; 3]);
    [unfold ChunkSize8K; lia | exact sample_content_size
    | intros id Hid; injection Hid as <-; repeat constructor; lia
    | vm_compute; reflexivity].
Defined.


(** The program submitted follows the slices, not the record: once a later
    transaction has left other bytes where the cipher root was read, the
    claim is built from those. *)
Example claimPayment_reads_changed_bytes :
  (ok_or (NoRoot, [])
     (claimPayment bytes sample_Validate sample_submitter
        sample_buildClaimPayment
        (ok_or NoRoot (storeRecord NoRoot sample_revealed_record))
        (Some (mkHeld (replicate 32 1) [171] [99] [0]))
        (ClaimPaymentAction sample_revealed_record [7]))).2 =
  [Submit (copy32 [99]) 3 (MaxInt64 - 1000)] /\
  (ok_or (NoRoot, []) sample_claim).2 =
  [Submit (copy32 (CipherRoot sample_revealed_record)) 3 (MaxInt64 - 1000)] /\
  copy32 [99] <> copy32 (CipherRoot sample_revealed_record).
Proof.
  split; [vm_compute; reflexivity|]. split; [vm_compute; reflexivity|].
  vm_compute. discriminate.
Qed.

Lemma handlers_keep_Stored_witness :
  Stored (db sample_server) /\
  (forall ChunkSize env req resp s',
     server_serve ChunkSize sample_server env req = Some (resp, s') ->
     Stored (db s')) /\
  (forall now hdr body reply s' effects,
     server_revealKey bytes sample_buildRevealKey sample_ParseLog
       sample_Validate sample_submitter sample_server now hdr body =
       (reply, s', effects) ->
     Stored (db s')).
Proof.
  split; [apply Stored_fresh|].
  apply (handlers_keep_Stored bytes sample_buildRevealKey sample_ParseLog
           sample_Validate sample_submitter sample_server).
  apply Stored_fresh.
Defined.

(** * Rendering a Merkle proof *)

Lemma bytes_of_string_app (a b : string) :
  bytes_of_string (String.append a b) = bytes_of_string a ++ bytes_of_string b.
Proof.
  unfold bytes_of_string. induction a as [|c a IH]; [reflexivity|].
  simpl. f_equal. exact IH.
Qed.

(** The steps after the first, each behind its separator. *)
Lemma bytes_of_concat (x : string) (xs : list string) :
  bytes_of_string (String.concat ", " (x :: xs)) =
  bytes_of_string x ++
  flat_map (fun y => bytes_of_string ", " ++ bytes_of_string y) xs.
Proof.
  revert x. induction xs as [|y xs IH]; intros x.
  - simpl. rewrite app_nil_r. reflexivity.
  - change (String.concat ", " (x :: y :: xs))
      with (String.append x (String.append ", " (String.concat ", " (y :: xs)))).
    rewrite !bytes_of_string_app, IH. cbn [flat_map].
    rewrite <- !app_assoc. reflexivity.
Qed.

Lemma renderProof_loop_spec (proof : list ProofStep) (k : nat) (w : WriteLog) :
  (k < length proof)%nat ->
  concat (renderProof_loop k w proof (Z.of_nat k - 1)) =
  concat w ++
  flat_map (fun y => bytes_of_string ", " ++ bytes_of_string y)
    (map render_step (rev (take k proof))).
Proof.
  revert w. induction k as [|k IH]; intros w Hk.
  - simpl. rewrite app_nil_r. reflexivity.
  - cbn [renderProof_loop].
    replace (Z.of_nat (S k) - 1 <? 0) with false
      by (symmetry; apply Z.ltb_ge; lia).
    replace (Z.to_nat (Z.of_nat (S k) - 1)) with k by lia.
    destruct (lookup_lt_is_Some_2 proof k) as [st Hst]; [lia|].
    rewrite Hst.
    replace (Z.of_nat (S k) - 1 <? Z.of_nat (length proof) - 1) with true
      by (symmetry; apply Z.ltb_lt; lia).
    replace (Z.of_nat (S k) - 1 - 1) with (Z.of_nat k - 1) by lia.
    rewrite IH by lia.
    rewrite (take_S_r proof k st Hst), rev_app_distr. cbn [rev app map flat_map].
    unfold Fprint, Write, WriteLog_Writer. cbn [fst].
    rewrite !concat_app. cbn [concat]. rewrite !app_nil_r, <- !app_assoc.
    reflexivity.
Qed.

(** X14.  [renderProof] writes the proof as a tuple literal with the steps
    in reverse, from the last to the first: an opening brace, each step as
    [x'<hex of the hash>', <1 if left, else 0>], a comma and a space
    between two steps, a closing brace and a newline. *)
Theorem renderProof_rendered (proof : list ProofStep) :
  concat (renderProof ([] : WriteLog) proof) = bytes_of_string (rendered proof).
Proof.
  unfold renderProof, rendered.
  rewrite !bytes_of_string_app.
  destruct (rev proof) as [|st rest] eqn:Hrev.
  - apply (f_equal (@rev ProofStep)) in Hrev. rewrite rev_involutive in Hrev.
    subst proof. reflexivity.
  - assert (Hproof : proof = rev rest ++ [st]).
    { apply (f_equal (@rev ProofStep)) in Hrev.
      rewrite rev_involutive in Hrev. exact Hrev. }
    assert (Hlen : length proof = S (length rest))
      by (rewrite Hproof, length_app, length_rev; simpl; lia).
    rewrite Hlen. cbn [renderProof_loop].
    replace (Z.of_nat (S (length rest)) - 1 <? 0) with false
      by (symmetry; apply Z.ltb_ge; lia).
    replace (Z.to_nat (Z.of_nat (S (length rest)) - 1)) with (length rest)
      by lia.
    assert (Hst : proof !! length rest = Some st).
    { rewrite Hproof, lookup_app_r by (rewrite length_rev; lia).
      rewrite length_rev, Nat.sub_diag. reflexivity. }
    rewrite Hst, Hlen, Z.ltb_irrefl.
    replace (Z.of_nat (S (length rest)) - 1 - 1)
      with (Z.of_nat (length rest) - 1) by lia.
    unfold Fprint at 1. unfold Write at 1, WriteLog_Writer at 1. cbn [fst].
    rewrite concat_app. cbn [concat]. rewrite app_nil_r.
    rewrite renderProof_loop_spec by lia.
    assert (Htake : take (length rest) proof = rev rest).
    { rewrite Hproof. rewrite <- (length_rev rest). apply take_app_length. }
    rewrite Htake, rev_involutive.
    cbn [map]. rewrite bytes_of_concat.
    unfold Fprint, Write, WriteLog_Writer. cbn [fst app concat].
    rewrite !app_nil_r, <- !app_assoc. reflexivity.
Qed.

(** A proof of two steps comes out last step first. *)
Example renderProof_two_steps :
  concat (renderProof ([] : WriteLog)
            [mkProofStep [1; 171] true; mkProofStep [255] false]) =
  bytes_of_string
    (String.append "{x'ff', 0, x'01ab', 1}" (String "010" EmptyString)).
Proof. vm_compute. reflexivity. Qed.
